(** * A shallow embedding of the Hoeffding-tree learner of bsm/reason

    The development follows the Go packages it embeds:
    - [Float64]: Go's [float64] (IEEE 754 binary64) as Rocq's primitive
      floats, with the order facts and the [int]/[float64] conversions the
      code relies on;
    - [Sorting]: the contract of Go's [sort.Sort];
    - [Core]: [core/attribute.go] and [core/prediction.go];
    - [Helpers]: [classifiers/internal/helpers/split.go];
    - [Go], [Msgpack]: run-time panics and the items of the persistence
      stream;
    - [Hoeffding]: [classifiers/hoeffding/tree.go] (the variant whose
      [Train] returns the trace);
    - [HoeffdingChannel]: the variant of the tree that sends its traces on
      a channel;
    - [Weather]: the weather data of the example, on which the theorems
      are run. *)

From Stdlib Require Import ZArith Lia List Bool Floats Permutation Sorted.
From stdpp Require Import gmap strings list fin_maps.

#[local] Open Scope Z_scope.

(** ** Go's float64 *)

Module Float64.

(** [math.NaN()] is [nan], [math.IsNaN] is [is_nan] ([f != f]); the
    comparisons [<], [<=] are [PrimFloat.ltb] and [PrimFloat.leb]. The
    lemmas below go through the specification [Prim2SF] of primitive
    floats. *)

Definition SFis_nan (s : spec_float) : bool :=
  match s with S754_nan => true | _ => false end.

Lemma SFcompare_refl (s : spec_float) :
  SFis_nan s = false -> SFcompare s s = Some Eq.
Proof.
  destruct s as [[|]|[|]| |[|] m e]; simpl; try discriminate; intros _;
    try reflexivity; rewrite Z.compare_refl, Pos.compare_cont_refl; reflexivity.
Qed.

Lemma compare_cont_Eq_antisym (p q : positive) :
  Pos.compare_cont Eq q p = CompOpp (Pos.compare_cont Eq p q).
Proof. exact (Pos.compare_antisym p q). Qed.

Lemma SFcompare_antisym (x y : spec_float) :
  SFcompare y x = option_map CompOpp (SFcompare x y).
Proof.
  destruct x as [[|]|[|]| |[|] m1 e1], y as [[|]|[|]| |[|] m2 e2];
    simpl; try reflexivity;
    rewrite (Z.compare_antisym e1 e2), (compare_cont_Eq_antisym m1 m2);
    destruct (e1 ?= e2); simpl; try reflexivity;
    destruct (Pos.compare_cont Eq m1 m2); reflexivity.
Qed.

Lemma SFcompare_some x y :
  SFis_nan x = false -> SFis_nan y = false -> exists c, SFcompare x y = Some c.
Proof.
  destruct x as [[|]|[|]| |[|] m1 e1], y as [[|]|[|]| |[|] m2 e2]; simpl; try discriminate; eauto.
Qed.

Definition lex (e1 : Z) (m1 : positive) (e2 : Z) (m2 : positive) : comparison :=
  match e1 ?= e2 with Lt => Lt | Gt => Gt | Eq => Pos.compare_cont Eq m1 m2 end.

Lemma lex_Lt e1 m1 e2 m2 :
  lex e1 m1 e2 m2 = Lt <-> (e1 < e2 \/ (e1 = e2 /\ (m1 < m2)%positive)).
Proof.
  unfold lex. change (Pos.compare_cont Eq m1 m2) with (m1 ?= m2)%positive.
  destruct (Z.compare_spec e1 e2); rewrite ?Pos.compare_lt_iff; split; intros; try lia; try discriminate; auto.
Qed.

Lemma lex_Gt e1 m1 e2 m2 :
  lex e1 m1 e2 m2 = Gt <-> (e2 < e1 \/ (e1 = e2 /\ (m2 < m1)%positive)).
Proof.
  unfold lex. change (Pos.compare_cont Eq m1 m2) with (m1 ?= m2)%positive.
  destruct (Z.compare_spec e1 e2); rewrite ?Pos.compare_gt_iff; split; intros; try lia; try discriminate; auto.
Qed.

Lemma SFcompare_neg m1 e1 m2 e2 :
  SFcompare (S754_finite true m1 e1) (S754_finite true m2 e2) = Some (CompOpp (lex e1 m1 e2 m2)).
Proof. unfold lex; simpl. destruct (e1 ?= e2); reflexivity. Qed.

Lemma SFcompare_pos m1 e1 m2 e2 :
  SFcompare (S754_finite false m1 e1) (S754_finite false m2 e2) = Some (lex e1 m1 e2 m2).
Proof. reflexivity. Qed.

Lemma SFltb_trans x y z : SFltb x y = true -> SFltb y z = true -> SFltb x z = true.
Proof.
  unfold SFltb.
  destruct x as [[|]|[|]| |[|] m1 e1], y as [[|]|[|]| |[|] m2 e2], z as [[|]|[|]| |[|] m3 e3];
    try (simpl; first [discriminate | reflexivity]); rewrite ?SFcompare_neg, ?SFcompare_pos; intros H1 H2.
  - assert (G1 : lex e1 m1 e2 m2 = Gt) by (destruct (lex e1 m1 e2 m2); simpl in *; congruence).
    assert (G2 : lex e2 m2 e3 m3 = Gt) by (destruct (lex e2 m2 e3 m3); simpl in *; congruence).
    assert (G3 : lex e1 m1 e3 m3 = Gt) by (apply lex_Gt; apply lex_Gt in G1, G2; lia).
    rewrite G3. reflexivity.
  - assert (G1 : lex e1 m1 e2 m2 = Lt) by (destruct (lex e1 m1 e2 m2); simpl in *; congruence).
    assert (G2 : lex e2 m2 e3 m3 = Lt) by (destruct (lex e2 m2 e3 m3); simpl in *; congruence).
    assert (G3 : lex e1 m1 e3 m3 = Lt) by (apply lex_Lt; apply lex_Lt in G1, G2; lia).
    rewrite G3. reflexivity.
Qed.

Lemma is_nan_Prim2SF (x : float) : is_nan x = SFis_nan (Prim2SF x).
Proof.
  unfold is_nan. rewrite FloatAxioms.eqb_spec. unfold SFeqb.
  destruct (Prim2SF x) as [[|]|[|]| |[|] m e] eqn:E; simpl; try reflexivity;
  rewrite Z.compare_refl, Pos.compare_cont_refl; reflexivity.
Qed.

Lemma ltb_negb_leb (x y : float) :
  is_nan x = false -> is_nan y = false -> (x <? y)%float = negb (y <=? x)%float.
Proof.
  rewrite !is_nan_Prim2SF, FloatAxioms.ltb_spec, FloatAxioms.leb_spec. intros Hx Hy.
  unfold SFltb, SFleb. rewrite (SFcompare_antisym (Prim2SF x) (Prim2SF y)).
  destruct (SFcompare_some _ _ Hx Hy) as [c ->]. destruct c; reflexivity.
Qed.

Lemma ltb_asym (x y : float) : (x <? y)%float = true -> (y <? x)%float = false.
Proof.
  rewrite !FloatAxioms.ltb_spec. unfold SFltb. rewrite (SFcompare_antisym (Prim2SF x) (Prim2SF y)).
  destruct (SFcompare (Prim2SF x) (Prim2SF y)) as [[| |]|]; simpl; congruence.
Qed.

Lemma ltb_trans (x y z : float) :
  (x <? y)%float = true -> (y <? z)%float = true -> (x <? z)%float = true.
Proof. rewrite !FloatAxioms.ltb_spec. apply SFltb_trans. Qed.

Lemma ltb_not_nan (x y : float) : (x <? y)%float = true -> is_nan x = false /\ is_nan y = false.
Proof.
  rewrite !is_nan_Prim2SF, FloatAxioms.ltb_spec. unfold SFltb.
  destruct (Prim2SF x) as [[|]|[|]| |[|] m1 e1], (Prim2SF y) as [[|]|[|]| |[|] m2 e2]; simpl; try discriminate; auto.
Qed.


(** Conversions between Go's 64-bit [int] and [float64].

    [int(f)] truncates towards zero. When the truncated value does not fit
    (or [f] is an infinity or NaN) the Go specification leaves the result
    to the implementation; amd64 yields the minimal int64, which is what
    [int_of_float64] returns. [float64(n)] rounds to nearest, ties to
    even. *)

Definition minInt64 : Z := -9223372036854775808.
Definition maxInt64 : Z := 9223372036854775807.

Definition int_of_float64 (f : float) : Z :=
  match Prim2SF f with
  | S754_zero _ => 0
  | S754_finite s m e =>
      let mag := if 0 <=? e then Z.pos m * 2 ^ e else Z.pos m / 2 ^ (- e) in
      let z := if s then - mag else mag in
      if (minInt64 <=? z) && (z <=? maxInt64) then z else minInt64
  | S754_infinity _ | S754_nan => minInt64
  end.

Definition float64_of_int (n : Z) : float :=
  SF2Prim (binary_normalize prec emax n 0 false).

Lemma digits2_pos_bound (p : positive) (n : Z) :
  0 <= n -> Z.pos p < 2 ^ n -> Z.pos (digits2_pos p) <= n.
Proof.
  revert n. induction p as [p IH|p IH|]; intros n Hn Hlt; simpl.
  - destruct (Z.eq_dec n 0) as [->|]; [simpl in Hlt; lia|].
    replace n with (Z.succ (n - 1)) in Hlt by lia. rewrite Z.pow_succ_r in Hlt by lia.
    specialize (IH (n - 1)). lia.
  - destruct (Z.eq_dec n 0) as [->|]; [simpl in Hlt; lia|].
    replace n with (Z.succ (n - 1)) in Hlt by lia. rewrite Z.pow_succ_r in Hlt by lia.
    specialize (IH (n - 1)). lia.
  - destruct (Z.eq_dec n 0) as [->|]; [simpl in Hlt; lia|]. lia.
Qed.

Lemma digits2_pos_iter (p d : positive) :
  Z.pos (digits2_pos (Pos.iter xO p d)) = Z.pos (digits2_pos p) + Z.pos d.
Proof.
  induction d as [|d IH] using Pos.peano_ind.
  - simpl. lia.
  - rewrite Pos.iter_succ. simpl. lia.
Qed.

Lemma Zpos_iter_xO (p d : positive) :
  Z.pos (Pos.iter xO p d) = Z.pos p * 2 ^ Z.pos d.
Proof.
  induction d as [|d IH] using Pos.peano_ind.
  - simpl. lia.
  - rewrite Pos.iter_succ, Pos2Z.inj_xO, IH, Pos2Z.inj_succ, Z.pow_succ_r by lia. lia.
Qed.

Lemma binary_round_aux_exact (m : positive) (e : Z) :
  Z.pos (digits2_pos m) = 53 -> -1074 <= e <= 971 ->
  binary_round_aux prec emax false (Z.pos m) e loc_Exact = S754_finite false m e.
Proof.
  intros Hd He.
  assert (Hf : fexp prec emax (53 + e) = e).
  { unfold fexp, SpecFloat.emin, prec, emax. lia. }
  unfold binary_round_aux, shr_fexp. simpl Zdigits2. rewrite Hd, Hf, Z.sub_diag.
  cbn [shr shr_record_of_loc shr_m loc_of_shr_record round_nearest_even Zdigits2].
  rewrite Hd, Hf, Z.sub_diag. cbn [shr shr_record_of_loc shr_m].
  replace (e <=? emax - prec) with true; [reflexivity|].
  symmetry. apply Z.leb_le. unfold emax, prec. lia.
Qed.

Lemma binary_normalize_small (p : positive) :
  Z.pos p < 2 ^ 53 ->
  exists m e, binary_normalize prec emax (Z.pos p) 0 false = S754_finite false m e
    /\ -52 <= e <= 0 /\ Z.pos m = Z.pos p * 2 ^ (- e)
    /\ Z.pos (digits2_pos m) = 53.
Proof.
  intros Hlt. pose proof (digits2_pos_bound p 53 ltac:(lia) Hlt) as Hd.
  assert (Hd1 : 1 <= Z.pos (digits2_pos p)) by lia.
  unfold binary_normalize, binary_round, shl_align.
  assert (Hf : fexp prec emax (Z.pos (digits2_pos p) + 0) = Z.pos (digits2_pos p) - 53).
  { unfold fexp, SpecFloat.emin, prec, emax. lia. }
  rewrite Hf.
  destruct (Z.pos (digits2_pos p) - 53 - 0) as [|q|q] eqn:Hq; try lia.
  - exists p, 0. split; [|split; [lia|split; [simpl; lia|lia]]].
    apply binary_round_aux_exact; lia.
  - exists (Pos.iter xO p q), (Z.pos (digits2_pos p) - 53).
    assert (Hdig : Z.pos (digits2_pos (Pos.iter xO p q)) = 53).
    { rewrite digits2_pos_iter. lia. }
    split; [|split; [lia|split; [|exact Hdig]]].
    + apply binary_round_aux_exact; lia.
    + rewrite Zpos_iter_xO. f_equal. f_equal. lia.
Qed.

Lemma Prim2SF_float64_of_int (p : positive) :
  Z.pos p < 2 ^ 53 ->
  exists m e, Prim2SF (float64_of_int (Z.pos p)) = S754_finite false m e
    /\ -52 <= e <= 0 /\ Z.pos m = Z.pos p * 2 ^ (- e).
Proof.
  intros Hlt. destruct (binary_normalize_small p Hlt) as (m & e & Hn & He & Hm & Hd).
  exists m, e. split; [|auto]. unfold float64_of_int. rewrite Hn.
  apply Prim2SF_SF2Prim. simpl. unfold bounded, canonical_mantissa.
  rewrite Hd. apply andb_true_iff. split.
  - apply Z.eqb_eq. unfold fexp, SpecFloat.emin, prec, emax. lia.
  - apply Z.leb_le. unfold emax, prec. lia.
Qed.

Lemma int_of_float64_of_int (n : Z) :
  0 <= n < 2 ^ 53 -> int_of_float64 (float64_of_int n) = n.
Proof.
  intros [H0 Hlt]. destruct n as [|p|p]; try lia.
  - reflexivity.
  - destruct (Prim2SF_float64_of_int p Hlt) as (m & e & HP & He & Hm).
    unfold int_of_float64. rewrite HP.
    assert (Hz : (if 0 <=? e then Z.pos m * 2 ^ e else Z.pos m / 2 ^ (- e)) = Z.pos p).
    { destruct (Z.leb_spec 0 e).
      - replace e with 0 in * by lia. simpl in Hm. lia.
      - rewrite Hm. apply Z.div_mul. apply Z.pow_nonzero; lia. }
    rewrite Hz.
    replace ((minInt64 <=? Z.pos p) && (Z.pos p <=? maxInt64)) with true; [reflexivity|].
    symmetry. apply andb_true_iff. unfold minInt64, maxInt64. split; [apply Z.leb_le|apply Z.leb_le]; lia.
Qed.

Lemma is_nan_float64_of_int (n : Z) :
  0 <= n < 2 ^ 53 -> is_nan (float64_of_int n) = false.
Proof.
  intros [H0 Hlt]. destruct n as [|p|p]; try lia.
  - reflexivity.
  - rewrite is_nan_Prim2SF. destruct (Prim2SF_float64_of_int p Hlt) as (m & e & -> & _). reflexivity.
Qed.


(** [float_lt_int d G]: the number [d] holds is below the integer [G],
    compared exactly (no rounding of [G]); false on NaN. *)

Definition float_lt_int (d : float) (G : Z) : Prop :=
  match Prim2SF d with
  | S754_zero _ => 0 < G
  | S754_finite s m e =>
      let z := if s then Z.neg m else Z.pos m in
      if 0 <=? e then z * 2 ^ e < G else z < G * 2 ^ (- e)
  | S754_infinity s => s = true
  | S754_nan => False
  end.

Lemma int_of_float64_lt (d : float) (G : Z) :
  0 < G -> float_lt_int d G -> int_of_float64 d < G.
Proof.
  unfold float_lt_int, int_of_float64. intros HG.
  destruct (Prim2SF d) as [s|s| |s m e]; try (unfold minInt64; lia).
  cbv zeta. destruct (Z.leb_spec 0 e) as [He|He]; intros Hlt.
  - destruct s.
    + assert (0 < Z.pos m * 2 ^ e) by (apply Z.mul_pos_pos; [lia|apply Z.pow_pos_nonneg; lia]).
      destruct (_ && _); unfold minInt64; lia.
    + destruct (_ && _); unfold minInt64; lia.
  - assert (Hp : 0 < 2 ^ (- e)) by (apply Z.pow_pos_nonneg; lia).
    destruct s.
    + assert (0 <= Z.pos m / 2 ^ (- e)) by (apply Z.div_pos; lia).
      destruct (_ && _); unfold minInt64; lia.
    + assert (Z.pos m / 2 ^ (- e) < G) by (apply Z.div_lt_upper_bound; lia).
      destruct (_ && _); unfold minInt64; lia.
Qed.

Example float_lt_int_below : float_lt_int 199.5 200.
Proof. vm_compute. reflexivity. Qed.
Example float_lt_int_equal : ~ float_lt_int 200 200.
Proof. vm_compute. intros H; discriminate H. Qed.

Lemma lex_not_Gt e1 m1 e2 m2 :
  lex e1 m1 e2 m2 <> Gt <-> (e1 < e2 \/ (e1 = e2 /\ (m1 <= m2)%positive)).
Proof.
  unfold lex. change (Pos.compare_cont Eq m1 m2) with (m1 ?= m2)%positive.
  destruct (Z.compare_spec e1 e2); destruct (Pos.compare_spec m1 m2);
    split; intros; try lia; try congruence.
Qed.

Lemma lex_not_Lt e1 m1 e2 m2 :
  lex e1 m1 e2 m2 <> Lt <-> (e2 < e1 \/ (e1 = e2 /\ (m2 <= m1)%positive)).
Proof.
  unfold lex. change (Pos.compare_cont Eq m1 m2) with (m1 ?= m2)%positive.
  destruct (Z.compare_spec e1 e2); destruct (Pos.compare_spec m1 m2);
    split; intros; try lia; try congruence.
Qed.

Lemma SFleb_trans x y z : SFleb x y = true -> SFleb y z = true -> SFleb x z = true.
Proof.
  unfold SFleb.
  destruct x as [[|]|[|]| |[|] m1 e1], y as [[|]|[|]| |[|] m2 e2], z as [[|]|[|]| |[|] m3 e3];
    try (simpl; intros; first [discriminate | reflexivity]);
    rewrite ?SFcompare_neg, ?SFcompare_pos; intros H1 H2.
  - assert (G1 : lex e1 m1 e2 m2 <> Lt) by (destruct (lex e1 m1 e2 m2); simpl in *; congruence).
    assert (G2 : lex e2 m2 e3 m3 <> Lt) by (destruct (lex e2 m2 e3 m3); simpl in *; congruence).
    assert (G3 : lex e1 m1 e3 m3 <> Lt) by (apply lex_not_Lt; apply lex_not_Lt in G1, G2; lia).
    destruct (lex e1 m1 e3 m3); simpl; congruence.
  - assert (G1 : lex e1 m1 e2 m2 <> Gt) by (destruct (lex e1 m1 e2 m2); simpl in *; congruence).
    assert (G2 : lex e2 m2 e3 m3 <> Gt) by (destruct (lex e2 m2 e3 m3); simpl in *; congruence).
    assert (G3 : lex e1 m1 e3 m3 <> Gt) by (apply lex_not_Gt; apply lex_not_Gt in G1, G2; lia).
    destruct (lex e1 m1 e3 m3); simpl; congruence.
Qed.

Lemma leb_trans (x y z : float) :
  (x <=? y)%float = true -> (y <=? z)%float = true -> (x <=? z)%float = true.
Proof. rewrite !FloatAxioms.leb_spec. apply SFleb_trans. Qed.

Lemma ltb_irrefl (x : float) : (x <? x)%float = false.
Proof. destruct (x <? x)%float eqn:E; [|reflexivity]. now rewrite (ltb_asym _ _ E) in E. Qed.

Lemma ltb_false_leb (x y : float) :
  is_nan x = false -> is_nan y = false -> (x <? y)%float = false -> (y <=? x)%float = true.
Proof. intros Hx Hy H. rewrite (ltb_negb_leb x y Hx Hy) in H. now destruct (y <=? x)%float. Qed.

Lemma leb_ltb_false (x y : float) :
  (y <=? x)%float = true -> (x <? y)%float = false.
Proof.
  rewrite FloatAxioms.leb_spec, FloatAxioms.ltb_spec. unfold SFleb, SFltb.
  rewrite (SFcompare_antisym (Prim2SF y) (Prim2SF x)).
  destruct (SFcompare (Prim2SF y) (Prim2SF x)) as [[| |]|]; simpl; congruence.
Qed.

Lemma leb_refl (x : float) : is_nan x = false -> (x <=? x)%float = true.
Proof. intros Hx. apply ltb_false_leb; auto using ltb_irrefl. Qed.

End Float64.

(** ** Go's sort package *)

Module Sorting.

(** [sort.Sort] is not part of the repository. Its documented contract is
    all the code relies on: the result is a rearrangement of the input, in
    ascending order as determined by [Less], provided [Less] is a strict
    weak ordering of the elements. The sort is not stable, so the order of
    equal elements is left open; every [Sorter] is one admissible
    behaviour. *)

Definition StrictWeak {A : Type} (less : A -> A -> bool) (l : list A) : Prop :=
  (forall a, In a l -> less a a = false) /\
  (forall a b c, In a l -> In b l -> In c l ->
     less a b = true -> less b c = true -> less a c = true) /\
  (forall a b c, In a l -> In b l -> In c l ->
     less a b = false -> less b c = false -> less a c = false).

Definition Ascending {A : Type} (less : A -> A -> bool) : list A -> Prop :=
  StronglySorted (fun a b => less b a = false).

Class Sorter : Type := {
  Sort : forall {A : Type}, (A -> A -> bool) -> list A -> list A;
  Sort_Permutation : forall (A : Type) (less : A -> A -> bool) (l : list A),
    Permutation (Sort less l) l;
  Sort_Ascending : forall (A : Type) (less : A -> A -> bool) (l : list A),
    StrictWeak less l -> Ascending less (Sort less l)
}.

(** [sort.Reverse]: the ordering with [Less] flipped. *)
Definition Reverse {A : Type} (less : A -> A -> bool) : A -> A -> bool :=
  fun a b => less b a.

(** [sort.IsSorted]: no element is less than its predecessor. *)
Fixpoint IsSorted {A : Type} (less : A -> A -> bool) (l : list A) : bool :=
  match l with
  | a :: tl =>
      match tl with
      | b :: _ => if less b a then false else IsSorted less tl
      | [] => true
      end
  | [] => true
  end.

(** Insertion sort, the algorithm [sort.Sort] runs on short slices, is one
    [Sorter]:
    [for i := a + 1; i < b; i++ {
       for j := i; j > a && data.Less(j, j-1); j-- { data.Swap(j, j-1) } }].
    [sink] is the inner loop: the element [x] moves left past the elements
    it is less than, and stays to the right of one it is not less than, so
    that elements that compare equal keep their order. [before] is the part
    already in order, nearest element first. *)
Fixpoint sink {A : Type} (less : A -> A -> bool) (x : A) (before : list A) : list A :=
  match before with
  | [] => [x]
  | y :: rest => if less x y then y :: sink less x rest else x :: before
  end.

Definition insertionSort {A : Type} (less : A -> A -> bool) (l : list A) : list A :=
  rev (fold_left (fun before x => sink less x before) l []).

Lemma sink_Permutation {A : Type} (less : A -> A -> bool) (x : A) (before : list A) :
  Permutation (sink less x before) (x :: before).
Proof.
  induction before as [|y rest IH]; simpl; [reflexivity|].
  destruct (less x y); [|reflexivity].
  rewrite IH. apply perm_swap.
Qed.

Lemma sinks_Permutation {A : Type} (less : A -> A -> bool) (l before : list A) :
  Permutation (fold_left (fun before x => sink less x before) l before) (l ++ before).
Proof.
  revert before. induction l as [|x l IH]; intros before; simpl; [reflexivity|].
  rewrite IH, sink_Permutation. symmetry. apply Permutation_middle.
Qed.

Lemma insertionSort_Permutation {A : Type} (less : A -> A -> bool) (l : list A) :
  Permutation (insertionSort less l) l.
Proof.
  unfold insertionSort. rewrite <- Permutation_rev, sinks_Permutation.
  now rewrite app_nil_r.
Qed.

(** The part in order, read from the nearest element: no element is less
    than one further away. *)
Definition Sunk {A : Type} (less : A -> A -> bool) : list A -> Prop :=
  StronglySorted (fun a b => less a b = false).

Lemma sink_Sunk {A : Type} (less : A -> A -> bool) (x : A) (before : list A) :
  StrictWeak less (x :: before) -> Sunk less before -> Sunk less (sink less x before).
Proof.
  intros (Hirr & Htr & Hntr). unfold Sunk.
  induction before as [|y rest IH]; intros Hs; simpl.
  - repeat constructor.
  - apply StronglySorted_inv in Hs as [Hs Hy].
    pose proof (proj1 (List.Forall_forall _ _) Hy) as Hy'.
    destruct (less x y) eqn:Hxy.
    + constructor.
      * apply IH; [| | |exact Hs].
        -- intros a Ha. apply Hirr. simpl in *. tauto.
        -- intros a b c Ha Hb Hc. apply Htr; simpl in *; tauto.
        -- intros a b c Ha Hb Hc. apply Hntr; simpl in *; tauto.
      * apply List.Forall_forall. intros z Hz.
        apply (Permutation_in _ (sink_Permutation less x rest)) in Hz.
        destruct Hz as [<-|Hz]; [|now apply Hy'].
        destruct (less y x) eqn:Hyx; [|reflexivity].
        assert (C : less x x = true) by (apply (Htr x y x); simpl; auto).
        rewrite Hirr in C by now left. discriminate C.
    + constructor; [constructor; assumption|].
      apply List.Forall_forall. intros z [<-|Hz]; [exact Hxy|].
      apply (Hntr x y z); simpl; auto.
Qed.

Lemma Ascending_snoc {A : Type} (less : A -> A -> bool) (l : list A) (x : A) :
  Ascending less l -> (forall a, In a l -> less x a = false) -> Ascending less (l ++ [x]).
Proof.
  unfold Ascending. induction l as [|y l IH]; intros Hs Hx; simpl.
  - repeat constructor.
  - apply StronglySorted_inv in Hs as [Hs Hy]. constructor.
    + apply IH; [exact Hs|]. intros a Ha. apply Hx. now right.
    + apply List.Forall_forall. intros z Hz. apply in_app_or in Hz as [Hz|[<-|[]]].
      * exact (proj1 (List.Forall_forall _ _) Hy z Hz).
      * apply Hx. now left.
Qed.

Lemma Sunk_rev {A : Type} (less : A -> A -> bool) (before : list A) :
  Sunk less before -> Ascending less (rev before).
Proof.
  unfold Sunk. induction before as [|x before IH]; intros Hs; simpl; [constructor|].
  apply StronglySorted_inv in Hs as [Hs Hx]. apply Ascending_snoc; [now apply IH|].
  intros a Ha. apply in_rev in Ha. exact (proj1 (List.Forall_forall _ _) Hx a Ha).
Qed.

Lemma sinks_Sunk {A : Type} (less : A -> A -> bool) (l before : list A) :
  StrictWeak less (l ++ before) -> Sunk less before ->
  Sunk less (fold_left (fun before x => sink less x before) l before).
Proof.
  revert before. induction l as [|x l IH]; intros before Hsw Hs; simpl; [exact Hs|].
  destruct Hsw as (Hirr & Htr & Hntr).
  assert (Hin : forall a, In a (l ++ sink less x before) -> In a ((x :: l) ++ before)).
  { intros a Ha. apply in_app_or in Ha as [Ha|Ha].
    - simpl. right. apply in_or_app. now left.
    - apply (Permutation_in _ (sink_Permutation less x before)) in Ha.
      destruct Ha as [<-|Ha]; [now left|]. simpl. right. apply in_or_app. now right. }
  assert (Hhere : forall a, In a (x :: before) -> In a ((x :: l) ++ before)).
  { intros a [<-|Ha]; [now left|]. simpl. right. apply in_or_app. now right. }
  apply IH.
  - split; [|split].
    + intros a Ha. apply Hirr; auto.
    + intros a b c Ha Hb Hc. apply Htr; auto.
    + intros a b c Ha Hb Hc. apply Hntr; auto.
  - apply sink_Sunk; [|exact Hs]. split; [|split].
    + intros a Ha. apply Hirr; auto.
    + intros a b c Ha Hb Hc. apply Htr; auto.
    + intros a b c Ha Hb Hc. apply Hntr; auto.
Qed.

Lemma insertionSort_Ascending {A : Type} (less : A -> A -> bool) (l : list A) :
  StrictWeak less l -> Ascending less (insertionSort less l).
Proof.
  intros Hsw. unfold insertionSort. apply Sunk_rev, sinks_Sunk.
  - now rewrite app_nil_r.
  - constructor.
Qed.

#[export] Instance insertionSorter : Sorter := {|
  Sort := @insertionSort;
  Sort_Permutation := @insertionSort_Permutation;
  Sort_Ascending := @insertionSort_Ascending
|}.

End Sorting.

(** ** Run-time panics *)

Module Go.

(** A Go call either returns or panics. [NilMapWrite] is the panic of an
    assignment to an entry of a nil map. *)
Inductive panic : Type :=
| NilDereference
| IndexOutOfRange
| DivideByZero
| NilMapWrite.

Inductive result (A : Type) : Type :=
| Ok (a : A)
| Panic (why : panic).

Arguments Ok {A} a.
Arguments Panic {A} why.

Definition bind {A B : Type} (k : A -> result B) (r : result A) : result B :=
  match r with
  | Ok a => k a
  | Panic why => Panic why
  end.

Definition returns {A : Type} (r : result A) : Prop := exists a, r = Ok a.

(** Go's 64-bit [int] arithmetic wraps around. *)
Definition wrap64 (z : Z) : Z := (z + 2 ^ 63) mod 2 ^ 64 - 2 ^ 63.

End Go.

#[export] Instance result_bind : MBind Go.result := @Go.bind.
#[export] Instance result_ret : MRet Go.result := @Go.Ok.

(** ** The persistence stream *)

(** Modelled from the spec: the encoder and decoder of internal/msgpack
    (not among the sources) read and write a self-describing tagged stream.
    The stream is kept at the level of its items. A value of a type
    registered under a code is written as that code followed by what its
    [EncodeTo] writes, and a nil pointer as the nil item; reading checks the
    code and hands the rest to [DecodeFrom]. *)
Module Msgpack.

Inductive token : Type :=
| Nil
| Int (z : Z)
| Float (f : float)
| Bool (b : bool)
| Str (s : string)
| StrIntMap (m : gmap string Z)
| Tag (code : Z).

(** A decoder consumes a prefix of the stream or reports an error. *)
Inductive decoded (A : Type) : Type :=
| Decoded (a : A) (rest : list token)
| Malformed.

Arguments Decoded {A} a rest.
Arguments Malformed {A}.

Definition encodePtr {A : Type} (code : Z) (EncodeTo : A -> list token)
    (p : option A) : list token :=
  match p with
  | None => [Nil]
  | Some a => Tag code :: EncodeTo a
  end.

Definition decodePtr {A : Type} (code : Z) (DecodeFrom : list token -> decoded A)
    (ts : list token) : decoded (option A) :=
  match ts with
  | Nil :: rest => Decoded None rest
  | Tag c :: ts' =>
      if c =? code then
        match DecodeFrom ts' with
        | Decoded a rest => Decoded (Some a) rest
        | Malformed => Malformed
        end
      else Malformed
  | _ => Malformed
  end.

(** Reading back what was written, when the type's own codec gives back
    [g a] for [a]. *)
Lemma decodePtr_encodePtr {A : Type} (code : Z) (EncodeTo : A -> list token)
    (DecodeFrom : list token -> decoded A) (g : A -> A) :
  (forall a rest, DecodeFrom (EncodeTo a ++ rest) = Decoded (g a) rest) ->
  forall p rest,
    decodePtr code DecodeFrom (encodePtr code EncodeTo p ++ rest)
    = Decoded (g <$> p) rest.
Proof.
  intros Hcodec [a|] rest; [|reflexivity].
  simpl. now rewrite Z.eqb_refl, Hcodec.
Qed.

End Msgpack.

(** ** Package core *)

Module Core.
Import Float64 Sorting Go Msgpack.

(** *** core/attribute.go *)

(** [type AttributeKind uint8], with its two constants. *)
Definition AttributeKind : Type := Z.
Definition AttributeKindNumeric : AttributeKind := 0.
Definition AttributeKindNominal : AttributeKind := 1.

(** [type AttributeValue float64]; the missing value is NaN. *)
Module AttributeValue.

Definition t : Type := float.

Definition IsMissing (v : t) : bool := is_nan v.

Definition Value (v : t) : float := v.

Definition Index (v : t) : Z :=
  if IsMissing v then -1 else int_of_float64 v.

End AttributeValue.

Definition MissingValue : AttributeValue.t := nan.

(** [AttributeValues]: the name-to-index map [vi] and the cached slice
    [vals] (the lock guards concurrent callers and has no sequential
    effect). A Go map is nil until [make] allocates it; [vi] is an allocated
    map, the one [NewAttributeValues] makes and [IndexOf] and [Values] hand
    on. [ValueOf], the only caller of [IndexOf] in the library, calls
    [NewAttributeValues] for an attribute that has no values yet. The zero
    value [AttributeValues{}], which a caller of the package can write down
    as well, holds a nil map and is no value of [t]: see [held] below. *)
Module AttributeValues.

Record t : Type := mk { vi : gmap string Z; vals : list string }.

Fixpoint fill (i : Z) (names : list string) (m : gmap string Z) : gmap string Z :=
  match names with
  | [] => m
  | val :: rest => fill (i + 1) rest (<[val := i]> m)
  end.

Definition NewAttributeValues (names : list string) : t :=
  {| vi := fill 0 names ∅; vals := [] |}.

(** [Len] accepts a nil receiver. *)
Definition Len (v : option t) : Z :=
  match v with
  | None => 0
  | Some v => Z.of_nat (size (vi v))
  end.

(** [IndexOf] on an allocated map: the index of [s]; an unseen [s] is
    appended under the next free index and the cached slice is dropped.
    [IndexOfHeld] below is the method on either receiver, the zero value
    included. *)
Definition IndexOf (v : t) (s : string) : Z * t :=
  match vi v !! s with
  | Some n => (n, v)
  | None =>
      let n := Z.of_nat (size (vi v)) in
      (n, {| vi := <[s := n]> (vi v); vals := [] |})
  end.

(** What a [*AttributeValues] may point to: the zero value, with a nil map
    and a nil slice, or a struct whose map is allocated. *)
Inductive held : Type :=
| ZeroValue
| Allocated (v : t).

(** [IndexOf] on either. On the zero value the read [v.vi[s]] finds nothing
    and [len(v.vi)] is 0, and the write [v.vi[s] = n] panics. *)
Definition IndexOfHeld (h : held) (s : string) : result (Z * held) :=
  match h with
  | ZeroValue => Panic NilMapWrite
  | Allocated v => let '(n, v') := IndexOf v s in Ok (n, Allocated v')
  end.

(** The indices of a value set built by [NewAttributeValues] from distinct
    names and grown by [IndexOf] are exactly [0 .. len-1]. *)
Definition Dense (v : t) : Prop :=
  forall s n, vi v !! s = Some n -> 0 <= n < Z.of_nat (size (vi v)).

(** [EncodeTo] and [DecodeFrom] (registered under 7730): the index map is
    all that is written; a decoded value set has no cached slice. *)
Definition EncodeTo (v : t) : list token := [StrIntMap (vi v)].

Definition DecodeFrom (ts : list token) : decoded t :=
  match ts with
  | StrIntMap m :: rest => Decoded {| vi := m; vals := [] |} rest
  | _ => Malformed
  end.

(** The loop [for val, i := range v.vi { v.vals[i] = val }] over the
    entries in the order [entries]; an index outside the slice panics. *)
Fixpoint assign (entries : list (string * Z)) (names : list string)
  : result (list string) :=
  match entries with
  | [] => Ok names
  | (val, i) :: rest =>
      if (0 <=? i) && (i <? Z.of_nat (length names))
      then assign rest (<[Z.to_nat i := val]> names)
      else Panic IndexOutOfRange
  end.

(** [Values]: the names by index. The cached slice is returned when it has
    as many entries as the map; otherwise it is rebuilt, with one slot per
    entry of the map, and cached. A [range] over a map visits its entries
    in an order the language leaves open: [order] is the order taken by the
    call at hand, some arrangement of the entries. A nil receiver has no
    values. *)
Definition Values (order : list (string * Z)) (v : option t)
  : result (list string * option t) :=
  match v with
  | None => Ok ([], None)
  | Some v =>
      if (length (vals v) =? size (vi v))%nat then Ok (vals v, Some v)
      else
        names ← assign order (replicate (size (vi v)) EmptyString);
        Ok (names, Some {| vi := vi v; vals := names |})
  end.

(** No index is shared by two names. *)
Definition Distinct (v : t) : Prop :=
  forall s s' n, vi v !! s = Some n -> vi v !! s' = Some n -> s = s'.

(** [names] has a slot per entry and holds every name at its index. *)
Definition Lists (v : t) (names : list string) : Prop :=
  length names = size (vi v) /\
  forall s n, vi v !! s = Some n -> names !! Z.to_nat n = Some s.

(** The state [NewAttributeValues] sets up from distinct names, and that
    [IndexOf] and [Values] keep: indices are dense and distinct, and a
    cached slice of full length lists the names. *)
Definition WellIndexed (v : t) : Prop :=
  Dense v /\ Distinct v /\ (length (vals v) = size (vi v) -> Lists v (vals v)).

End AttributeValues.

(** What an instance holds under a name ([InstanceValue] is
    [interface{}]): the dynamic types [ValueOf] tells apart. [IVfloat]
    stands for float64 and float32 (widening is exact), [IVinteger] for the
    ten integer types, [IVstring] and [IVbytes] for string and []byte,
    [IVother] for nil and everything else. *)
Inductive InstanceValue : Type :=
| IVfloat (f : float)
| IVinteger (n : Z)
| IVstring (s : string)
| IVbytes (s : string)
| IVother.

(** [core.Instance], as far as the code here uses it: the accessor
    [GetAttributeValue]. *)
Definition Instance : Type := string -> InstanceValue.

Module Attribute.

Record t : Type := mk {
  Name : string;
  Kind : AttributeKind;
  Values : option AttributeValues.t
}.

Definition IsNominal (a : t) : bool := Kind a =? AttributeKindNominal.

Definition IsNumeric (a : t) : bool := negb (IsNominal a).

Definition Len (a : t) : Z :=
  if Kind a =? AttributeKindNumeric then 0 else AttributeValues.Len (Values a).

(** The value set of a nominal attribute, allocated on first use
    ([if a.Values == nil { a.Values = NewAttributeValues() }]). *)
Definition valuesOf (a : t) : AttributeValues.t :=
  match Values a with
  | Some vs => vs
  | None => AttributeValues.NewAttributeValues []
  end.

(** [ValueOf] converts an instance value; on a nominal attribute it
    allocates the value set when there is none and registers unseen names,
    so the attribute is returned with the value. *)
Definition ValueOf (a : t) (v : InstanceValue) : AttributeValue.t * t :=
  if Kind a =? AttributeKindNumeric then
    match v with
    | IVfloat n => (n, a)
    | IVinteger n => (float64_of_int n, a)
    | _ => (MissingValue, a)
    end
  else if Kind a =? AttributeKindNominal then
    let values := valuesOf a in
    match v with
    | IVstring s | IVbytes s =>
        let '(n, values') := AttributeValues.IndexOf values s in
        (float64_of_int n, {| Name := Name a; Kind := Kind a; Values := Some values' |})
    | _ => (MissingValue, {| Name := Name a; Kind := Kind a; Values := Some values |})
    end
  else (MissingValue, a).

Definition Value (a : t) (inst : Instance) : AttributeValue.t * t :=
  ValueOf a (inst (Name a)).

(** [EncodeTo] and [DecodeFrom] (registered under 7729): the name, the kind
    and the pointer to the value set, in this order. *)
Definition EncodeTo (a : t) : list token :=
  [Str (Name a); Int (Kind a)]
  ++ encodePtr 7730 AttributeValues.EncodeTo (Values a).

Definition DecodeFrom (ts : list token) : decoded t :=
  match ts with
  | Str name :: Int kind :: ts' =>
      match decodePtr 7730 AttributeValues.DecodeFrom ts' with
      | Decoded values rest =>
          Decoded {| Name := name; Kind := kind; Values := values |} rest
      | Malformed => Malformed
      end
  | _ => Malformed
  end.

End Attribute.

(** Modelled from the spec: the [Model] descriptor (core/model.go is not
    among the sources). It owns the target attribute and the predictor
    attributes; [Predictor] looks a predictor up by name, and the target's
    kind decides the task. A [*core.Attribute] held elsewhere (by a split
    condition) points into the model: it is modelled by the name the model
    files the attribute under, [None] being the nil pointer. *)
Module Model.

Record t : Type := mk {
  Target : Attribute.t;
  Predictors : gmap string Attribute.t
}.

Definition Predictor (m : t) (name : string) : option Attribute.t :=
  Predictors m !! name.

Definition IsRegression (m : t) : bool := Attribute.IsNumeric (Target m).

(** The in-place update of the attribute a pointer refers to. *)
Definition store (m : t) (name : string) (a : Attribute.t) : t :=
  {| Target := Target m; Predictors := <[name := a]> (Predictors m) |}.

(** Modelled from the spec: the model is persisted as its target followed
    by its predictors, each a registered [*Attribute]; reading files every
    predictor under its own name. *)
Definition encodeAttributes (attrs : list Attribute.t) : list token :=
  flat_map (fun a => encodePtr 7729 Attribute.EncodeTo (Some a)) attrs.

Fixpoint decodeAttributes (n : nat) (ts : list token) : decoded (list Attribute.t) :=
  match n with
  | O => Decoded [] ts
  | S n' =>
      match decodePtr 7729 Attribute.DecodeFrom ts with
      | Decoded (Some a) ts' =>
          match decodeAttributes n' ts' with
          | Decoded attrs rest => Decoded (a :: attrs) rest
          | Malformed => Malformed
          end
      | _ => Malformed
      end
  end.

Definition file (attrs : list Attribute.t) : gmap string Attribute.t :=
  list_to_map (map (fun a => (Attribute.Name a, a)) attrs).

Definition EncodeTo (m : t) : list token :=
  let attrs := map snd (map_to_list (Predictors m)) in
  encodePtr 7729 Attribute.EncodeTo (Some (Target m))
  ++ [Int (Z.of_nat (length attrs))] ++ encodeAttributes attrs.

Definition DecodeFrom (ts : list token) : decoded t :=
  match decodePtr 7729 Attribute.DecodeFrom ts with
  | Decoded (Some target) (Int n :: ts') =>
      match decodeAttributes (Z.to_nat n) ts' with
      | Decoded attrs rest =>
          Decoded {| Target := target; Predictors := file attrs |} rest
      | Malformed => Malformed
      end
  | _ => Malformed
  end.

(** Every predictor is filed under its own name. *)
Definition named (m : t) : Prop :=
  forall name a, Predictor m name = Some a -> Attribute.Name a = name.

End Model.

Definition AttributePtr : Type := option string.

(** *** core/prediction.go *)

Record PredictedValue : Type := mkPredictedValue {
  PV_AttributeValue : AttributeValue.t;
  Votes : float
}.

Module Prediction.

Definition t : Type := list PredictedValue.

Definition Less (a b : PredictedValue) : bool := (Votes a <? Votes b)%float.

Section WithSort.
Context `{Sorter}.

(** [Rank] sorts the slice in place, highest votes first. *)
Definition Rank (p : t) : t := Sort (Reverse Less) p.

(** [Top] returns the first entry once the slice is in descending order;
    since [Rank] reorders the caller's slice, the slice is returned too. *)
Definition Top (p : t) : PredictedValue * t :=
  match p with
  | [] => ({| PV_AttributeValue := MissingValue; Votes := 0 |}, p)
  | first :: _ =>
      let p' := if negb (IsSorted (Reverse Less) p) then Rank p else p in
      (hd first p', p')
  end.

Definition Index (p : t) : Z := AttributeValue.Index (PV_AttributeValue (fst (Top p))).

Definition Value (p : t) : float := AttributeValue.Value (PV_AttributeValue (fst (Top p))).

End WithSort.

End Prediction.

(** *** Facts about value sets and attributes *)

Lemma fill_lookup (names : list string) (i : Z) (m : gmap string Z) (s : string) (n : Z) :
  AttributeValues.fill i names m !! s = Some n ->
  m !! s = Some n \/ i <= n < i + Z.of_nat (length names).
Proof.
  revert i m. induction names as [|val rest IH]; intros i m; simpl.
  - auto.
  - intros Hl. destruct (IH _ _ Hl) as [Hm|Hr]; [|lia].
    destruct (decide (val = s)) as [->|Hne].
    + rewrite lookup_insert_eq in Hm. inversion Hm; subst. right; lia.
    + rewrite lookup_insert_ne in Hm by assumption. auto.
Qed.

Lemma fill_size (names : list string) (i : Z) (m : gmap string Z) :
  NoDup names -> (forall s, In s names -> m !! s = None) ->
  size (AttributeValues.fill i names m) = (size m + length names)%nat.
Proof.
  revert i m. induction names as [|val rest IH]; intros i m Hnd Hfresh; simpl.
  - lia.
  - apply NoDup_cons in Hnd as [Hnotin Hnd].
    rewrite IH; [| assumption |].
    + rewrite map_size_insert_None by (apply Hfresh; now left). lia.
    + intros s Hs. rewrite lookup_insert_ne.
      * apply Hfresh; now right.
      * intros ->. apply Hnotin. now apply list_elem_of_In.
Qed.

Lemma NewAttributeValues_Dense (names : list string) :
  NoDup names -> AttributeValues.Dense (AttributeValues.NewAttributeValues names).
Proof.
  intros Hnd s n Hl. unfold AttributeValues.NewAttributeValues in *. simpl in *.
  rewrite fill_size by (try assumption; intros; apply lookup_empty).
  apply fill_lookup in Hl as [Hl|Hl]; [now rewrite lookup_empty in Hl|].
  rewrite map_size_empty. lia.
Qed.

Lemma IndexOf_Dense (v : AttributeValues.t) (s : string) :
  AttributeValues.Dense v ->
  AttributeValues.Dense (snd (AttributeValues.IndexOf v s)) /\
  0 <= fst (AttributeValues.IndexOf v s)
    < AttributeValues.Len (Some (snd (AttributeValues.IndexOf v s))).
Proof.
  intros Hd. unfold AttributeValues.IndexOf, AttributeValues.Len.
  destruct (AttributeValues.vi v !! s) as [n|] eqn:Hl; simpl.
  - split; [assumption|]. exact (Hd s n Hl).
  - pose proof (map_size_insert_None s (Z.of_nat (size (AttributeValues.vi v)))
      (AttributeValues.vi v) Hl) as Hsz.
    split; [|lia].
    intros s' n' Hl'. simpl in *. rewrite Hsz.
    destruct (decide (s = s')) as [->|Hne].
    + rewrite lookup_insert_eq in Hl'. inversion Hl'; subst. lia.
    + rewrite lookup_insert_ne in Hl' by assumption.
      specialize (Hd s' n' Hl'). lia.
Qed.



Lemma ValueOf_Kind (a : Attribute.t) (v : InstanceValue) :
  Attribute.Kind (snd (Attribute.ValueOf a v)) = Attribute.Kind a.
Proof.
  unfold Attribute.ValueOf.
  destruct (Attribute.Kind a =? AttributeKindNumeric); [destruct v; reflexivity|].
  destruct (Attribute.Kind a =? AttributeKindNominal); [|reflexivity].
  destruct v; try reflexivity;
    destruct (AttributeValues.IndexOf _ _); reflexivity.
Qed.



(** *** Facts about predictions *)

Lemma Less_StrictWeak (p : Prediction.t) :
  (forall e, In e p -> is_nan (Votes e) = false) ->
  StrictWeak (Reverse Prediction.Less) p.
Proof.
  intros Hnan. unfold Reverse, Prediction.Less. split; [|split].
  - intros a _. apply ltb_irrefl.
  - intros a b c _ _ _ Hab Hbc. exact (ltb_trans _ _ _ Hbc Hab).
  - intros a b c Ha Hb Hc Hab Hbc.
    apply leb_ltb_false. apply (leb_trans _ (Votes b)).
    + apply ltb_false_leb; auto.
    + apply ltb_false_leb; auto.
Qed.

Lemma IsSorted_head_max (a : PredictedValue) (l : Prediction.t) :
  IsSorted (Reverse Prediction.Less) (a :: l) = true ->
  (forall e, In e (a :: l) -> is_nan (Votes e) = false) ->
  forall e, In e (a :: l) -> (Votes e <=? Votes a)%float = true.
Proof.
  revert a. induction l as [|b l IH]; intros a Hs Hnan e He.
  - destruct He as [<-|[]]. apply leb_refl, Hnan. now left.
  - simpl in Hs. unfold Reverse at 1, Prediction.Less at 1 in Hs.
    destruct (Votes a <? Votes b)%float eqn:Hab; [discriminate|].
    destruct He as [<-|He]; [apply leb_refl, Hnan; now left|].
    apply (leb_trans _ (Votes b)).
    + apply IH; [exact Hs| |exact He]. intros x Hx. apply Hnan. now right.
    + apply ltb_false_leb; [apply Hnan; now left|apply Hnan; right; now left|exact Hab].
Qed.

(** C10. [Top] never fails. On the empty prediction it returns the missing
    value, so that [Index] is [-1]. On a non-empty prediction it returns one
    of the entries and leaves the slice with the same entries; when the
    votes are numbers (none is NaN) no entry has more votes than the one
    returned. This holds for every behaviour of [sort.Sort] within its
    contract. *)
Theorem Top_total `{Sorter} :
  (Prediction.Top [] = ({| PV_AttributeValue := MissingValue; Votes := 0 |}, [])
   /\ Prediction.Index [] = -1) /\
  forall p : Prediction.t,
    p <> [] ->
    In (fst (Prediction.Top p)) p /\
    Permutation (snd (Prediction.Top p)) p /\
    ((forall e, In e p -> is_nan (Votes e) = false) ->
     forall e, In e p -> (Votes e <=? Votes (fst (Prediction.Top p)))%float = true).
Proof.
  split; [split; reflexivity|].
  intros [|first rest] Hne; [congruence|]. clear Hne.
  unfold Prediction.Top.
  destruct (IsSorted (Reverse Prediction.Less) (first :: rest)) eqn:Hs; simpl negb; cbv iota.
  - simpl fst. split; [now left|]. split; [reflexivity|].
    intros Hnan. now apply IsSorted_head_max.
  - unfold Prediction.Rank.
    pose proof (Sort_Permutation _ (Reverse Prediction.Less) (first :: rest)) as P.
    pose proof (Sort_Ascending _ (Reverse Prediction.Less) (first :: rest)) as A.
    destruct (Sort (Reverse Prediction.Less) (first :: rest)) as [|t tl] eqn:Hsort.
    { apply Permutation_nil in P. discriminate P. }
    cbn [fst snd hd]. split; [|split].
    + apply (Permutation_in _ P). now left.
    + exact P.
    + intros Hnan e He. specialize (A (Less_StrictWeak (first :: rest) Hnan)).
      apply (Permutation_in _ (Permutation_sym P)) in He.
      apply StronglySorted_inv in A as [_ A].
      assert (Ht : is_nan (Votes t) = false).
      { apply Hnan, (Permutation_in _ P). now left. }
      destruct He as [<-|He]; [now apply leb_refl|].
      pose proof (proj1 (List.Forall_forall _ _) A e He) as Hlt.
      unfold Reverse, Prediction.Less in Hlt.
      apply ltb_false_leb; [exact Ht| |exact Hlt].
      apply Hnan, (Permutation_in _ P). now right.
Qed.

Definition threeVotes : Prediction.t :=
  [ {| PV_AttributeValue := 0; Votes := 1.5 |};
    {| PV_AttributeValue := 1; Votes := 3.5 |};
    {| PV_AttributeValue := 2; Votes := 2 |} ]%float.

Lemma Top_total_witness :
  In (fst (Prediction.Top threeVotes)) threeVotes /\
  Permutation (snd (Prediction.Top threeVotes)) threeVotes /\
  ((forall e, In e threeVotes -> is_nan (Votes e) = false) ->
   forall e, In e threeVotes ->
     (Votes e <=? Votes (fst (Prediction.Top threeVotes)))%float = true).
Proof.
  apply (proj2 Top_total threeVotes). discriminate.
Defined.

(** Votes that hold a NaN. No comparison with NaN holds, so [sort.IsSorted]
    finds the slice [1, NaN, 5] in descending order, [Top] returns its first
    entry as it stands, and the entry with 5 votes has more. *)
Definition nanVotes : Prediction.t :=
  [ {| PV_AttributeValue := 0; Votes := 1 |};
    {| PV_AttributeValue := 1; Votes := nan |};
    {| PV_AttributeValue := 2; Votes := 5 |} ]%float.

Lemma Top_not_maximal :
  IsSorted (Reverse Prediction.Less) nanVotes = true /\
  Prediction.Top nanVotes = ({| PV_AttributeValue := 0; Votes := 1 |}%float, nanVotes) /\
  In {| PV_AttributeValue := 2; Votes := 5 |}%float nanVotes /\
  (Votes (fst (Prediction.Top nanVotes)) <? 5)%float = true /\
  ~ (forall e, In e nanVotes ->
       (Votes e <=? Votes (fst (Prediction.Top nanVotes)))%float = true).
Proof.
  split; [reflexivity|]. split; [reflexivity|].
  split; [right; right; left; reflexivity|]. split; [reflexivity|].
  intros Hmax.
  specialize (Hmax {| PV_AttributeValue := 2; Votes := 5 |}%float
                (or_intror (or_intror (or_introl eq_refl)))).
  vm_compute in Hmax. discriminate Hmax.
Defined.

Example Top_ranks :
  fst (Prediction.Top [ {| PV_AttributeValue := 0; Votes := 1.5 |};
                        {| PV_AttributeValue := 1; Votes := 3.5 |};
                        {| PV_AttributeValue := 2; Votes := 2 |} ]%float)
  = {| PV_AttributeValue := 1; Votes := 3.5 |}%float.
Proof. reflexivity. Qed.

(** *** What a model keeps across the persistence stream *)

(** A value set comes back with its index map and without the cached
    slice; names, kinds and the filing of predictors are kept. *)
Definition dropCache (v : AttributeValues.t) : AttributeValues.t :=
  {| AttributeValues.vi := AttributeValues.vi v; AttributeValues.vals := [] |}.

Definition reloadedAttribute (a : Attribute.t) : Attribute.t :=
  {| Attribute.Name := Attribute.Name a; Attribute.Kind := Attribute.Kind a;
     Attribute.Values := dropCache <$> Attribute.Values a |}.

Definition reloaded (m : Model.t) : Model.t :=
  {| Model.Target := reloadedAttribute (Model.Target m);
     Model.Predictors := reloadedAttribute <$> Model.Predictors m |}.

Lemma AttributeValues_DecodeFrom_EncodeTo (v : AttributeValues.t) (rest : list token) :
  AttributeValues.DecodeFrom (AttributeValues.EncodeTo v ++ rest)
  = Decoded (dropCache v) rest.
Proof. reflexivity. Qed.

Lemma Attribute_DecodeFrom_EncodeTo (a : Attribute.t) (rest : list token) :
  Attribute.DecodeFrom (Attribute.EncodeTo a ++ rest)
  = Decoded (reloadedAttribute a) rest.
Proof.
  unfold Attribute.EncodeTo, Attribute.DecodeFrom.
  rewrite <- app_assoc. cbn [app].
  now rewrite (decodePtr_encodePtr 7730 _ _ dropCache
                 AttributeValues_DecodeFrom_EncodeTo).
Qed.

Lemma decodeAttributes_encodeAttributes (attrs : list Attribute.t) (rest : list token) :
  Model.decodeAttributes (length attrs) (Model.encodeAttributes attrs ++ rest)
  = Decoded (map reloadedAttribute attrs) rest.
Proof.
  induction attrs as [|a attrs IH]; [reflexivity|].
  unfold Model.encodeAttributes in *.
  cbn [length flat_map Model.decodeAttributes map].
  rewrite <- app_assoc.
  rewrite (decodePtr_encodePtr 7729 _ _ reloadedAttribute
             Attribute_DecodeFrom_EncodeTo (Some a)).
  cbn [fmap option_fmap option_map]. now rewrite IH.
Qed.

Lemma file_reloaded (m : gmap string Attribute.t) :
  (forall name a, m !! name = Some a -> Attribute.Name a = name) ->
  Model.file (map reloadedAttribute (map snd (map_to_list m))) = reloadedAttribute <$> m.
Proof.
  intros Hnamed. unfold Model.file.
  assert (E : map (fun a => (Attribute.Name a, a))
                (map reloadedAttribute (map snd (map_to_list m)))
              = prod_map id reloadedAttribute <$> map_to_list m).
  { rewrite !map_map. apply map_ext_in. intros [k a] Hin. simpl.
    f_equal. apply Hnamed. apply elem_of_map_to_list. now apply list_elem_of_In. }
  rewrite E, list_to_map_fmap, list_to_map_to_list. reflexivity.
Qed.

Lemma Model_DecodeFrom_EncodeTo (m : Model.t) (rest : list token) :
  Model.named m -> Model.DecodeFrom (Model.EncodeTo m ++ rest) = Decoded (reloaded m) rest.
Proof.
  intros Hnamed. unfold Model.DecodeFrom, Model.EncodeTo.
  rewrite <- app_assoc.
  rewrite (decodePtr_encodePtr 7729 _ _ reloadedAttribute
             Attribute_DecodeFrom_EncodeTo (Some (Model.Target m))).
  cbn [fmap option_fmap option_map app].
  rewrite Nat2Z.id, decodeAttributes_encodeAttributes.
  unfold reloaded. now rewrite file_reloaded.
Qed.

(** Reading a value commutes with the reload. *)
Lemma IndexOf_dropCache (v : AttributeValues.t) (s : string) :
  AttributeValues.IndexOf (dropCache v) s
  = (fst (AttributeValues.IndexOf v s), dropCache (snd (AttributeValues.IndexOf v s))).
Proof.
  unfold AttributeValues.IndexOf, dropCache. simpl.
  destruct (AttributeValues.vi v !! s); reflexivity.
Qed.

Lemma ValueOf_reloaded (a : Attribute.t) (v : InstanceValue) :
  Attribute.ValueOf (reloadedAttribute a) v
  = (fst (Attribute.ValueOf a v), reloadedAttribute (snd (Attribute.ValueOf a v))).
Proof.
  unfold Attribute.ValueOf. cbn [reloadedAttribute Attribute.Kind Attribute.Name].
  destruct (Attribute.Kind a =? AttributeKindNumeric); [destruct v; reflexivity|].
  destruct (Attribute.Kind a =? AttributeKindNominal); [|reflexivity].
  assert (Hv : Attribute.valuesOf (reloadedAttribute a) = dropCache (Attribute.valuesOf a)).
  { unfold Attribute.valuesOf, reloadedAttribute. simpl.
    destruct (Attribute.Values a); reflexivity. }
  rewrite Hv.
  destruct v as [f|n|s|s|]; try reflexivity;
    rewrite IndexOf_dropCache;
    destruct (AttributeValues.IndexOf (Attribute.valuesOf a) s); reflexivity.
Qed.

Lemma Value_reloaded (a : Attribute.t) (inst : Instance) :
  Attribute.Value (reloadedAttribute a) inst
  = (fst (Attribute.Value a inst), reloadedAttribute (snd (Attribute.Value a inst))).
Proof. unfold Attribute.Value. apply ValueOf_reloaded. Qed.

Lemma Predictor_reloaded (m : Model.t) (name : string) :
  Model.Predictor (reloaded m) name = reloadedAttribute <$> Model.Predictor m name.
Proof. unfold Model.Predictor, reloaded. simpl. apply lookup_fmap. Qed.

Lemma store_reloaded (m : Model.t) (name : string) (a : Attribute.t) :
  Model.store (reloaded m) name (reloadedAttribute a) = reloaded (Model.store m name a).
Proof. unfold Model.store, reloaded. simpl. f_equal. now rewrite fmap_insert. Qed.

(** *** Facts about [Values] and the indices of a value set *)

Lemma fill_lookup_other (names : list string) (i : Z) (m : gmap string Z) (s : string) :
  ~ In s names -> AttributeValues.fill i names m !! s = m !! s.
Proof.
  revert i m. induction names as [|val rest IH]; intros i m Hnotin; simpl; [reflexivity|].
  rewrite IH by (intros Hin; apply Hnotin; now right).
  apply lookup_insert_ne. intros ->. apply Hnotin. now left.
Qed.

Lemma fill_lookup_nth (names : list string) (i : Z) (m : gmap string Z)
    (j : nat) (s : string) :
  NoDup names -> names !! j = Some s ->
  AttributeValues.fill i names m !! s = Some (i + Z.of_nat j).
Proof.
  revert i m j. induction names as [|val rest IH]; intros i m j Hnd Hj; [discriminate|].
  apply NoDup_cons in Hnd as [Hnotin Hnd]. destruct j as [|j]; simpl in *.
  - inversion Hj; subst. rewrite fill_lookup_other.
    + rewrite lookup_insert_eq. f_equal. lia.
    + intros Hin. apply Hnotin. now apply list_elem_of_In.
  - rewrite (IH _ _ j Hnd Hj). f_equal. lia.
Qed.

Lemma fill_lookup_last (names : list string) (s : string) (i : Z) (m : gmap string Z) :
  AttributeValues.fill i (names ++ [s]) m !! s = Some (i + Z.of_nat (length names)).
Proof.
  revert i m. induction names as [|val rest IH]; intros i m; simpl.
  - rewrite lookup_insert_eq. f_equal. lia.
  - rewrite IH. f_equal. lia.
Qed.

Lemma fill_size_le (names : list string) (i : Z) (m : gmap string Z) :
  (size (AttributeValues.fill i names m) <= size m + length names)%nat.
Proof.
  revert i m. induction names as [|val rest IH]; intros i m; simpl; [lia|].
  specialize (IH (i + 1) (<[val := i]> m)).
  pose proof (map_size_insert val i m) as Hs.
  destruct (m !! val); simpl in Hs; lia.
Qed.

Lemma fill_size_seen (names : list string) (i : Z) (m : gmap string Z) (s : string) :
  In s names -> is_Some (m !! s) ->
  (size (AttributeValues.fill i names m) < size m + length names)%nat.
Proof.
  revert i m. induction names as [|val rest IH]; intros i m Hin Hs; [destruct Hin|].
  simpl. destruct (m !! val) as [n|] eqn:Hval.
  - pose proof (fill_size_le rest (i + 1) (<[val := i]> m)) as Hle.
    rewrite map_size_insert_Some in Hle by eauto. lia.
  - destruct Hin as [->|Hin]; [destruct Hs as [n Hs]; congruence|].
    specialize (IH (i + 1) (<[val := i]> m) Hin).
    rewrite map_size_insert_None in IH by assumption.
    assert (Hs' : is_Some (<[val := i]> m !! s)).
    { destruct (decide (val = s)) as [->|Hne];
        [rewrite lookup_insert_eq; eauto|now rewrite lookup_insert_ne]. }
    specialize (IH Hs'). lia.
Qed.

Lemma fill_size_dup (names : list string) (i : Z) (m : gmap string Z) :
  ~ NoDup names ->
  (size (AttributeValues.fill i names m) < size m + length names)%nat.
Proof.
  revert i m. induction names as [|val rest IH]; intros i m Hdup.
  - destruct Hdup. constructor.
  - simpl. destruct (decide (val ∈ rest)) as [Hin|Hnotin].
    + pose proof (fill_size_seen rest (i + 1) (<[val := i]> m) val) as Hlt.
      pose proof (map_size_insert val i m) as Hs.
      assert (size (<[val := i]> m) <= S (size m))%nat
        by (destruct (m !! val); simpl in Hs; lia).
      rewrite lookup_insert_eq in Hlt.
      specialize (Hlt (proj1 (list_elem_of_In _ _) Hin) (ltac:(eauto))). lia.
    + assert (Hrest : ~ NoDup rest).
      { intros Hnd. apply Hdup. now constructor. }
      specialize (IH (i + 1) (<[val := i]> m) Hrest).
      pose proof (map_size_insert val i m) as Hs.
      destruct (m !! val); simpl in Hs; lia.
Qed.

Lemma assign_in_range (entries : list (string * Z)) :
  forall names : list string,
  (forall s i, In (s, i) entries -> 0 <= i < Z.of_nat (length names)) ->
  NoDup (map snd entries) ->
  exists names',
    AttributeValues.assign entries names = Ok names' /\
    length names' = length names /\
    (forall s i, In (s, i) entries -> names' !! Z.to_nat i = Some s) /\
    (forall j, (forall s i, In (s, i) entries -> Z.to_nat i <> j) ->
               names' !! j = names !! j).
Proof.
  induction entries as [|[val i] rest IH]; intros names Hrange Hnd.
  - exists names. split; [reflexivity|]. split; [reflexivity|].
    split; [intros s i []|reflexivity].
  - simpl in Hnd. apply NoDup_cons in Hnd as [Hfresh Hnd].
    pose proof (Hrange val i (or_introl eq_refl)) as Hi.
    destruct (IH (<[Z.to_nat i := val]> names)) as (names' & Hcall & Hlen & Hat & Hoff).
    { intros s j Hin. rewrite length_insert. apply (Hrange s j). now right. }
    { exact Hnd. }
    exists names'. simpl.
    replace ((0 <=? i) && (i <? Z.of_nat (length names))) with true
      by (symmetry; apply andb_true_iff; split; [apply Z.leb_le|apply Z.ltb_lt]; lia).
    split; [exact Hcall|]. rewrite length_insert in Hlen. split; [exact Hlen|]. split.
    + intros s j [E|Hin]; [|now apply Hat].
      inversion E; subst s j. rewrite Hoff.
      * apply list_lookup_insert_eq. lia.
      * intros s j Hin Hsame.
        apply Hfresh. apply list_elem_of_In. apply in_map_iff.
        exists (s, j). split; [|exact Hin]. simpl.
        pose proof (Hrange s j (or_intror Hin)). lia.
    + intros j Hj. rewrite Hoff.
      * apply list_lookup_insert_ne. apply (Hj val i). now left.
      * intros s k Hin. apply (Hj s k). now right.
Qed.

Lemma assign_out_of_range (entries : list (string * Z)) :
  forall (names : list string) (s : string) (i : Z),
  In (s, i) entries -> ~ (0 <= i < Z.of_nat (length names)) ->
  AttributeValues.assign entries names = Panic IndexOutOfRange.
Proof.
  induction entries as [|[val j] rest IH]; intros names s i Hin Hout; [destruct Hin|].
  simpl. destruct ((0 <=? j) && (j <? Z.of_nat (length names))) eqn:Hj; [|reflexivity].
  destruct Hin as [E|Hin].
  - inversion E; subst. apply andb_true_iff in Hj as [H0 H1].
    apply Z.leb_le in H0. apply Z.ltb_lt in H1. lia.
  - apply (IH _ s i Hin). now rewrite length_insert.
Qed.

(** The entries of a well-indexed set, in whatever order, have distinct
    indices within the slice. *)
Lemma order_indices (v : AttributeValues.t) (order : list (string * Z)) :
  AttributeValues.Dense v -> AttributeValues.Distinct v ->
  Permutation order (map_to_list (AttributeValues.vi v)) ->
  (forall s i, In (s, i) order <-> AttributeValues.vi v !! s = Some i) /\
  NoDup (map snd order).
Proof.
  intros Hdense Hdistinct Hperm.
  assert (Hin : forall s i, In (s, i) order <-> AttributeValues.vi v !! s = Some i).
  { intros s i. rewrite <- elem_of_map_to_list, <- list_elem_of_In.
    split; intros Hx.
    - eapply elem_of_Permutation_proper; [symmetry; exact Hperm|exact Hx].
    - eapply elem_of_Permutation_proper; [exact Hperm|exact Hx]. }
  split; [exact Hin|].
  change (NoDup (snd <$> order)). apply NoDup_fmap_2_strong.
  - intros [s i] [s' i'] Hx Hy E. simpl in E. subst i'.
    apply list_elem_of_In, Hin in Hx. apply list_elem_of_In, Hin in Hy.
    now rewrite (Hdistinct s s' i Hx Hy).
  - rewrite Hperm. apply NoDup_map_to_list.
Qed.

Lemma NewAttributeValues_WellIndexed (names : list string) :
  NoDup names -> AttributeValues.WellIndexed (AttributeValues.NewAttributeValues names).
Proof.
  intros Hnd. split; [now apply NewAttributeValues_Dense|]. split.
  - intros s s' n Hs Hs'. unfold AttributeValues.NewAttributeValues in *. simpl in *.
    destruct (decide (s ∈ names)) as [Hin|Hout].
    + destruct (decide (s' ∈ names)) as [Hin'|Hout'].
      * apply list_elem_of_lookup in Hin as [j Hj].
        apply list_elem_of_lookup in Hin' as [j' Hj'].
        rewrite (fill_lookup_nth names 0 ∅ j s Hnd Hj) in Hs.
        rewrite (fill_lookup_nth names 0 ∅ j' s' Hnd Hj') in Hs'.
        assert (j = j') by (inversion Hs; inversion Hs'; lia). subst j'. congruence.
      * rewrite fill_lookup_other in Hs' by (now rewrite <- list_elem_of_In).
        now rewrite lookup_empty in Hs'.
    + rewrite fill_lookup_other in Hs by (now rewrite <- list_elem_of_In).
      now rewrite lookup_empty in Hs.
  - simpl. intros Hlen. split; [exact Hlen|].
    intros s n Hs. symmetry in Hlen. apply map_size_empty_inv in Hlen.
    simpl in Hs. rewrite Hlen in Hs. now rewrite lookup_empty in Hs.
Qed.

Lemma IndexOf_WellIndexed (v : AttributeValues.t) (s : string) :
  AttributeValues.WellIndexed v ->
  AttributeValues.WellIndexed (snd (AttributeValues.IndexOf v s)).
Proof.
  intros (Hdense & Hdistinct & Hcache).
  split; [exact (proj1 (IndexOf_Dense v s Hdense))|].
  unfold AttributeValues.IndexOf.
  destruct (AttributeValues.vi v !! s) as [n|] eqn:Hs; simpl; [now split|].
  split.
  - intros a b n Ha Hb. simpl in *.
    destruct (decide (s = a)) as [Hsa|Hsa]; destruct (decide (s = b)) as [Hsb|Hsb].
    + congruence.
    + subst a. rewrite lookup_insert_eq in Ha. rewrite lookup_insert_ne in Hb by assumption.
      inversion Ha; subst n. specialize (Hdense b _ Hb). lia.
    + subst b. rewrite lookup_insert_eq in Hb. rewrite lookup_insert_ne in Ha by assumption.
      inversion Hb; subst n. specialize (Hdense a _ Ha). lia.
    + rewrite lookup_insert_ne in Ha, Hb by assumption. exact (Hdistinct a b n Ha Hb).
  - simpl. rewrite map_size_insert_None by assumption. discriminate.
Qed.

Lemma IndexOf_lookup (v : AttributeValues.t) (s : string) :
  AttributeValues.vi (snd (AttributeValues.IndexOf v s)) !! s
  = Some (fst (AttributeValues.IndexOf v s)).
Proof.
  unfold AttributeValues.IndexOf.
  destruct (AttributeValues.vi v !! s) as [n|] eqn:Hs; simpl;
    [exact Hs|apply lookup_insert_eq].
Qed.

Lemma IndexOf_keeps (v : AttributeValues.t) (s : string) :
  AttributeValues.vi v ⊆ AttributeValues.vi (snd (AttributeValues.IndexOf v s)).
Proof.
  unfold AttributeValues.IndexOf.
  destruct (AttributeValues.vi v !! s) as [n|] eqn:Hs; simpl;
    [reflexivity|now apply insert_subseteq].
Qed.

(** X1. [IndexOf] gives two names the same index only when they are the same
    name. On a set whose map is allocated and well indexed, [s] and [s']
    asked one after the other get equal indices exactly when [s = s'], both
    calls return, and the set stays well indexed. On the zero value
    [AttributeValues{}], whose map is nil, the call panics. *)
Theorem IndexOf_distinct (v : AttributeValues.t) (s s' : string) :
  AttributeValues.IndexOfHeld AttributeValues.ZeroValue s = Panic NilMapWrite /\
  (AttributeValues.WellIndexed v ->
   exists n v1 n' v2,
     AttributeValues.IndexOfHeld (AttributeValues.Allocated v) s
       = Ok (n, AttributeValues.Allocated v1) /\
     AttributeValues.IndexOfHeld (AttributeValues.Allocated v1) s'
       = Ok (n', AttributeValues.Allocated v2) /\
     AttributeValues.WellIndexed v2 /\ (n = n' <-> s = s')).
Proof.
  split; [reflexivity|]. intros Hv.
  pose proof (IndexOf_WellIndexed v s Hv) as Hv1.
  pose proof (IndexOf_lookup v s) as Hn.
  pose proof (IndexOf_WellIndexed _ s' Hv1) as Hv2.
  pose proof (IndexOf_lookup (snd (AttributeValues.IndexOf v s)) s') as Hn'.
  pose proof (IndexOf_keeps (snd (AttributeValues.IndexOf v s)) s') as Hsub.
  exists (fst (AttributeValues.IndexOf v s)), (snd (AttributeValues.IndexOf v s)),
         (fst (AttributeValues.IndexOf (snd (AttributeValues.IndexOf v s)) s')),
         (snd (AttributeValues.IndexOf (snd (AttributeValues.IndexOf v s)) s')).
  split; [unfold AttributeValues.IndexOfHeld; now destruct (AttributeValues.IndexOf v s)|].
  split; [unfold AttributeValues.IndexOfHeld;
          now destruct (AttributeValues.IndexOf (snd (AttributeValues.IndexOf v s)) s')|].
  split; [exact Hv2|].
  pose proof (lookup_weaken _ _ _ _ Hn Hsub) as Hkept.
  split.
  - intros Heq. rewrite Heq in Hkept. exact (proj1 (proj2 Hv2) s s' _ Hkept Hn').
  - intros <-. congruence.
Qed.

(** X2. [IndexOf] only adds. On a set whose map is allocated the call
    returns, every index assigned before it is the same after it, and the
    number of values grows by one when the name was new and not at all when
    it was known; a known name leaves the set as it is. On the zero value
    [AttributeValues{}], whose map is nil, the call panics. *)
Theorem IndexOf_extends (v : AttributeValues.t) (s : string) :
  AttributeValues.IndexOfHeld AttributeValues.ZeroValue s = Panic NilMapWrite /\
  exists n v',
    AttributeValues.IndexOfHeld (AttributeValues.Allocated v) s
      = Ok (n, AttributeValues.Allocated v') /\
    AttributeValues.vi v ⊆ AttributeValues.vi v' /\
    AttributeValues.vi v' !! s = Some n /\
    match AttributeValues.vi v !! s with
    | Some k => n = k /\ v' = v
    | None =>
        n = AttributeValues.Len (Some v) /\
        AttributeValues.Len (Some v') = AttributeValues.Len (Some v) + 1
    end.
Proof.
  split; [reflexivity|].
  exists (fst (AttributeValues.IndexOf v s)), (snd (AttributeValues.IndexOf v s)).
  split; [unfold AttributeValues.IndexOfHeld;
          now destruct (AttributeValues.IndexOf v s)|].
  split; [apply IndexOf_keeps|]. split; [apply IndexOf_lookup|].
  unfold AttributeValues.IndexOf, AttributeValues.Len.
  destruct (AttributeValues.vi v !! s) as [k|] eqn:Hs; simpl.
  - split; reflexivity.
  - split; [reflexivity|]. rewrite map_size_insert_None by assumption. lia.
Qed.

(** X3. The names [NewAttributeValues] is given, when distinct, are indexed by
    their position: the set has as many values as names, and [IndexOf]
    answers a name with its position without changing the set. *)
Theorem NewAttributeValues_IndexOf (names : list string) (j : nat) (s : string) :
  NoDup names ->
  names !! j = Some s ->
  AttributeValues.Len (Some (AttributeValues.NewAttributeValues names))
    = Z.of_nat (length names) /\
  AttributeValues.IndexOf (AttributeValues.NewAttributeValues names) s
    = (Z.of_nat j, AttributeValues.NewAttributeValues names).
Proof.
  intros Hnd Hj. split.
  - unfold AttributeValues.Len, AttributeValues.NewAttributeValues. simpl.
    rewrite fill_size by (try assumption; intros; apply lookup_empty).
    now rewrite map_size_empty.
  - unfold AttributeValues.IndexOf, AttributeValues.NewAttributeValues. simpl.
    now rewrite (fill_lookup_nth names 0 ∅ j s Hnd Hj).
Qed.

(** The slice [Values] hands out, cached or rebuilt, lists the names. *)
Lemma Values_Lists (v : AttributeValues.t) (order : list (string * Z)) :
  AttributeValues.WellIndexed v ->
  Permutation order (map_to_list (AttributeValues.vi v)) ->
  exists names,
    AttributeValues.Values order (Some v)
      = Ok (names, Some {| AttributeValues.vi := AttributeValues.vi v;
                           AttributeValues.vals := names |}) /\
    AttributeValues.Lists v names.
Proof.
  intros (Hdense & Hdistinct & Hcache) Hperm. unfold AttributeValues.Values.
  destruct (Nat.eqb_spec (length (AttributeValues.vals v)) (size (AttributeValues.vi v)))
    as [Hlen|Hlen].
  - exists (AttributeValues.vals v). destruct v as [vi vals]. simpl in *.
    split; [reflexivity|]. now apply Hcache.
  - destruct (order_indices v order Hdense Hdistinct Hperm) as [Hin Hnd].
    destruct (assign_in_range order (replicate (size (AttributeValues.vi v)) EmptyString))
      as (names & Hcall & Hnames & Hat & _).
    { intros s i Hx. rewrite length_replicate. apply (Hdense s i), Hin, Hx. }
    { exact Hnd. }
    exists names. rewrite Hcall. cbv beta iota delta [mbind result_bind Go.bind].
    rewrite length_replicate in Hnames.
    split; [reflexivity|]. split; [exact Hnames|]. intros s n Hs. apply Hat, Hin, Hs.
Qed.

(** X4. [Values] on a well-indexed set, whatever the order in which the map is
    visited: it returns a slice with one slot per value that holds every
    name at its index, and caches it; the index map is untouched and the
    set stays well indexed. *)
Theorem Values_lists (v : AttributeValues.t) (order : list (string * Z)) :
  AttributeValues.WellIndexed v ->
  Permutation order (map_to_list (AttributeValues.vi v)) ->
  exists names,
    AttributeValues.Values order (Some v)
      = Ok (names, Some {| AttributeValues.vi := AttributeValues.vi v;
                           AttributeValues.vals := names |}) /\
    AttributeValues.Lists v names /\
    AttributeValues.WellIndexed {| AttributeValues.vi := AttributeValues.vi v;
                                   AttributeValues.vals := names |}.
Proof.
  intros Hv Hperm.
  destruct (Values_Lists v order Hv Hperm) as (names & Hcall & Hlists).
  destruct Hv as (Hdense & Hdistinct & _).
  exists names. split; [exact Hcall|]. split; [exact Hlists|].
  split; [exact Hdense|]. split; [exact Hdistinct|]. intros _. exact Hlists.
Qed.

(** X5. [Values] of a fresh set gives back the names it was built from, when
    they are distinct. *)
Theorem Values_NewAttributeValues (names : list string) (order : list (string * Z)) :
  NoDup names ->
  Permutation order
    (map_to_list (AttributeValues.vi (AttributeValues.NewAttributeValues names))) ->
  AttributeValues.Values order (Some (AttributeValues.NewAttributeValues names))
  = Ok (names,
        Some {| AttributeValues.vi :=
                  AttributeValues.vi (AttributeValues.NewAttributeValues names);
                AttributeValues.vals := names |}).
Proof.
  intros Hnd Hperm.
  destruct (Values_Lists _ order (NewAttributeValues_WellIndexed names Hnd) Hperm)
    as (listed & Hcall & [Hlen Hat]).
  rewrite Hcall. replace listed with names; [reflexivity|].
  assert (Hsize : length listed = length names).
  { rewrite Hlen. unfold AttributeValues.NewAttributeValues. simpl.
    rewrite fill_size by (try assumption; intros; apply lookup_empty).
    now rewrite map_size_empty. }
  apply list_eq. intros j. destruct (names !! j) as [s|] eqn:Hj.
  - symmetry. rewrite <- (Nat2Z.id j). apply Hat.
    unfold AttributeValues.NewAttributeValues. simpl.
    now rewrite (fill_lookup_nth names 0 ∅ j s Hnd Hj).
  - symmetry. apply lookup_ge_None. apply lookup_ge_None in Hj. lia.
Qed.

(** X6. A name given twice to [NewAttributeValues] leaves a gap in the indices:
    the map has fewer entries than the largest index needs, and [Values]
    panics when it rebuilds the slice. *)
Theorem Values_duplicate_names (names : list string) (order : list (string * Z)) :
  ~ NoDup names ->
  Permutation order
    (map_to_list (AttributeValues.vi (AttributeValues.NewAttributeValues names))) ->
  AttributeValues.Values order (Some (AttributeValues.NewAttributeValues names))
  = Panic IndexOutOfRange.
Proof.
  intros Hdup Hperm.
  destruct (list.nil_or_length_pos names) as [->|Hpos].
  { destruct Hdup. constructor. }
  destruct (exists_last (l := names)) as (front & s & Hnames).
  { intros ->. simpl in Hpos. lia. }
  pose proof (fill_size_dup names 0 ∅ Hdup) as Hsize. rewrite map_size_empty in Hsize.
  unfold AttributeValues.Values, AttributeValues.NewAttributeValues.
  cbn [AttributeValues.vi AttributeValues.vals length].
  destruct (Nat.eqb_spec 0 (size (AttributeValues.fill 0 names ∅))) as [Hzero|_].
  { exfalso. symmetry in Hzero. apply map_size_empty_inv in Hzero.
    pose proof (fill_lookup_last front s 0 ∅) as Hs. rewrite <- Hnames, Hzero in Hs.
    now rewrite lookup_empty in Hs. }
  rewrite (assign_out_of_range order _ s (Z.of_nat (length front))); [reflexivity| |].
  - apply list_elem_of_In. rewrite Hperm. apply elem_of_map_to_list.
    unfold AttributeValues.NewAttributeValues. simpl.
    rewrite Hnames. now rewrite fill_lookup_last.
  - rewrite length_replicate. subst names. rewrite length_app in Hsize.
    simpl in Hsize. lia.
Qed.

(** X7. An attribute written to the stream and read back keeps its name, its
    kind and its values with their indices: it converts every instance
    value as the attribute that was written does. Only the cached slice of
    names is gone. *)
Theorem Attribute_codec_keeps_values (a : Attribute.t) (rest : list token) :
  exists a',
    Attribute.DecodeFrom (Attribute.EncodeTo a ++ rest) = Decoded a' rest /\
    Attribute.Name a' = Attribute.Name a /\
    Attribute.Kind a' = Attribute.Kind a /\
    Attribute.Len a' = Attribute.Len a /\
    AttributeValues.vi (Attribute.valuesOf a') = AttributeValues.vi (Attribute.valuesOf a) /\
    AttributeValues.vals (Attribute.valuesOf a') = [] /\
    forall v, fst (Attribute.ValueOf a' v) = fst (Attribute.ValueOf a v).
Proof.
  exists (reloadedAttribute a).
  split; [apply Attribute_DecodeFrom_EncodeTo|].
  split; [reflexivity|]. split; [reflexivity|].
  split; [|split; [|split]].
  - unfold Attribute.Len. simpl. destruct (Attribute.Values a); reflexivity.
  - unfold Attribute.valuesOf. simpl. destruct (Attribute.Values a); reflexivity.
  - unfold Attribute.valuesOf. simpl. destruct (Attribute.Values a); reflexivity.
  - intros v. now rewrite ValueOf_reloaded.
Qed.

(** *** Ranking *)

Lemma Ascending_IsSorted {A : Type} (less : A -> A -> bool) (l : list A) :
  Ascending less l -> IsSorted less l = true.
Proof.
  unfold Ascending. induction l as [|a l IH]; intros Hs; [reflexivity|].
  apply StronglySorted_inv in Hs as [Hs Ha].
  destruct l as [|b l]; [reflexivity|].
  cbn [IsSorted]. rewrite (proj1 (List.Forall_forall _ _) Ha b (or_introl eq_refl)).
  now apply IH.
Qed.

Lemma Ascending_lookup {A : Type} (less : A -> A -> bool) (l : list A) :
  Ascending less l ->
  forall (i j : nat) (a b : A),
    (i < j)%nat -> l !! i = Some a -> l !! j = Some b -> less b a = false.
Proof.
  unfold Ascending. induction l as [|x l IH]; intros Hs i j a b Hij Hi Hj; [discriminate|].
  apply StronglySorted_inv in Hs as [Hs Hx].
  destruct j as [|j]; [lia|]. simpl in Hj. destruct i as [|i].
  - inversion Hi; subst x.
    apply (proj1 (List.Forall_forall _ _) Hx b).
    apply list_elem_of_In. eapply list_elem_of_lookup_2. exact Hj.
  - simpl in Hi. apply (IH Hs i j); [lia|assumption|assumption].
Qed.

(** [Rank] leaves a slice [Top] finds in order. *)
Lemma Rank_IsSorted `{Sorter} (p : Prediction.t) :
  (forall e, In e p -> is_nan (Votes e) = false) ->
  Permutation (Prediction.Rank p) p /\
  IsSorted (Reverse Prediction.Less) (Prediction.Rank p) = true.
Proof.
  intros Hnan. unfold Prediction.Rank. split; [apply Sort_Permutation|].
  apply Ascending_IsSorted, Sort_Ascending, (Less_StrictWeak p Hnan).
Qed.

(** X8. [Rank] rearranges the prediction so that votes never increase from one
    entry to the next; no entry is lost or added. This holds for every
    behaviour of [sort.Sort] within its contract, on votes that are
    numbers. *)
Theorem Rank_descending `{Sorter} (p : Prediction.t) :
  (forall e, In e p -> is_nan (Votes e) = false) ->
  Permutation (Prediction.Rank p) p /\
  IsSorted (Reverse Prediction.Less) (Prediction.Rank p) = true /\
  forall (i j : nat) (a b : PredictedValue),
    (i <= j)%nat -> Prediction.Rank p !! i = Some a -> Prediction.Rank p !! j = Some b ->
    (Votes b <=? Votes a)%float = true.
Proof.
  intros Hnan. unfold Prediction.Rank.
  pose proof (Sort_Permutation _ (Reverse Prediction.Less) p) as Hperm.
  pose proof (Sort_Ascending _ _ p (Less_StrictWeak p Hnan)) as Hasc.
  split; [exact Hperm|]. split; [now apply Ascending_IsSorted|].
  intros i j a b Hij Hi Hj.
  assert (Hin : forall k e, Sort (Reverse Prediction.Less) p !! k = Some e ->
                            is_nan (Votes e) = false).
  { intros k e Hk. apply Hnan. apply (Permutation_in _ Hperm).
    apply list_elem_of_In. eapply list_elem_of_lookup_2. exact Hk. }
  destruct (decide (i = j)) as [->|Hne].
  - rewrite Hi in Hj. inversion Hj; subst b. apply leb_refl. eapply Hin. exact Hi.
  - pose proof (Ascending_lookup _ _ Hasc i j a b ltac:(lia) Hi Hj) as Hlt.
    unfold Reverse, Prediction.Less in Hlt.
    apply ltb_false_leb; [eapply Hin; exact Hi|eapply Hin; exact Hj|exact Hlt].
Qed.

(** X9. [Top] reorders the slice at most once: asked again on the slice it
    left behind, it returns the same entry and leaves the order alone. *)
Theorem Top_again `{Sorter} (p : Prediction.t) :
  (forall e, In e p -> is_nan (Votes e) = false) ->
  Prediction.Top (snd (Prediction.Top p)) = Prediction.Top p.
Proof.
  intros Hnan. destruct p as [|first rest]; [reflexivity|].
  remember (Prediction.Top (first :: rest)) as r eqn:Hr.
  unfold Prediction.Top in Hr.
  destruct (IsSorted (Reverse Prediction.Less) (first :: rest)) eqn:Hs;
    simpl negb in Hr; cbv iota in Hr; subst r; cbn [snd].
  - unfold Prediction.Top. rewrite Hs. reflexivity.
  - destruct (Rank_IsSorted (first :: rest) Hnan) as (Hperm & Hsorted).
    destruct (Prediction.Rank (first :: rest)) as [|top others] eqn:Hr.
    + apply Permutation_nil in Hperm. discriminate.
    + unfold Prediction.Top. rewrite Hsorted. reflexivity.
Qed.

(** *** The theorems at concrete inputs *)

Lemma IndexOf_distinct_witness :
  exists n v1 n' v2,
    AttributeValues.IndexOfHeld
      (AttributeValues.Allocated (AttributeValues.NewAttributeValues ["yes"; "no"])) "maybe"
      = Ok (n, AttributeValues.Allocated v1) /\
    AttributeValues.IndexOfHeld (AttributeValues.Allocated v1) "no"
      = Ok (n', AttributeValues.Allocated v2) /\
    AttributeValues.WellIndexed v2 /\ (n = n' <-> "maybe" = "no").
Proof.
  apply (IndexOf_distinct (AttributeValues.NewAttributeValues ["yes"; "no"]) "maybe" "no").
  apply NewAttributeValues_WellIndexed.
  apply (bool_decide_unpack _). vm_compute. reflexivity.
Defined.

Lemma NewAttributeValues_IndexOf_witness :
  AttributeValues.Len (Some (AttributeValues.NewAttributeValues ["sunny"; "overcast"; "rainy"]))
    = 3 /\
  AttributeValues.IndexOf (AttributeValues.NewAttributeValues ["sunny"; "overcast"; "rainy"])
      "rainy"
    = (2, AttributeValues.NewAttributeValues ["sunny"; "overcast"; "rainy"]).
Proof.
  apply (NewAttributeValues_IndexOf ["sunny"; "overcast"; "rainy"] 2 "rainy").
  - apply (bool_decide_unpack _). vm_compute. reflexivity.
  - reflexivity.
Defined.

(** The set of the weather example after it has met a third value. *)
Definition grownValues : AttributeValues.t :=
  snd (AttributeValues.IndexOf (AttributeValues.NewAttributeValues ["yes"; "no"]) "maybe").

Lemma Values_lists_witness :
  exists names,
    AttributeValues.Values (rev (map_to_list (AttributeValues.vi grownValues)))
      (Some grownValues)
      = Ok (names, Some {| AttributeValues.vi := AttributeValues.vi grownValues;
                           AttributeValues.vals := names |}) /\
    AttributeValues.Lists grownValues names /\
    AttributeValues.WellIndexed {| AttributeValues.vi := AttributeValues.vi grownValues;
                                   AttributeValues.vals := names |}.
Proof.
  apply (Values_lists grownValues).
  - apply IndexOf_WellIndexed, NewAttributeValues_WellIndexed.
    apply (bool_decide_unpack _). vm_compute. reflexivity.
  - symmetry. apply Permutation_rev.
Defined.

Example Values_grown :
  AttributeValues.Values (map_to_list (AttributeValues.vi grownValues)) (Some grownValues)
  = Ok (["yes"; "no"; "maybe"],
        Some {| AttributeValues.vi := AttributeValues.vi grownValues;
                AttributeValues.vals := ["yes"; "no"; "maybe"] |}).
Proof. vm_compute. reflexivity. Qed.

Lemma Values_NewAttributeValues_witness :
  let names := ["sunny"; "overcast"; "rainy"] in
  AttributeValues.Values
    (rev (map_to_list (AttributeValues.vi (AttributeValues.NewAttributeValues names))))
    (Some (AttributeValues.NewAttributeValues names))
  = Ok (names,
        Some {| AttributeValues.vi :=
                  AttributeValues.vi (AttributeValues.NewAttributeValues names);
                AttributeValues.vals := names |}).
Proof.
  apply (Values_NewAttributeValues ["sunny"; "overcast"; "rainy"]).
  - apply (bool_decide_unpack _). vm_compute. reflexivity.
  - symmetry. apply Permutation_rev.
Defined.

Lemma Values_duplicate_names_witness :
  let names := ["sunny"; "sunny"; "rainy"] in
  AttributeValues.Values
    (map_to_list (AttributeValues.vi (AttributeValues.NewAttributeValues names)))
    (Some (AttributeValues.NewAttributeValues names))
  = Panic IndexOutOfRange.
Proof.
  apply (Values_duplicate_names ["sunny"; "sunny"; "rainy"]).
  - intros Hnd. apply NoDup_cons in Hnd as [Hnotin _]. apply Hnotin. left.
  - reflexivity.
Defined.

Lemma Rank_descending_witness :
  let p := [ {| PV_AttributeValue := 0; Votes := 1.5 |};
             {| PV_AttributeValue := 1; Votes := 3.5 |};
             {| PV_AttributeValue := 2; Votes := 2 |} ]%float in
  Permutation (Prediction.Rank p) p /\
  IsSorted (Reverse Prediction.Less) (Prediction.Rank p) = true /\
  forall (i j : nat) (a b : PredictedValue),
    (i <= j)%nat -> Prediction.Rank p !! i = Some a -> Prediction.Rank p !! j = Some b ->
    (Votes b <=? Votes a)%float = true.
Proof.
  apply Rank_descending.
  intros e [<-|[<-|[<-|[]]]]; reflexivity.
Defined.

Lemma Top_again_witness :
  let p := [ {| PV_AttributeValue := 0; Votes := 1.5 |};
             {| PV_AttributeValue := 1; Votes := 3.5 |};
             {| PV_AttributeValue := 2; Votes := 2 |} ]%float in
  Prediction.Top (snd (Prediction.Top p)) = Prediction.Top p.
Proof.
  apply Top_again.
  intros e [<-|[<-|[<-|[]]]]; reflexivity.
Defined.

End Core.


(** ** Package helpers *)

Module Helpers.
Import Float64 Sorting Go Msgpack Core.

(** *** classifiers/internal/helpers/split.go *)

(** The two split conditions; each embeds a [*core.Attribute]. *)
Inductive SplitCondition : Type :=
| nominalMultiwaySplitCondition (Attribute : AttributePtr)
| numericBinarySplitCondition (Attribute : AttributePtr) (SplitValue : float).

Definition conditionAttribute (c : SplitCondition) : AttributePtr :=
  match c with
  | nominalMultiwaySplitCondition a => a
  | numericBinarySplitCondition a _ => a
  end.

(** Dereferencing the embedded pointer. The attribute of a condition is one
    of the model's predictors, reached through the name the model files it
    under, and [None] is the nil pointer. A name the model does not file is
    the pointer of no attribute; there [deref] behaves as on the nil
    pointer. *)
Definition deref (m : Model.t) (ptr : AttributePtr) : result (string * Attribute.t) :=
  match ptr with
  | None => Panic NilDereference
  | Some name =>
      match Model.Predictor m name with
      | Some a => Ok (name, a)
      | None => Panic NilDereference
      end
  end.

Definition Predictor (c : SplitCondition) (m : Model.t) : result string :=
  '(_, a) ← deref m (conditionAttribute c);
  Ok (Attribute.Name a).

(** [Branch]: the branch index of an instance. [Attribute.Value] may
    register an unseen nominal value, so the model is returned as well. *)
Definition Branch (c : SplitCondition) (inst : Instance) (m : Model.t)
  : result (Z * Model.t) :=
  match c with
  | nominalMultiwaySplitCondition ptr =>
      '(name, a) ← deref m ptr;
      let '(v, a') := Attribute.Value a inst in
      Ok (AttributeValue.Index v, Model.store m name a')
  | numericBinarySplitCondition ptr SplitValue =>
      '(name, a) ← deref m ptr;
      let '(v, a') := Attribute.Value a inst in
      let m' := Model.store m name a' in
      if AttributeValue.IsMissing v then Ok (-1, m')
      else if (SplitValue <? AttributeValue.Value v)%float then Ok (1, m')
      else Ok (0, m')
  end.

(** [EncodeTo] of the two conditions: the predictor's name and, for the
    numeric condition, the split value. *)
Definition EncodeTo (c : SplitCondition) (m : Model.t) : result (list token) :=
  name ← Predictor c m;
  match c with
  | nominalMultiwaySplitCondition _ => Ok [Str name]
  | numericBinarySplitCondition _ SplitValue => Ok [Str name; Float SplitValue]
  end.

(** [DecodeFrom] reads the name and looks the predictor up in the model the
    decoder carries as its context; a name the model does not have leaves
    the nil attribute. The conditions are registered under 7743 and 7744. *)
Definition resolve (m : Model.t) (name : string) : AttributePtr :=
  match Model.Predictor m name with
  | Some _ => Some name
  | None => None
  end.

Definition DecodeFrom (code : Z) (m : Model.t) (ts : list token)
  : decoded SplitCondition :=
  match ts with
  | Str name :: rest =>
      if code =? 7743 then
        Decoded (nominalMultiwaySplitCondition (resolve m name)) rest
      else if code =? 7744 then
        match rest with
        | Float SplitValue :: rest' =>
            Decoded (numericBinarySplitCondition (resolve m name) SplitValue) rest'
        | _ => Malformed
        end
      else Malformed
  | _ => Malformed
  end.

(** Modelled from the spec: a [SplitCondition] held in an interface is
    written as the code of its dynamic type followed by its fields, and a
    nil interface as the nil item. *)
Definition conditionCode (c : SplitCondition) : Z :=
  match c with
  | nominalMultiwaySplitCondition _ => 7743
  | numericBinarySplitCondition _ _ => 7744
  end.

Definition encodeCondition (m : Model.t) (c : option SplitCondition)
  : result (list token) :=
  match c with
  | None => Ok [Nil]
  | Some c =>
      fields ← EncodeTo c m;
      Ok (Tag (conditionCode c) :: fields)
  end.

Definition decodeCondition (m : Model.t) (ts : list token)
  : decoded (option SplitCondition) :=
  match ts with
  | Nil :: rest => Decoded None rest
  | Tag code :: ts' =>
      match DecodeFrom code m ts' with
      | Decoded c rest => Decoded (Some c) rest
      | Malformed => Malformed
      end
  | _ => Malformed
  end.

(** A result with the model it leaves behind, under a change of model. *)
Definition onModel {A : Type} (g : Model.t -> Model.t) (r : result (A * Model.t))
  : result (A * Model.t) :=
  match r with
  | Ok (a, m) => Ok (a, g m)
  | Panic why => Panic why
  end.

(** Modelled from the spec: [ObservationStats] (section 4.1), the
    interface of a leaf's sufficient statistics. No implementation is
    among the sources; the tree reaches the statistics through these
    operations only. [Update] folds an instance in and, reading nominal
    values through [Attribute.Value], may grow the model's value sets;
    [Deactivate] and [Activate] shrink and restore the conditional
    statistics. *)
Class ObservationStats (stats : Type) : Type := {
  NewObservationStats : bool -> stats;
  TotalWeight : stats -> float;
  IsSufficient : stats -> bool;
  Update : Instance -> Model.t -> stats -> stats * Model.t;
  Predict : stats -> Prediction.t;
  ByteSize : stats -> Z;
  Deactivate : stats -> stats;
  Activate : stats -> stats
}.

(** Modelled from the spec: how statistics are persisted. The codecs of
    the implementations are not among the sources; what is taken of them is
    that reading gives back the statistics that were written, a nil
    interface included, and leaves the rest of the stream. *)
Class StatsCodec (stats : Type) : Type := {
  EncodeStats : option stats -> list token;
  DecodeStats : list token -> decoded (option stats);
  DecodeStats_EncodeStats : forall (s : option stats) (rest : list token),
    DecodeStats (EncodeStats s ++ rest) = Decoded s rest
}.

Section Suggestions.
Context {stats : Type}.

(** [SplitSuggestion]: a candidate split. *)
Record SplitSuggestion : Type := mkSplitSuggestion {
  cond : option SplitCondition;
  merit : float;
  mrange : float;
  preStats : option stats;
  postStats : list (Z * stats)
}.

(** The accessors accept a nil [*SplitSuggestion]. *)
Definition Condition (s : option SplitSuggestion) : option SplitCondition :=
  match s with
  | Some s => cond s
  | None => None
  end.

Definition Merit (s : option SplitSuggestion) : float :=
  match s with
  | Some s => merit s
  | None => 0
  end.

Definition Range (s : option SplitSuggestion) : float :=
  match s with
  | Some s => mrange s
  | None => 0
  end.

Definition PreStats (s : option SplitSuggestion) : option stats :=
  match s with
  | Some s => preStats s
  | None => None
  end.

Definition PostStats (s : option SplitSuggestion) : list (Z * stats) :=
  match s with
  | Some s => postStats s
  | None => []
  end.

(** [SplitSuggestions] and its [Rank], highest merit first. *)
Definition SplitSuggestions : Type := list (option SplitSuggestion).

Definition SuggestionLess (a b : option SplitSuggestion) : bool :=
  (Merit a <? Merit b)%float.

Definition Rank `{Sorter} (p : SplitSuggestions) : SplitSuggestions :=
  Sort (Reverse SuggestionLess) p.

End Suggestions.

Arguments SplitSuggestion stats : clear implicits.
Arguments SplitSuggestions stats : clear implicits.

Abbreviation valuesOf := Attribute.valuesOf.

Lemma Dense_empty : AttributeValues.Dense (AttributeValues.NewAttributeValues []).
Proof. apply NewAttributeValues_Dense. constructor. Qed.

(** On a nominal attribute a name is never missing: its value is its
    index, and the index is a valid position of the grown value set. *)
Lemma nominal_Value (a : Attribute.t) (inst : Instance) (s : string) :
  Attribute.Kind a = AttributeKindNominal ->
  inst (Attribute.Name a) = IVstring s \/ inst (Attribute.Name a) = IVbytes s ->
  AttributeValues.Dense (valuesOf a) ->
  AttributeValues.Len (Some (valuesOf a)) < 2 ^ 53 - 1 ->
  AttributeValue.IsMissing (fst (Attribute.Value a inst)) = false /\
  AttributeValue.Index (fst (Attribute.Value a inst))
    = fst (AttributeValues.IndexOf (valuesOf a) s) /\
  0 <= fst (AttributeValues.IndexOf (valuesOf a) s)
    < Attribute.Len (snd (Attribute.Value a inst)).
Proof.
  intros Hk Hs Hd Hlen.
  assert (HV : Attribute.Value a inst =
               (float64_of_int (fst (AttributeValues.IndexOf (valuesOf a) s)),
                {| Attribute.Name := Attribute.Name a; Attribute.Kind := Attribute.Kind a;
                   Attribute.Values := Some (snd (AttributeValues.IndexOf (valuesOf a) s)) |})).
  { unfold Attribute.Value, Attribute.ValueOf. rewrite Hk.
    change (AttributeKindNominal =? AttributeKindNumeric) with false.
    change (AttributeKindNominal =? AttributeKindNominal) with true. cbv iota zeta.
    destruct Hs as [-> | ->]; destruct (AttributeValues.IndexOf (valuesOf a) s); reflexivity. }
  rewrite HV. simpl.
  destruct (IndexOf_Dense (valuesOf a) s Hd) as [Hd' Hn].
  assert (Hgrow : AttributeValues.Len (Some (snd (AttributeValues.IndexOf (valuesOf a) s)))
                  <= AttributeValues.Len (Some (valuesOf a)) + 1).
  { unfold AttributeValues.IndexOf, AttributeValues.Len.
    destruct (AttributeValues.vi (valuesOf a) !! s) eqn:Hl; simpl; [lia|].
    rewrite (map_size_insert_None s _ _ Hl). lia. }
  unfold AttributeValue.Index, AttributeValue.IsMissing.
  rewrite is_nan_float64_of_int by lia. rewrite int_of_float64_of_int by lia.
  repeat split; try lia. unfold Attribute.Len. cbn [Attribute.Kind Attribute.Values].
  rewrite Hk. change (AttributeKindNominal =? AttributeKindNumeric) with false.
  cbv iota. lia.
Qed.

(** What [Value] is on a nominal attribute: the index [IndexOf] gives the
    name, and the attribute with the value set [IndexOf] leaves. *)
Lemma nominal_Value_IndexOf (a : Attribute.t) (inst : Instance) (s : string) :
  Attribute.Kind a = AttributeKindNominal ->
  inst (Attribute.Name a) = IVstring s \/ inst (Attribute.Name a) = IVbytes s ->
  Attribute.Value a inst
  = (float64_of_int (fst (AttributeValues.IndexOf (valuesOf a) s)),
     {| Attribute.Name := Attribute.Name a; Attribute.Kind := Attribute.Kind a;
        Attribute.Values := Some (snd (AttributeValues.IndexOf (valuesOf a) s)) |}).
Proof.
  intros Hk Hs. unfold Attribute.Value, Attribute.ValueOf. rewrite Hk.
  change (AttributeKindNominal =? AttributeKindNumeric) with false.
  change (AttributeKindNominal =? AttributeKindNominal) with true. cbv iota zeta.
  destruct Hs as [-> | ->]; destruct (AttributeValues.IndexOf (valuesOf a) s); reflexivity.
Qed.

(** A nominal attribute has as many values as its value set, allocated or
    not yet. *)
Lemma nominal_Len (a : Attribute.t) :
  Attribute.Kind a = AttributeKindNominal ->
  Attribute.Len a = AttributeValues.Len (Some (valuesOf a)).
Proof.
  intros Hk. unfold Attribute.Len, valuesOf, Attribute.valuesOf. rewrite Hk.
  change (AttributeKindNominal =? AttributeKindNumeric) with false. cbv iota.
  destruct (Attribute.Values a); reflexivity.
Qed.

(** A value that is not missing on a nominal attribute comes from a
    name. *)
Lemma nominal_named (a : Attribute.t) (inst : Instance) :
  Attribute.Kind a = AttributeKindNominal ->
  AttributeValue.IsMissing (fst (Attribute.Value a inst)) = false ->
  exists s, inst (Attribute.Name a) = IVstring s \/ inst (Attribute.Name a) = IVbytes s.
Proof.
  intros Hk Hv. unfold Attribute.Value, Attribute.ValueOf in Hv. rewrite Hk in Hv.
  change (AttributeKindNominal =? AttributeKindNumeric) with false in Hv.
  change (AttributeKindNominal =? AttributeKindNominal) with true in Hv.
  cbv iota in Hv.
  destruct (inst (Attribute.Name a)) as [f|n|s|s|]; eauto; discriminate Hv.
Qed.

(** C8. [Branch] on a condition whose attribute is [a], a predictor of the
    model. The call returns. A missing predictor value gives [-1].
    Otherwise a numeric-binary condition gives [0] or [1]: [0] when the
    value is at most the threshold and [1] when it is above. A
    nominal-multiway condition gives the index of the value, whatever it
    is. When its attribute is nominal, with indices [0 .. Len-1] and fewer
    than 2^53 values, the value is a name: a name the attribute knows gives
    its index, below [Len], and leaves the number of values alone; a name
    it does not know gives [Len], the number of values before the call, and
    is registered, so that the attribute has one value more afterwards.
    Either way the branch is a position among the values once the call has
    returned. A value set is nil or holds an allocated map; on the zero
    value [AttributeValues{}] the [IndexOf] that [Branch] calls for a name
    panics. *)
Theorem Branch_spec (c : SplitCondition) (inst : Instance) (m : Model.t)
    (name : string) (a : Attribute.t) :
  conditionAttribute c = Some name ->
  Model.Predictor m name = Some a ->
  let v := fst (Attribute.Value a inst) in
  let a' := snd (Attribute.Value a inst) in
  (forall s, AttributeValues.IndexOfHeld AttributeValues.ZeroValue s = Panic NilMapWrite) /\
  exists b : Z,
    Branch c inst m = Ok (b, Model.store m name a') /\
    (AttributeValue.IsMissing v = true -> b = -1) /\
    (AttributeValue.IsMissing v = false ->
       match c with
       | numericBinarySplitCondition _ threshold =>
           0 <= b < 2 /\
           ((AttributeValue.Value v <=? threshold)%float = true -> b = 0) /\
           ((threshold <? AttributeValue.Value v)%float = true -> b = 1)
       | nominalMultiwaySplitCondition _ =>
           b = AttributeValue.Index v /\
           (Attribute.Kind a = AttributeKindNominal ->
            AttributeValues.Dense (valuesOf a) ->
            Attribute.Len a < 2 ^ 53 - 1 ->
            exists s,
              (inst (Attribute.Name a) = IVstring s \/
               inst (Attribute.Name a) = IVbytes s) /\
              match AttributeValues.vi (valuesOf a) !! s with
              | Some n =>
                  b = n /\ 0 <= b < Attribute.Len a /\
                  Attribute.Len a' = Attribute.Len a
              | None =>
                  b = Attribute.Len a /\
                  Attribute.Len a' = Attribute.Len a + 1
              end /\
              0 <= b < Attribute.Len a')
       end).
Proof.
  intros Hptr Hm v a'. subst v a'. split; [reflexivity|].
  destruct c as [ptr|ptr threshold]; simpl in Hptr; subst ptr;
    unfold Branch, deref; rewrite Hm; simpl;
    destruct (Attribute.Value a inst) as [v a'] eqn:HV; simpl.
  - exists (AttributeValue.Index v). split; [reflexivity|]. split.
    + intros Hmiss. unfold AttributeValue.Index. now rewrite Hmiss.
    + intros Hv. split; [reflexivity|]. intros Hk Hd Hlen.
      destruct (nominal_named a inst Hk) as [s Hs]; [now rewrite HV|].
      exists s. split; [exact Hs|].
      rewrite (nominal_Len a Hk) in *.
      pose proof (nominal_Value a inst s Hk Hs Hd Hlen) as N.
      rewrite (nominal_Value_IndexOf a inst s Hk Hs) in HV.
      injection HV as <- <-.
      rewrite (nominal_Value_IndexOf a inst s Hk Hs) in N. simpl in N.
      destruct N as (_ & Hidx & Hrange). rewrite Hidx.
      split; [|exact Hrange]. clear Hrange Hidx Hv.
      assert (Ha' : forall x,
                Attribute.Len {| Attribute.Name := Attribute.Name a;
                                 Attribute.Kind := Attribute.Kind a;
                                 Attribute.Values := Some x |}
                = AttributeValues.Len (Some x)).
      { intros x. unfold Attribute.Len. cbn [Attribute.Kind Attribute.Values].
        now rewrite Hk. }
      rewrite Ha'. revert Hd Hlen. generalize (valuesOf a). intros vs Hd Hlen.
      unfold AttributeValues.IndexOf, AttributeValues.Len.
      destruct (AttributeValues.vi vs !! s) as [n|] eqn:Hl; simpl.
      * split; [reflexivity|]. split; [exact (Hd s n Hl)|reflexivity].
      * split; [reflexivity|]. rewrite (map_size_insert_None s _ _ Hl). lia.
  - destruct (AttributeValue.IsMissing v) eqn:Hmiss.
    + exists (-1). repeat split; auto; discriminate.
    + unfold AttributeValue.Value.
      destruct (threshold <? v)%float eqn:Hlt.
      * exists 1. split; [reflexivity|]. split; [discriminate|]. intros _.
        split; [lia|]. split; [|reflexivity].
        intros Hle. now rewrite (leb_ltb_false _ _ Hle) in Hlt.
      * exists 0. split; [reflexivity|]. split; [discriminate|]. intros _.
        split; [lia|]. split; [reflexivity|discriminate].
Qed.

(** [Branch] on a reloaded model takes the branch it takes on the model
    that was written. *)
Lemma Branch_reloaded (c : SplitCondition) (inst : Instance) (m : Model.t) :
  Branch c inst (reloaded m) = onModel reloaded (Branch c inst m).
Proof.
  destruct c as [ptr|ptr threshold]; unfold Branch, deref;
    destruct ptr as [name|]; try reflexivity;
    rewrite Predictor_reloaded; destruct (Model.Predictor m name) as [a|];
    try reflexivity; simpl; rewrite Value_reloaded;
    destruct (Attribute.Value a inst) as [v a']; simpl; rewrite store_reloaded.
  - reflexivity.
  - destruct (AttributeValue.IsMissing v); [reflexivity|].
    destruct (_ <? _)%float; reflexivity.
Qed.

(** A condition on a predictor of the model is written without a panic
    and read back as it was, against the reloaded model. *)
Lemma decodeCondition_encodeCondition (m : Model.t) (c : option SplitCondition) :
  Model.named m ->
  (forall cnd, c = Some cnd -> exists name a,
      conditionAttribute cnd = Some name /\ Model.Predictor m name = Some a) ->
  exists tokens,
    encodeCondition m c = Ok tokens /\
    forall rest, decodeCondition (reloaded m) (tokens ++ rest) = Decoded c rest.
Proof.
  intros Hnamed Hres. destruct c as [c|]; [|eexists; split; reflexivity].
  destruct (Hres c eq_refl) as (name & a & Hptr & Ha).
  pose proof (Hnamed name a Ha) as Hname.
  destruct c as [ptr|ptr threshold]; simpl in Hptr; subst ptr;
    unfold encodeCondition, EncodeTo, Predictor, deref; simpl; rewrite Ha; simpl;
    eexists; (split; [reflexivity|]); intros rest;
    simpl; unfold resolve; rewrite Predictor_reloaded, Hname, Ha; reflexivity.
Qed.

(** *** Describing branches *)

Section Describing.

(** [fmt.Sprintf] with the verb [%f], which is not part of the
    repository. *)
Variable Sprintf_f : float -> string.

(** [Describe]: the label of a branch. The nominal condition answers
    negative branches without looking at its attribute; otherwise it reads
    the names through [Values], which may rebuild and cache the slice (so
    the model is returned as well), in the order [order] of that call. *)
Definition Describe (order : list (string * Z)) (c : SplitCondition) (branch : Z)
    (m : Model.t) : result (string * Model.t) :=
  match c with
  | nominalMultiwaySplitCondition ptr =>
      if branch <? 0 then Ok (EmptyString, m)
      else
        '(name, a) ← deref m ptr;
        '(names, values) ← AttributeValues.Values order (Attribute.Values a);
        let m' := Model.store m name
                    {| Attribute.Name := Attribute.Name a;
                       Attribute.Kind := Attribute.Kind a;
                       Attribute.Values := values |} in
        if branch <? Z.of_nat (length names)
        then Ok (default EmptyString (names !! Z.to_nat branch), m')
        else Ok (EmptyString, m')
  | numericBinarySplitCondition _ SplitValue =>
      if branch =? 0 then Ok (String.append "<= " (Sprintf_f SplitValue), m)
      else if branch =? 1 then Ok (String.append "> " (Sprintf_f SplitValue), m)
      else Ok (EmptyString, m)
  end.

(** X11. The label of the branch an instance takes is the instance's own value:
    on a nominal attribute with well-indexed values, [Branch] of an
    instance that holds the name [s] returns a branch that [Describe] then
    labels [s], whatever the order in which [Values] visits the map. *)
Theorem Describe_Branch (m : Model.t) (name : string) (a : Attribute.t)
    (inst : Instance) (s : string) :
  Model.Predictor m name = Some a ->
  Attribute.Kind a = AttributeKindNominal ->
  AttributeValues.WellIndexed (valuesOf a) ->
  AttributeValues.Len (Some (valuesOf a)) < 2 ^ 53 - 1 ->
  inst (Attribute.Name a) = IVstring s \/ inst (Attribute.Name a) = IVbytes s ->
  let c := nominalMultiwaySplitCondition (Some name) in
  exists b m',
    Branch c inst m = Ok (b, m') /\
    forall order a',
      Model.Predictor m' name = Some a' ->
      Permutation order (map_to_list (AttributeValues.vi (valuesOf a'))) ->
      exists m'', Describe order c b m' = Ok (s, m'').
Proof.
  intros Hm Hk Hv Hlen Hs c. subst c.
  assert (HV : Attribute.Value a inst =
               (float64_of_int (fst (AttributeValues.IndexOf (valuesOf a) s)),
                {| Attribute.Name := Attribute.Name a; Attribute.Kind := Attribute.Kind a;
                   Attribute.Values := Some (snd (AttributeValues.IndexOf (valuesOf a) s)) |})).
  { unfold Attribute.Value, Attribute.ValueOf. rewrite Hk.
    change (AttributeKindNominal =? AttributeKindNumeric) with false.
    change (AttributeKindNominal =? AttributeKindNominal) with true. cbv iota zeta.
    destruct Hs as [-> | ->]; destruct (AttributeValues.IndexOf (valuesOf a) s); reflexivity. }
  destruct (nominal_Value a inst s Hk Hs (proj1 Hv) Hlen) as (_ & Hindex & Hrange).
  pose proof (IndexOf_WellIndexed (valuesOf a) s Hv) as Hv'.
  pose proof (IndexOf_lookup (valuesOf a) s) as Hat.
  set (n := fst (AttributeValues.IndexOf (valuesOf a) s)) in *.
  set (values' := snd (AttributeValues.IndexOf (valuesOf a) s)) in *.
  eexists; eexists. split.
  { unfold Branch, deref. rewrite Hm.
    cbv beta iota delta [mbind result_bind Go.bind]. rewrite HV. reflexivity. }
  rewrite HV in Hindex. cbn [fst] in Hindex. rewrite Hindex.
  intros order a' Ha' Hperm.
  unfold Model.Predictor, Model.store in Ha'. simpl in Ha'.
  rewrite lookup_insert_eq in Ha'. inversion Ha'; subst a'. clear Ha'.
  change (valuesOf _) with values' in Hperm.
  destruct (Values_Lists values' order Hv' Hperm) as (names & Hcall & [Hnames Hlists]).
  unfold Describe, deref, Model.Predictor, Model.store. simpl.
  rewrite lookup_insert_eq. cbv beta iota delta [mbind result_bind Go.bind].
  cbn [Attribute.Values]. rewrite Hcall.
  destruct (proj1 Hv' s n Hat) as [Hn0 Hn1].
  replace (n <? 0) with false by (symmetry; apply Z.ltb_ge; lia).
  replace (n <? Z.of_nat (length names)) with true
    by (symmetry; apply Z.ltb_lt; rewrite Hnames; lia).
  rewrite (Hlists s n Hat). eexists. reflexivity.
Qed.

End Describing.

(** *** Conditions on the stream *)

(** The fields of a condition on the stream: the name of its predictor
    and, for the numeric condition, the split value. *)
Definition conditionFields (c : SplitCondition) (name : string) : list token :=
  match c with
  | nominalMultiwaySplitCondition _ => [Str name]
  | numericBinarySplitCondition _ SplitValue => [Str name; Float SplitValue]
  end.

(** X12. A condition whose attribute is a predictor of the model, filed
    under its name, is written as that name (followed by the split value of
    a numeric condition): [EncodeTo] returns these fields, and [DecodeFrom],
    reading them against the same model, gives back the condition that was
    written and leaves the rest of the stream. On a condition with a nil
    attribute [EncodeTo] panics. *)
Theorem DecodeFrom_EncodeTo (m : Model.t) (c : SplitCondition) :
  (conditionAttribute c = None -> EncodeTo c m = Panic NilDereference) /\
  forall (name : string) (a : Attribute.t),
    Model.named m ->
    conditionAttribute c = Some name ->
    Model.Predictor m name = Some a ->
    EncodeTo c m = Ok (conditionFields c name) /\
    forall rest : list token,
      DecodeFrom (conditionCode c) m (conditionFields c name ++ rest) = Decoded c rest.
Proof.
  split.
  - destruct c as [ptr|ptr threshold]; simpl; intros ->; reflexivity.
  - intros name a Hnamed Hptr Ha.
    pose proof (Hnamed name a Ha) as Hname.
    destruct c as [ptr|ptr threshold]; simpl in Hptr; subst ptr;
      unfold EncodeTo, Predictor, deref; simpl; rewrite Ha; simpl; rewrite Hname;
      (split; [reflexivity|]); intros rest; unfold resolve; rewrite Ha; reflexivity.
Qed.

(** X13. Reading a condition whose predictor the model does not have is no
    error: the condition comes back with a nil attribute, and the failure
    surfaces later, as a panic of [Branch], [Predictor] and [EncodeTo]. *)
Theorem DecodeFrom_unknown_predictor (m : Model.t) (name : string) (v : float)
    (rest : list token) :
  Model.Predictor m name = None ->
  DecodeFrom 7743 m (Str name :: rest)
    = Decoded (nominalMultiwaySplitCondition None) rest /\
  DecodeFrom 7744 m (Str name :: Float v :: rest)
    = Decoded (numericBinarySplitCondition None v) rest /\
  forall c inst,
    conditionAttribute c = None ->
    Branch c inst m = Panic NilDereference /\
    Predictor c m = Panic NilDereference /\
    EncodeTo c m = Panic NilDereference.
Proof.
  intros Hm. unfold DecodeFrom, resolve. rewrite Hm.
  split; [reflexivity|]. split; [reflexivity|].
  intros [ptr|ptr threshold] inst Hptr; simpl in Hptr; subst ptr; repeat split.
Qed.

(** *** Ranking suggestions *)

Lemma SuggestionLess_StrictWeak {stats : Type} (p : SplitSuggestions stats) :
  (forall s, In s p -> is_nan (Merit s) = false) ->
  StrictWeak (Reverse SuggestionLess) p.
Proof.
  intros Hnan. unfold Reverse, SuggestionLess. split; [|split].
  - intros a _. apply ltb_irrefl.
  - intros a b c _ _ _ Hab Hbc. exact (ltb_trans _ _ _ Hbc Hab).
  - intros a b c Ha Hb Hc Hab Hbc.
    apply leb_ltb_false. apply (leb_trans _ (Merit b)).
    + apply ltb_false_leb; auto.
    + apply ltb_false_leb; auto.
Qed.

(** X10. [Rank] puts the suggestions in order of merit, best first, a nil
    suggestion counting with merit 0; none is lost or added. This holds
    for every behaviour of [sort.Sort] within its contract, on merits that
    are numbers. *)
Theorem Rank_best_first `{Sorter} {stats : Type} (p : SplitSuggestions stats) :
  (forall s, In s p -> is_nan (Merit s) = false) ->
  Permutation (Rank p) p /\
  forall (i j : nat) (a b : option (SplitSuggestion stats)),
    (i <= j)%nat -> Rank p !! i = Some a -> Rank p !! j = Some b ->
    (Merit b <=? Merit a)%float = true.
Proof.
  intros Hnan. unfold Rank.
  pose proof (Sort_Permutation _ (Reverse SuggestionLess) p) as Hperm.
  pose proof (Sort_Ascending _ _ p (SuggestionLess_StrictWeak p Hnan)) as Hasc.
  split; [exact Hperm|].
  intros i j a b Hij Hi Hj.
  assert (Hin : forall k e, Sort (Reverse SuggestionLess) p !! k = Some e ->
                            is_nan (Merit e) = false).
  { intros k e Hk. apply Hnan. apply (Permutation_in _ Hperm).
    apply list_elem_of_In. eapply list_elem_of_lookup_2. exact Hk. }
  destruct (decide (i = j)) as [->|Hne].
  - rewrite Hi in Hj. inversion Hj; subst b. apply leb_refl. eapply Hin. exact Hi.
  - pose proof (Ascending_lookup _ _ Hasc i j a b ltac:(lia) Hi Hj) as Hlt.
    unfold Reverse, SuggestionLess in Hlt.
    apply ltb_false_leb; [eapply Hin; exact Hi|eapply Hin; exact Hj|exact Hlt].
Qed.

End Helpers.

(** ** Package hoeffding *)

Module Hoeffding.
Import Float64 Sorting Go Core Helpers.

(** The fields of [Config] the tree reads (config.go, with [Config.norm],
    is not among the sources). *)
Record Config : Type := mkConfig {
  GracePeriod : Z;
  SplitConfidence : float;
  TieThreshold : float;
  PrunePeriod : Z;
  PruneMemTarget : Z;
  EnableTracing : bool
}.

(** [Trace] and [TracePossibleSplit], with the fields [attemptSplit]
    assigns. *)
Module TracePossibleSplit.
Record t : Type := mk { Predictor : string; Merit : float }.
End TracePossibleSplit.

Module Trace.
Record t : Type := mk {
  PossibleSplits : list TracePossibleSplit.t;
  MeritGain : float;
  HoeffdingBound : float;
  Split : bool
}.
(** [new(Trace)] *)
Definition zero : t :=
  {| PossibleSplits := []; MeritGain := 0; HoeffdingBound := 0; Split := false |}.
End Trace.

Section Nodes.
Context {stats : Type} `{ObservationStats stats}.

(** *** Nodes

    Modelled from the spec: the node variants of sections 3 and 4.3 (the
    node sources are not among the files). A leaf owns its statistics,
    [WeightOnLastEval] and [IsInactive]; a split node owns its condition,
    the fallback statistics and the children, a map from branch index to
    child ([Children[parentIndex] = node] may add a branch). *)
Record leafNode : Type := mkLeafNode {
  Stats : stats;
  WeightOnLastEval : float;
  IsInactive : bool
}.

Inductive treeNode : Type :=
| LeafNode (leaf : leafNode)
| SplitNode (Condition : option SplitCondition) (SplitStats : option stats)
            (Children : children)
with children : Type :=
| NoChildren
| Child (index : Z) (node : treeNode) (rest : children).

Definition newLeafNode (s : stats) : leafNode :=
  {| Stats := s; WeightOnLastEval := 0; IsInactive := false |}.

Fixpoint newChildren (postSplit : list (Z * stats)) : children :=
  match postSplit with
  | [] => NoChildren
  | (i, s) :: rest => Child i (LeafNode (newLeafNode s)) (newChildren rest)
  end.

Definition newSplitNode (condition : option SplitCondition) (preSplit : option stats)
    (postSplit : list (Z * stats)) : treeNode :=
  SplitNode condition preSplit (newChildren postSplit).

(** [Children[i]] and [Children[i] = n]. *)
Fixpoint getChild (cs : children) (i : Z) : option treeNode :=
  match cs with
  | NoChildren => None
  | Child j c rest => if j =? i then Some c else getChild rest i
  end.

Fixpoint setChild (cs : children) (i : Z) (n : treeNode) : children :=
  match cs with
  | NoChildren => Child i n NoChildren
  | Child j c rest => if j =? i then Child j n rest else Child j c (setChild rest i n)
  end.

(** A [*leafNode] or [*splitNode] of the tree is modelled by the node's
    access path from the root, the branch indices to follow; the tree is the
    store these pointers point into, so an update through a pointer is seen
    by every later read through any pointer. The tree never moves a node:
    a path keeps naming the same node until that node is replaced. *)
Definition nodePtr : Type := list Z.

Fixpoint nodeAt (n : treeNode) (p : nodePtr) : option treeNode :=
  match p with
  | [] => Some n
  | i :: p' =>
      match n with
      | SplitNode _ _ cs =>
          match getChild cs i with
          | Some c => nodeAt c p'
          | None => None
          end
      | LeafNode _ => None
      end
  end.

Definition leafAt (n : treeNode) (p : nodePtr) : option leafNode :=
  match nodeAt n p with
  | Some (LeafNode l) => Some l
  | _ => None
  end.

Fixpoint updateAt (n : treeNode) (p : nodePtr) (f : treeNode -> treeNode) : treeNode :=
  match p with
  | [] => f n
  | i :: p' =>
      match n with
      | SplitNode c s cs =>
          match getChild cs i with
          | Some ch => SplitNode c s (setChild cs i (updateAt ch p' f))
          | None => n
          end
      | LeafNode _ => n
      end
  end.

(** A write to the fields of the leaf behind a pointer. When the leaf has
    been replaced in the tree, the write lands on the detached object, which
    nothing reaches any more: the tree is unchanged. *)
Definition updateLeafAt (n : treeNode) (p : nodePtr) (g : leafNode -> leafNode) : treeNode :=
  updateAt n p (fun x => match x with LeafNode l => LeafNode (g l) | _ => x end).

(** [parent.Children[i] = child] and [parent.SetChild(i, child)]. *)
Definition setChildAt (n : treeNode) (parent : nodePtr) (i : Z) (child : treeNode) : treeNode :=
  updateAt n parent
    (fun x => match x with
              | SplitNode c s cs => SplitNode c s (setChild cs i child)
              | _ => x
              end).

(** [Filter]: descend to the node an instance lands on. A leaf returns
    itself; a split node whose branch is unknown returns itself; a split
    node with a known branch recurses into the child, or returns
    [(nil, self, branch)] when that child is absent. *)
Record filtered : Type := mkFiltered {
  node : option nodePtr;
  parent : option nodePtr;
  parentIndex : Z
}.

Fixpoint Filter (n : treeNode) (self : nodePtr) (inst : Instance)
    (parent : option nodePtr) (parentIndex : Z) (m : Model.t) {struct n}
  : result (filtered * Model.t) :=
  match n with
  | LeafNode _ => Ok (mkFiltered (Some self) parent parentIndex, m)
  | SplitNode condition _ cs =>
      match condition with
      | None => Panic NilDereference
      | Some c =>
          match Branch c inst m with
          | Panic why => Panic why
          | Ok (branch, m') =>
              if -1 <? branch then FilterChild cs branch self inst m'
              else Ok (mkFiltered (Some self) parent parentIndex, m')
          end
      end
  end
with FilterChild (cs : children) (branch : Z) (self : nodePtr) (inst : Instance)
    (m : Model.t) {struct cs} : result (filtered * Model.t) :=
  match cs with
  | NoChildren => Ok (mkFiltered None (Some self) branch, m)
  | Child i c rest =>
      if i =? branch then Filter c (self ++ [branch]) inst (Some self) branch m
      else FilterChild rest branch self inst m
  end.

(** [Predict] of a node: a leaf answers from its statistics, a split node
    from its fallback statistics. *)
Definition nodePredict (n : treeNode) : result Prediction.t :=
  match n with
  | LeafNode l => Ok (Predict (Stats l))
  | SplitNode _ (Some s) _ => Ok (Predict s)
  | SplitNode _ None _ => Panic NilDereference
  end.

(** The structure of a tree: its nodes, conditions and branches, without
    the statistics and the leaf fields. *)
#[warnings="-register-all"]
Inductive shape : Type :=
| LeafShape
| SplitShape (condition : option SplitCondition) (branches : list (Z * shape)).

Fixpoint shapeOf (n : treeNode) : shape :=
  match n with
  | LeafNode _ => LeafShape
  | SplitNode c _ cs => SplitShape c (shapesOf cs)
  end
with shapesOf (cs : children) : list (Z * shape) :=
  match cs with
  | NoChildren => []
  | Child i c rest => (i, shapeOf c) :: shapesOf rest
  end.

End Nodes.

Arguments leafNode stats : clear implicits.
Arguments treeNode stats : clear implicits.
Arguments children stats : clear implicits.

(** *** The tree (classifiers/hoeffding/tree.go) *)

Section Tree.
Context {stats : Type} `{ObservationStats stats} `{Sorter}.

(** What the tree calls outside the sources:
    - [Log] is [math.Log];
    - [BestSplits] is [leaf.BestSplits(t)], modelled from the spec
      (section 4.1, best_splits): the leaf's candidate splits ranked by
      descending merit, computed from the configuration, the model and the
      leaf;
    - [leafLess] is the ordering of [leafNodeSlice] (section 4.5, the
      promise ordering);
    - [leafNodeSize] and [splitNodeSize] are the fixed parts of the
      byte-size estimates of the two node variants. *)
Variable Log : float -> float.
Variable BestSplits : Config -> Model.t -> leafNode stats -> SplitSuggestions stats.
Variable leafLess : leafNode stats -> leafNode stats -> bool.
Variables leafNodeSize splitNodeSize : Z.

Record Tree : Type := mkTree {
  conf : Config;
  root : treeNode stats;
  model : Model.t;
  leaves : list nodePtr;
  cycles : Z
}.

Definition withRoot (t : Tree) (r : treeNode stats) : Tree :=
  {| conf := conf t; root := r; model := model t; leaves := leaves t; cycles := cycles t |}.

(** Modelled from the spec: the leaf operations of sections 4.1 and 4.3.
    [Learn] updates the leaf's statistics with the instance; [Deactivate]
    and [Activate] switch the flag and shrink or restore the statistics;
    the byte size of a subtree is the sum of its nodes' byte sizes. *)
Definition Learn (leaf : leafNode stats) (inst : Instance) (m : Model.t)
  : leafNode stats * Model.t :=
  let '(s, m') := Update inst m (Stats leaf) in
  ({| Stats := s; WeightOnLastEval := WeightOnLastEval leaf;
      IsInactive := IsInactive leaf |}, m').

Definition leafDeactivate (leaf : leafNode stats) : leafNode stats :=
  {| Stats := Deactivate (Stats leaf); WeightOnLastEval := WeightOnLastEval leaf;
     IsInactive := true |}.

Definition leafActivate (leaf : leafNode stats) : leafNode stats :=
  {| Stats := Activate (Stats leaf); WeightOnLastEval := WeightOnLastEval leaf;
     IsInactive := false |}.

Definition leafByteSize (leaf : leafNode stats) : Z :=
  leafNodeSize + ByteSize (Stats leaf).

Fixpoint nodeByteSize (n : treeNode stats) : Z :=
  match n with
  | LeafNode leaf => leafByteSize leaf
  | SplitNode _ s cs =>
      splitNodeSize + match s with Some s => ByteSize s | None => 0 end
      + childrenByteSize cs
  end
with childrenByteSize (cs : children stats) : Z :=
  match cs with
  | NoChildren => 0
  | Child _ c rest => nodeByteSize c + childrenByteSize rest
  end.

(** [FindLeaves] appends the pointers of all leaves below a node. *)
Fixpoint FindLeaves (n : treeNode stats) (self : nodePtr) (buf : list nodePtr)
  : list nodePtr :=
  match n with
  | LeafNode _ => buf ++ [self]
  | SplitNode _ _ cs => FindLeavesIn cs self buf
  end
with FindLeavesIn (cs : children stats) (self : nodePtr) (buf : list nodePtr)
  : list nodePtr :=
  match cs with
  | NoChildren => buf
  | Child i c rest => FindLeavesIn rest self (FindLeaves c (self ++ [i]) buf)
  end.

(** [attemptSplit] (lines 207-268). The trace is built as the source builds
    it; every [return] of the source hands back [nil] in its place. *)
Fixpoint possibleSplits (m : Model.t) (splits : SplitSuggestions stats)
  : result (list TracePossibleSplit.t) :=
  match splits with
  | [] => Ok []
  | split :: rest =>
      match Condition split with
      | Some c =>
          name ← Predictor c m;
          more ← possibleSplits m rest;
          Ok ({| TracePossibleSplit.Predictor := name;
                 TracePossibleSplit.Merit := Merit split |} :: more)
      | None => possibleSplits m rest
      end
  end.

Definition meritGainOf (splits : SplitSuggestions stats) : float :=
  match splits with
  | [] => 0
  | bestSplit :: rest =>
      match rest with
      | second :: _ => (Merit bestSplit - Merit second)%float
      | [] => Merit bestSplit
      end
  end.

Definition hoeffdingBound (c : Config) (srange weight : float) : float :=
  sqrt (srange * srange * Log (1 / SplitConfidence c) / (2 * weight))%float.

Definition attemptSplit (t : Tree) (leaf : leafNode stats) (weight : float)
    (trace : option Trace.t) : result (option (treeNode stats) * option Trace.t) :=
  if negb (IsSufficient (Stats leaf)) || IsInactive leaf then Ok (None, None)
  else
    let trace := if EnableTracing (conf t) then Some Trace.zero else trace in
    let splits := BestSplits (conf t) (model t) leaf in
    match splits with
    | [] => Panic IndexOutOfRange
    | bestSplit :: _ =>
        let meritGain := meritGainOf splits in
        trace ← match trace with
                | Some tr =>
                    possible ← possibleSplits (model t) splits;
                    Ok (Some {| Trace.PossibleSplits := possible;
                                Trace.MeritGain := meritGain;
                                Trace.HoeffdingBound := Trace.HoeffdingBound tr;
                                Trace.Split := Trace.Split tr |})
                | None => Ok None
                end;
        if (meritGain <=? 0)%float then Ok (None, None)
        else
          let srange := Range bestSplit in
          let hbound := hoeffdingBound (conf t) srange weight in
          let trace :=
            match trace with
            | Some tr => Some {| Trace.PossibleSplits := Trace.PossibleSplits tr;
                                 Trace.MeritGain := Trace.MeritGain tr;
                                 Trace.HoeffdingBound := hbound;
                                 Trace.Split := Trace.Split tr |}
            | None => None
            end in
          if (hbound <? meritGain)%float || (hbound <? TieThreshold (conf t))%float then
            let trace :=
              match trace with
              | Some tr => Some {| Trace.PossibleSplits := Trace.PossibleSplits tr;
                                   Trace.MeritGain := Trace.MeritGain tr;
                                   Trace.HoeffdingBound := Trace.HoeffdingBound tr;
                                   Trace.Split := true |}
              | None => None
              end in
            Ok (Some (newSplitNode (Condition bestSplit) (PreStats bestSplit)
                        (PostStats bestSplit)), None)
          else Ok (None, None)
    end.

(** [prune] (lines 270-309). The slice [t.leaves] holds pointers to the
    leaves of the tree, so every [Deactivate] and [Activate] below is an
    update of the tree itself. A pointer collected by [FindLeaves] always
    names a leaf; the loops step over anything else. *)
Definition leafLessAt (r : treeNode stats) (p q : nodePtr) : bool :=
  match leafAt r p, leafAt r q with
  | Some a, Some b => leafLess a b
  | _, _ => false
  end.

(** First loop: deactivate active leaves in order until the estimate is
    within the target; the index reached is the pivot. *)
Fixpoint pruneDeactivate (target : Z) (ls : list nodePtr) (i piv : nat)
    (r : treeNode stats) (byteSize : Z) : treeNode stats * Z * nat :=
  match ls with
  | [] => (r, byteSize, piv)
  | p :: rest =>
      match leafAt r p with
      | Some leaf =>
          if IsInactive leaf then pruneDeactivate target rest (S i) piv r byteSize
          else
            let byteSize' := wrap64 (byteSize - leafByteSize leaf) in
            let r' := updateLeafAt r p leafDeactivate in
            if byteSize' <=? target then (r', byteSize', i)
            else pruneDeactivate target rest (S i) piv r' byteSize'
      | None => pruneDeactivate target rest (S i) piv r byteSize
      end
  end.

(** Second loop: reactivate the inactive leaves from the pivot on. *)
Fixpoint pruneReactivate (ls : list nodePtr) (r : treeNode stats) (byteSize : Z)
  : treeNode stats * Z :=
  match ls with
  | [] => (r, byteSize)
  | p :: rest =>
      match leafAt r p with
      | Some leaf =>
          if IsInactive leaf then
            pruneReactivate rest (updateLeafAt r p leafActivate)
              (wrap64 (byteSize + leafByteSize (leafActivate leaf)))
          else pruneReactivate rest r byteSize
      | None => pruneReactivate rest r byteSize
      end
  end.

(** Third loop: deactivate from the pivot on until the estimate is within
    the target. *)
Fixpoint pruneTail (target : Z) (ls : list nodePtr) (r : treeNode stats) (byteSize : Z)
  : treeNode stats * Z :=
  match ls with
  | [] => (r, byteSize)
  | p :: rest =>
      match leafAt r p with
      | Some leaf =>
          let byteSize' := wrap64 (byteSize - leafByteSize leaf) in
          let r' := updateLeafAt r p leafDeactivate in
          if byteSize' <=? target then (r', byteSize')
          else pruneTail target rest r' byteSize'
      | None => pruneTail target rest r byteSize
      end
  end.

Definition prune (t : Tree) : Tree :=
  let byteSize := nodeByteSize (root t) in
  if byteSize <=? PruneMemTarget (conf t) then t
  else
    let sorted := Sort (leafLessAt (root t)) (FindLeaves (root t) [] []) in
    let '(r1, size1, piv) :=
      pruneDeactivate (PruneMemTarget (conf t)) sorted 0 (length sorted) (root t) byteSize in
    let '(r2, size2) := pruneReactivate (drop piv sorted) r1 size1 in
    let '(r3, _) := pruneTail (PruneMemTarget (conf t)) (drop piv sorted) r2 size2 in
    {| conf := conf t; root := r3; model := model t; leaves := sorted; cycles := cycles t |}.

(** The value of the local [byteSize] when [prune] returns: the estimate at
    entry, less the size of every leaf the pass has deactivated, plus the
    size of every leaf it has reactivated. *)
Definition pruneEstimate (t : Tree) : Z :=
  let byteSize := nodeByteSize (root t) in
  if byteSize <=? PruneMemTarget (conf t) then byteSize
  else
    let sorted := Sort (leafLessAt (root t)) (FindLeaves (root t) [] []) in
    let '(r1, size1, piv) :=
      pruneDeactivate (PruneMemTarget (conf t)) sorted 0 (length sorted) (root t) byteSize in
    let '(r2, size2) := pruneReactivate (drop piv sorted) r1 size1 in
    snd (pruneTail (PruneMemTarget (conf t)) (drop piv sorted) r2 size2).

(** [Train] (lines 128-169), in the two phases of its body. [land]
    (lines 135-148) filters the instance down the tree, allocates a leaf in
    an empty child slot, lets the leaf learn and runs the periodic pruning
    pass; [evaluate] (lines 150-168) is the grace-period check, the split
    attempt and the update of [WeightOnLastEval]. The pruning pass is a
    parameter of [land] so that a statement can say a call does not depend
    on it; [Train] passes [prune]. *)
Inductive landing : Type :=
| OffLeaf (t : Tree)
| OnLeaf (t : Tree) (leaf : nodePtr) (parent : option nodePtr) (parentIndex : Z).

Definition tick (pruneFn : Tree -> Tree) (t : Tree) : Tree :=
  if 0 <? PrunePeriod (conf t) then
    let t' := {| conf := conf t; root := root t; model := model t;
                 leaves := leaves t; cycles := wrap64 (cycles t + 1) |} in
    if Z.rem (cycles t') (PrunePeriod (conf t)) =? 0 then pruneFn t' else t'
  else t.

Definition land (pruneFn : Tree -> Tree) (t : Tree) (inst : Instance) : result landing :=
  '(f, m1) ← Filter (root t) [] inst None (-1) (model t);
  '(ptr, r1) ←
    match node f with
    | Some ptr => Ok (ptr, root t)
    | None =>
        match parent f with
        | Some pp =>
            let fresh := newLeafNode (NewObservationStats (Model.IsRegression m1)) in
            Ok (pp ++ [parentIndex f],
                setChildAt (root t) pp (parentIndex f) (LeafNode fresh))
        | None => Panic NilDereference
        end
    end;
  match nodeAt r1 ptr with
  | Some (LeafNode leaf) =>
      let '(leaf', m2) := Learn leaf inst m1 in
      let t2 := {| conf := conf t; root := updateLeafAt r1 ptr (fun _ => leaf');
                   model := m2; leaves := leaves t; cycles := cycles t |} in
      Ok (OnLeaf (tick pruneFn t2) ptr (parent f) (parentIndex f))
  | _ =>
      Ok (OffLeaf {| conf := conf t; root := r1; model := m1;
                     leaves := leaves t; cycles := cycles t |})
  end.

Definition setWeightOnLastEval (weight : float) (leaf : leafNode stats) : leafNode stats :=
  {| Stats := Stats leaf; WeightOnLastEval := weight; IsInactive := IsInactive leaf |}.

Definition evaluate (t : Tree) (ptr : nodePtr) (parent : option nodePtr)
    (parentIndex : Z) : result (option Trace.t * Tree) :=
  match leafAt (root t) ptr with
  | None => Panic NilDereference
  | Some leaf =>
      let trace : option Trace.t := None in
      let weight := TotalWeight (Stats leaf) in
      if int_of_float64 (weight - WeightOnLastEval leaf) <? GracePeriod (conf t)
      then Ok (trace, t)
      else
        '(split, trace) ← attemptSplit t leaf weight trace;
        let r1 :=
          match split with
          | Some sn =>
              match parent with
              | None => sn
              | Some pp => setChildAt (root t) pp parentIndex sn
              end
          | None => root t
          end in
        let r2 :=
          if (WeightOnLastEval leaf <? weight)%float
          then updateLeafAt r1 ptr (setWeightOnLastEval weight)
          else r1 in
        Ok (trace, withRoot t r2)
  end.

Definition TrainWith (pruneFn : Tree -> Tree) (t : Tree) (inst : Instance)
  : result (option Trace.t * Tree) :=
  l ← land pruneFn t inst;
  match l with
  | OffLeaf t' => Ok (None, t')
  | OnLeaf t' ptr parent parentIndex => evaluate t' ptr parent parentIndex
  end.

Definition Train (t : Tree) (inst : Instance) : result (option Trace.t * Tree) :=
  TrainWith prune t inst.

(** [Predict] (lines 171-181). The descent may register unseen nominal
    values in the model, so the tree is returned with the prediction. *)
Definition Predict (t : Tree) (inst : Instance) : result (Prediction.t * Tree) :=
  '(f, m1) ← Filter (root t) [] inst None (-1) (model t);
  let target := match node f with
                | Some ptr => Some ptr
                | None => parent f
                end in
  match target with
  | None => Panic NilDereference
  | Some ptr =>
      match nodeAt (root t) ptr with
      | Some n =>
          votes ← nodePredict n;
          Ok (votes, {| conf := conf t; root := root t; model := m1;
                        leaves := leaves t; cycles := cycles t |})
      | None => Panic NilDereference
      end
  end.

(** *** Structure is kept by leaf updates *)

Lemma shapesOf_setChild (cs : children stats) (i : Z) (old new : treeNode stats) :
  getChild cs i = Some old -> shapeOf new = shapeOf old ->
  shapesOf (setChild cs i new) = shapesOf cs.
Proof.
  induction cs as [|j c rest IH]; simpl; [discriminate|].
  destruct (j =? i) eqn:E; intros Hg Hs.
  - inversion Hg; subst. simpl. now rewrite Hs.
  - simpl. now rewrite IH.
Qed.

Lemma shapeOf_updateAt (n : treeNode stats) (p : nodePtr) (f : treeNode stats -> treeNode stats) :
  (forall x, shapeOf (f x) = shapeOf x) ->
  shapeOf (updateAt n p f) = shapeOf n.
Proof.
  intros Hf. revert n. induction p as [|i p IH]; intros n; simpl; [apply Hf|].
  destruct n as [leaf|c s cs]; [reflexivity|].
  destruct (getChild cs i) as [ch|] eqn:Hg; [|reflexivity].
  simpl. f_equal. apply (shapesOf_setChild _ _ ch); auto.
Qed.

Lemma shapeOf_updateLeafAt (n : treeNode stats) (p : nodePtr)
    (g : leafNode stats -> leafNode stats) :
  shapeOf (updateLeafAt n p g) = shapeOf n.
Proof. apply shapeOf_updateAt. now intros [leaf|c s cs]. Qed.

(** *** The split decision *)

Lemma ltb_nan (x y : float) : is_nan x = true \/ is_nan y = true -> (x <? y)%float = false.
Proof.
  intros Hnan. destruct (x <? y)%float eqn:Hlt; [|reflexivity].
  destruct (ltb_not_nan x y Hlt) as [Hx Hy]. destruct Hnan; congruence.
Qed.

Lemma leb_nan (x y : float) : is_nan x = true \/ is_nan y = true -> (x <=? y)%float = false.
Proof.
  rewrite !is_nan_Prim2SF, FloatAxioms.leb_spec. unfold SFleb.
  destruct (Prim2SF x) as [[|]|[|]| |[|] m1 e1], (Prim2SF y) as [[|]|[|]| |[|] m2 e2];
    simpl; intros [Hx|Hy]; try discriminate; reflexivity.
Qed.

Lemma positive_iff_not_le (x : float) :
  is_nan x = false -> (0 <? x)%float = negb (x <=? 0)%float.
Proof. intros Hx. now apply ltb_negb_leb. Qed.

(** C1. The split evaluation on an active leaf with sufficient statistics
    and at least one suggestion. With [gain] the best merit minus the
    runner-up's (the best merit alone when it is the only suggestion) and
    [bound = sqrt (R * R * Log (1 / SplitConfidence) / (2 * weight))] for
    the best suggestion's range [R]: [attemptSplit] returns whenever no
    trace is recorded, or every suggestion's condition names its predictor;
    whenever it returns, it returns a split node exactly when
    [gain <= 0] fails and ([gain > bound] or [bound < TieThreshold]). For a
    gain that is a number, [gain <= 0] fails exactly when [gain > 0]; for a
    NaN gain it fails too. The node is built from the best suggestion.
    Otherwise no node is returned, and the evaluation that called
    [attemptSplit] leaves the structure of the tree as it was. *)
Theorem attemptSplit_decision (t : Tree) (leaf : leafNode stats) (weight : float)
    (trace : option Trace.t) (best : option (SplitSuggestion stats))
    (others : SplitSuggestions stats) :
  IsSufficient (Stats leaf) = true ->
  IsInactive leaf = false ->
  BestSplits (conf t) (model t) leaf = best :: others ->
  let gain := match others with
              | second :: _ => (Merit best - Merit second)%float
              | [] => Merit best
              end in
  let bound := sqrt (Range best * Range best * Log (1 / SplitConfidence (conf t))
                     / (2 * weight))%float in
  ((EnableTracing (conf t) = false /\ trace = None) \/
   returns (possibleSplits (model t) (best :: others)) ->
   exists split, attemptSplit t leaf weight trace = Ok (split, None)) /\
  (is_nan gain = false -> ((gain <=? 0)%float = false <-> (0 <? gain)%float = true)) /\
  (is_nan gain = true -> (gain <=? 0)%float = false /\ (0 <? gain)%float = false) /\
  forall (split : option (treeNode stats)) (trace' : option Trace.t),
    attemptSplit t leaf weight trace = Ok (split, trace') ->
    ((exists sn, split = Some sn) <->
       (gain <=? 0)%float = false /\
       ((bound <? gain)%float = true \/ (bound <? TieThreshold (conf t))%float = true)) /\
    (forall sn, split = Some sn ->
       sn = newSplitNode (Condition best) (PreStats best) (PostStats best)) /\
    (split = None ->
       forall ptr parent parentIndex,
         leafAt (root t) ptr = Some leaf ->
         (int_of_float64 (TotalWeight (Stats leaf) - WeightOnLastEval leaf)
            <? GracePeriod (conf t)) = false ->
         weight = TotalWeight (Stats leaf) ->
         trace = None ->
         exists r, evaluate t ptr parent parentIndex = Ok (None, withRoot t r) /\
                   shapeOf r = shapeOf (root t)).
Proof.
  intros Hsuff Hact Hbest gain bound.
  set (decided := negb (gain <=? 0)%float
                  && ((bound <? gain)%float || (bound <? TieThreshold (conf t))%float)).
  set (outcome := if decided
                  then Some (newSplitNode (Condition best) (PreStats best) (PostStats best))
                  else None).
  assert (Hform : attemptSplit t leaf weight trace =
    match (if EnableTracing (conf t) then Some Trace.zero else trace) with
    | Some _ =>
        match possibleSplits (model t) (best :: others) with
        | Ok _ => Ok (outcome, None)
        | Panic why => Panic why
        end
    | None => Ok (outcome, None)
    end).
  { unfold attemptSplit. rewrite Hsuff, Hact, Hbest. simpl orb. cbv iota.
    change (meritGainOf (best :: others)) with gain.
    change (hoeffdingBound (conf t) (Range best) weight) with bound.
    subst outcome decided. unfold gain, bound.
    destruct (if EnableTracing (conf t) then Some Trace.zero else trace).
    - destruct (possibleSplits (model t) (best :: others));
        cbv beta iota delta [mbind result_bind Go.bind]; [|reflexivity].
      destruct (_ <=? 0)%float; simpl; try reflexivity;
        destruct (_ || _); reflexivity.
    - cbv beta iota delta [mbind result_bind Go.bind].
      destruct (_ <=? 0)%float; simpl; try reflexivity;
        destruct (_ || _); reflexivity. }
  split; [|split; [|split]].
  - intros Hret. exists outcome. rewrite Hform.
    destruct Hret as [[Hoff ->]|[possible Hposs]].
    + now rewrite Hoff.
    + rewrite Hposs. now destruct (if EnableTracing (conf t) then _ else _).
  - intros Hnan. rewrite (positive_iff_not_le gain Hnan).
    destruct (gain <=? 0)%float; simpl; split; congruence.
  - intros Hnan. split; [apply leb_nan|apply ltb_nan]; auto.
  - intros split trace' E.
    assert (Hsplit : split = outcome /\ trace' = None).
    { rewrite Hform in E.
      destruct (if EnableTracing (conf t) then Some Trace.zero else trace);
        [destruct (possibleSplits (model t) (best :: others))|];
        split; congruence. }
    destruct Hsplit as [-> ->]. unfold outcome, decided.
    split; [|split].
    + destruct (gain <=? 0)%float; simpl.
      * split; [intros [sn Hsn]; discriminate Hsn|intros [Hc _]; discriminate Hc].
      * destruct ((bound <? gain)%float || (bound <? TieThreshold (conf t))%float) eqn:Hor.
        -- split; [intros _|intros _; eexists; reflexivity].
           split; [reflexivity|]. now apply orb_true_iff in Hor.
        -- split; [intros [sn Hsn]; discriminate Hsn|].
           intros [_ Hc]. apply orb_true_iff in Hc. congruence.
    + intros sn Hsn. fold decided in Hsn. destruct decided; now inversion Hsn.
    + intros Hnone ptr parent parentIndex Hleaf Hgrace Hw Htrace.
      fold decided in Hnone. fold outcome in E.
      unfold evaluate. rewrite Hleaf, Hgrace. subst weight trace. rewrite E.
      cbv beta iota delta [mbind result_bind Go.bind].
      fold outcome in Hnone. rewrite Hnone.
      eexists. split; [reflexivity|].
      destruct (WeightOnLastEval leaf <? TotalWeight (Stats leaf))%float;
        [apply shapeOf_updateLeafAt|reflexivity].
Qed.

(** Every return of [attemptSplit] drops the trace it has built. *)
Lemma attemptSplit_drops_trace (t : Tree) (leaf : leafNode stats) (weight : float)
    (trace : option Trace.t) :
  match attemptSplit t leaf weight trace with
  | Ok (_, trace') => trace' = None
  | Panic _ => True
  end.
Proof.
  unfold attemptSplit.
  destruct (negb (IsSufficient (Stats leaf)) || IsInactive leaf); [reflexivity|].
  destruct (BestSplits (conf t) (model t) leaf) as [|best others]; [exact I|].
  destruct (if EnableTracing (conf t) then Some Trace.zero else trace).
  - destruct (possibleSplits (model t) (best :: others));
      cbv beta iota delta [mbind result_bind Go.bind]; [|exact I].
    destruct (_ <=? 0)%float; [reflexivity|].
    destruct (_ || _); reflexivity.
  - cbv beta iota delta [mbind result_bind Go.bind].
    destruct (_ <=? 0)%float; [reflexivity|].
    destruct (_ || _); reflexivity.
Qed.

(** C2 (what the code does). Whatever the tree, the configuration and the
    instance, [Train] hands back no trace: when tracing is enabled
    [attemptSplit] allocates and fills one, and each of its returns gives
    [nil] in its place. The claim asks for a non-nil trace recording the
    evaluation. *)
Theorem Train_drops_trace (t : Tree) (inst : Instance) :
  match Train t inst with
  | Ok (trace, _) => trace = None
  | Panic _ => True
  end.
Proof.
  unfold Train, TrainWith.
  destruct (land prune t inst) as [[t'|t' ptr parent parentIndex]|why]; simpl;
    [reflexivity| |exact I].
  unfold evaluate. destruct (leafAt (root t') ptr) as [leaf|]; [|exact I].
  destruct (_ <? GracePeriod (conf t')); [reflexivity|].
  pose proof (attemptSplit_drops_trace t' leaf (TotalWeight (Stats leaf)) None) as D.
  destruct (attemptSplit t' leaf (TotalWeight (Stats leaf)) None) as [[split trace]|why];
    simpl; [exact D|exact I].
Qed.

(** *** The pruning pass *)

Lemma pruneDeactivate_shape (target : Z) (ls : list nodePtr) (i piv : nat)
    (r : treeNode stats) (byteSize : Z) :
  shapeOf (fst (fst (pruneDeactivate target ls i piv r byteSize))) = shapeOf r.
Proof.
  revert i r byteSize. induction ls as [|p rest IH]; intros i r byteSize; simpl.
  - reflexivity.
  - destruct (leafAt r p) as [leaf|]; [|apply IH].
    destruct (IsInactive leaf); [apply IH|].
    destruct (_ <=? target); simpl; [apply shapeOf_updateLeafAt|].
    rewrite IH. apply shapeOf_updateLeafAt.
Qed.

Lemma pruneReactivate_shape (ls : list nodePtr) (r : treeNode stats) (byteSize : Z) :
  shapeOf (fst (pruneReactivate ls r byteSize)) = shapeOf r.
Proof.
  revert r byteSize. induction ls as [|p rest IH]; intros r byteSize; simpl.
  - reflexivity.
  - destruct (leafAt r p) as [leaf|]; [|apply IH].
    destruct (IsInactive leaf); [|apply IH].
    rewrite IH. apply shapeOf_updateLeafAt.
Qed.

Lemma pruneTail_shape (target : Z) (ls : list nodePtr) (r : treeNode stats)
    (byteSize : Z) :
  shapeOf (fst (pruneTail target ls r byteSize)) = shapeOf r.
Proof.
  revert r byteSize. induction ls as [|p rest IH]; intros r byteSize; simpl.
  - reflexivity.
  - destruct (leafAt r p) as [leaf|]; [|apply IH].
    destruct (_ <=? target); simpl; [apply shapeOf_updateLeafAt|].
    rewrite IH. apply shapeOf_updateLeafAt.
Qed.

Lemma prune_shape (t : Tree) : shapeOf (root (prune t)) = shapeOf (root t).
Proof.
  unfold prune. destruct (_ <=? _); [reflexivity|].
  set (sorted := Sort _ _).
  pose proof (pruneDeactivate_shape (PruneMemTarget (conf t)) sorted 0 (length sorted)
                (root t) (nodeByteSize (root t))) as S1.
  destruct (pruneDeactivate _ sorted 0 _ _ _) as [[r1 size1] piv]. simpl in S1.
  pose proof (pruneReactivate_shape (drop piv sorted) r1 size1) as S2.
  destruct (pruneReactivate _ r1 size1) as [r2 size2]. simpl in S2.
  pose proof (pruneTail_shape (PruneMemTarget (conf t)) (drop piv sorted) r2 size2) as S3.
  destruct (pruneTail _ _ r2 size2) as [r3 size3]. simpl in *.
  congruence.
Qed.

Lemma tick_shape (pruneFn : Tree -> Tree) (t : Tree) :
  (forall t0, shapeOf (root (pruneFn t0)) = shapeOf (root t0)) ->
  shapeOf (root (tick pruneFn t)) = shapeOf (root t).
Proof.
  intros Hprune. unfold tick. destruct (0 <? _); [|reflexivity].
  destruct (_ =? 0); [|reflexivity]. now rewrite Hprune.
Qed.

(** *** Pointers into the tree *)

Scheme treeNode_mut := Induction for treeNode Sort Prop
  with children_mut := Induction for children Sort Prop.

Lemma getChild_setChild (cs : children stats) (i j : Z) (n : treeNode stats) :
  getChild (setChild cs i n) j = if i =? j then Some n else getChild cs j.
Proof.
  induction cs as [|k c rest IH]; simpl.
  - reflexivity.
  - destruct (k =? i) eqn:Eki; simpl.
    + apply Z.eqb_eq in Eki; subst k. destruct (i =? j); reflexivity.
    + destruct (k =? j) eqn:Ekj; [|exact IH].
      apply Z.eqb_eq in Ekj; subst k. now rewrite Z.eqb_sym, Eki.
Qed.

Lemma nodeAt_app (r : treeNode stats) (p q : nodePtr) :
  nodeAt r (p ++ q) = match nodeAt r p with
                      | Some n => nodeAt n q
                      | None => None
                      end.
Proof.
  revert r. induction p as [|i p IH]; intros r; simpl; [reflexivity|].
  destruct r as [leaf|c s cs]; [reflexivity|].
  destruct (getChild cs i); [apply IH|reflexivity].
Qed.

Lemma nodeAt_updateAt_same (r : treeNode stats) (p : nodePtr)
    (f : treeNode stats -> treeNode stats) :
  nodeAt (updateAt r p f) p = match nodeAt r p with
                              | Some n => Some (f n)
                              | None => None
                              end.
Proof.
  revert r. induction p as [|i p IH]; intros r; simpl; [reflexivity|].
  destruct r as [leaf|c s cs]; [reflexivity|].
  destruct (getChild cs i) as [ch|] eqn:Hg; simpl.
  - rewrite getChild_setChild, Z.eqb_refl. apply IH.
  - now rewrite Hg.
Qed.

Lemma leafAt_updateLeafAt_same (r : treeNode stats) (p : nodePtr)
    (g : leafNode stats -> leafNode stats) (leaf : leafNode stats) :
  leafAt r p = Some leaf -> leafAt (updateLeafAt r p g) p = Some (g leaf).
Proof.
  unfold leafAt, updateLeafAt. rewrite nodeAt_updateAt_same.
  destruct (nodeAt r p) as [[l|c s cs]|]; try discriminate.
  intros E; inversion E; reflexivity.
Qed.

(** *** How training changes the tree

    [grows R promote r r']: [r'] has the nodes of [r] at the same places. A
    leaf is still a leaf, with [WeightOnLastEval] related by [R], or (when
    [promote] holds) has been replaced by a split node; a split node is
    still a split node with the same condition, its children have grown and
    further branches may have been added. *)
Section Growth.
Variable R : float -> float -> Prop.
Variable promote : bool.

Inductive grows : treeNode stats -> treeNode stats -> Prop :=
| grows_leaf (l l' : leafNode stats) :
    R (WeightOnLastEval l) (WeightOnLastEval l') ->
    grows (LeafNode l) (LeafNode l')
| grows_promoted (l : leafNode stats) c s cs :
    promote = true ->
    grows (LeafNode l) (SplitNode c s cs)
| grows_split c s s' cs cs' :
    growsIn cs cs' ->
    grows (SplitNode c s cs) (SplitNode c s' cs')
with growsIn : children stats -> children stats -> Prop :=
| grows_more cs' : growsIn NoChildren cs'
| grows_child i c c' rest rest' :
    grows c c' -> growsIn rest rest' ->
    growsIn (Child i c rest) (Child i c' rest').

Scheme grows_mut := Minimality for grows Sort Prop
  with growsIn_mut := Minimality for growsIn Sort Prop.

Hypothesis R_refl : forall w, R w w.

Lemma grows_refl_both :
  (forall n : treeNode stats, grows n n) /\ (forall cs : children stats, growsIn cs cs).
Proof.
  assert (Hn : forall n : treeNode stats, grows n n).
  { apply (treeNode_mut stats (fun n => grows n n) (fun cs => growsIn cs cs)).
    - intros leaf. now constructor.
    - intros c s cs IH. now constructor.
    - constructor.
    - intros i n IHn rest IHrest. now constructor. }
  split; [exact Hn|].
  induction cs as [|i c rest IH]; constructor; auto.
Qed.

Lemma grows_refl (n : treeNode stats) : grows n n.
Proof. apply grows_refl_both. Qed.

Lemma growsIn_refl (cs : children stats) : growsIn cs cs.
Proof. apply grows_refl_both. Qed.

Lemma growsIn_getChild (cs cs' : children stats) (i : Z) (c : treeNode stats) :
  growsIn cs cs' -> getChild cs i = Some c ->
  exists c', getChild cs' i = Some c' /\ grows c c'.
Proof.
  induction 1 as [cs'|j d d' rest rest' Hd Hrest IH]; simpl; [discriminate|].
  destruct (j =? i); [|exact IH].
  intros E; inversion E; subst. eauto.
Qed.

Lemma grows_nodeAt (r r' : treeNode stats) (q : nodePtr) (n : treeNode stats) :
  grows r r' -> nodeAt r q = Some n ->
  exists n', nodeAt r' q = Some n' /\ grows n n'.
Proof.
  revert r r'. induction q as [|i q IH]; intros r r' Hg; simpl.
  - intros E; inversion E; subst. eauto.
  - destruct r as [leaf|c s cs]; [discriminate|].
    inversion Hg as [| |c0 s0 s' cs0 cs' Hin]; subst.
    destruct (getChild cs i) as [ch|] eqn:Hch; [|discriminate].
    destruct (growsIn_getChild _ _ _ _ Hin Hch) as (ch' & -> & Hgch).
    now apply IH.
Qed.

Lemma growsIn_setChild (cs : children stats) (i : Z) (n : treeNode stats) :
  (forall c, getChild cs i = Some c -> grows c n) ->
  growsIn cs (setChild cs i n).
Proof.
  induction cs as [|j c rest IH]; simpl; intros Hn; [constructor|].
  destruct (j =? i).
  - constructor; [now apply Hn|apply growsIn_refl].
  - constructor; [apply grows_refl|now apply IH].
Qed.

Lemma grows_updateAt (r : treeNode stats) (p : nodePtr)
    (f : treeNode stats -> treeNode stats) :
  (forall x, nodeAt r p = Some x -> grows x (f x)) ->
  grows r (updateAt r p f).
Proof.
  revert r. induction p as [|i p IH]; intros r Hf; simpl.
  - now apply Hf.
  - destruct r as [leaf|c s cs]; [apply grows_refl|].
    destruct (getChild cs i) as [ch|] eqn:Hch; [|apply grows_refl].
    constructor. apply growsIn_setChild.
    intros c0 E. rewrite Hch in E. inversion E; subst c0.
    apply IH. intros x Hx. apply Hf. simpl. now rewrite Hch.
Qed.

Lemma grows_updateLeafAt (r : treeNode stats) (p : nodePtr)
    (g : leafNode stats -> leafNode stats) :
  (forall leaf, leafAt r p = Some leaf ->
     R (WeightOnLastEval leaf) (WeightOnLastEval (g leaf))) ->
  grows r (updateLeafAt r p g).
Proof.
  intros Hg. apply grows_updateAt. intros [leaf|c s cs] Hx.
  - constructor. apply Hg. unfold leafAt. now rewrite Hx.
  - apply grows_refl.
Qed.

Lemma grows_setChildAt (r : treeNode stats) (pp : nodePtr) (i : Z) (n : treeNode stats) :
  (forall ch, nodeAt r (pp ++ [i]) = Some ch -> grows ch n) ->
  grows r (setChildAt r pp i n).
Proof.
  intros Hn. apply grows_updateAt. intros [leaf|c s cs] Hx.
  - apply grows_refl.
  - constructor. apply growsIn_setChild. intros ch Hch. apply Hn.
    rewrite nodeAt_app, Hx. simpl. now rewrite Hch.
Qed.

Hypothesis R_trans : forall a b c, R a b -> R b c -> R a c.

Lemma grows_trans_both :
  (forall a b, grows a b -> forall c, grows b c -> grows a c) /\
  (forall a b, growsIn a b -> forall c, growsIn b c -> growsIn a c).
Proof.
  apply (conj
    (grows_mut (fun a b => forall c, grows b c -> grows a c)
               (fun a b => forall c, growsIn b c -> growsIn a c)
               ltac:(intros l l' HR c Hc; inversion Hc; subst;
                       [constructor; eauto | now constructor])
               ltac:(intros l c0 s cs Hp c Hc; inversion Hc; subst; now constructor)
               ltac:(intros c0 s s' cs cs' Hin IH c Hc; inversion Hc; subst;
                       constructor; now apply IH)
               ltac:(intros cs' c Hc; constructor)
               ltac:(intros i d d' rest rest' Hd IHd Hrest IHrest c Hc;
                       inversion Hc; subst; constructor; auto))
    (growsIn_mut (fun a b => forall c, grows b c -> grows a c)
               (fun a b => forall c, growsIn b c -> growsIn a c)
               ltac:(intros l l' HR c Hc; inversion Hc; subst;
                       [constructor; eauto | now constructor])
               ltac:(intros l c0 s cs Hp c Hc; inversion Hc; subst; now constructor)
               ltac:(intros c0 s s' cs cs' Hin IH c Hc; inversion Hc; subst;
                       constructor; now apply IH)
               ltac:(intros cs' c Hc; constructor)
               ltac:(intros i d d' rest rest' Hd IHd Hrest IHrest c Hc;
                       inversion Hc; subst; constructor; auto))).
Qed.

Lemma grows_trans (a b c : treeNode stats) : grows a b -> grows b c -> grows a c.
Proof. intros Hab Hbc. exact (proj1 grows_trans_both a b Hab c Hbc). Qed.

End Growth.

Lemma grows_weaken (R R' : float -> float -> Prop) (promote : bool) :
  (forall a b, R a b -> R' a b) ->
  (forall a b, grows R promote a b -> grows R' true a b) /\
  (forall a b, growsIn R promote a b -> growsIn R' true a b).
Proof.
  intros HR. split.
  - apply (grows_mut R promote (fun a b => grows R' true a b)
             (fun a b => growsIn R' true a b)); intros; constructor; auto.
  - apply (growsIn_mut R promote (fun a b => grows R' true a b)
             (fun a b => growsIn R' true a b)); intros; constructor; auto.
Qed.

(** [keeps r r']: every leaf of [r] is a leaf of [r'] with the same
    [WeightOnLastEval], and no leaf was promoted. *)
Definition keeps : treeNode stats -> treeNode stats -> Prop := grows eq false.

(** [noless w w']: [w'] is [w] or a larger number. *)
Definition noless (w w' : float) : Prop := w' = w \/ (w <? w')%float = true.

Lemma noless_refl (w : float) : noless w w.
Proof. now left. Qed.

Lemma noless_trans (a b c : float) : noless a b -> noless b c -> noless a c.
Proof.
  intros [->|Hab] [->|Hbc]; try (now left); try (now right).
  right. exact (ltb_trans _ _ _ Hab Hbc).
Qed.

(** [advances r r']: every leaf of [r] is, in [r'], a leaf whose
    [WeightOnLastEval] is no less, or has been promoted. *)
Definition advances : treeNode stats -> treeNode stats -> Prop := grows noless true.

Lemma keeps_refl (r : treeNode stats) : keeps r r.
Proof. apply grows_refl. reflexivity. Qed.

Lemma keeps_trans (a b c : treeNode stats) : keeps a b -> keeps b c -> keeps a c.
Proof. apply grows_trans. intros x y z -> ->. reflexivity. Qed.

Lemma advances_refl (r : treeNode stats) : advances r r.
Proof. apply grows_refl. exact noless_refl. Qed.

Lemma advances_trans (a b c : treeNode stats) :
  advances a b -> advances b c -> advances a c.
Proof. apply grows_trans. exact noless_trans. Qed.

Lemma keeps_advances (a b : treeNode stats) : keeps a b -> advances a b.
Proof. apply (grows_weaken eq noless false). intros x y ->. apply noless_refl. Qed.

Lemma keeps_leafAt (r r' : treeNode stats) (p : nodePtr) (leaf : leafNode stats) :
  keeps r r' -> leafAt r p = Some leaf ->
  exists leaf', leafAt r' p = Some leaf' /\
                WeightOnLastEval leaf' = WeightOnLastEval leaf.
Proof.
  intros Hk Hl. unfold leafAt in *.
  destruct (nodeAt r p) as [[l|c s cs]|] eqn:Hn; try discriminate.
  inversion Hl; subst l.
  destruct (grows_nodeAt _ _ _ _ _ _ Hk Hn) as (n' & -> & Hg).
  inversion Hg as [l l' HR| |]; subst; [|discriminate].
  exists l'. now split.
Qed.

Lemma advances_leafAt (r r' : treeNode stats) (p : nodePtr) (leaf : leafNode stats) :
  advances r r' -> leafAt r p = Some leaf ->
  (exists leaf', leafAt r' p = Some leaf' /\
                 noless (WeightOnLastEval leaf) (WeightOnLastEval leaf')) \/
  (exists c s cs, nodeAt r' p = Some (SplitNode c s cs)).
Proof.
  intros Hk Hl. unfold leafAt in *.
  destruct (nodeAt r p) as [[l|c s cs]|] eqn:Hn; try discriminate.
  inversion Hl; subst l.
  destruct (grows_nodeAt _ _ _ _ _ _ Hk Hn) as (n' & -> & Hg).
  inversion Hg as [l l' HR|l c s cs|]; subst; [left|right]; eauto.
Qed.

Lemma advances_split (r r' : treeNode stats) (p : nodePtr) c s cs :
  advances r r' -> nodeAt r p = Some (SplitNode c s cs) ->
  exists s' cs', nodeAt r' p = Some (SplitNode c s' cs').
Proof.
  intros Hk Hn.
  destruct (grows_nodeAt _ _ _ _ _ _ Hk Hn) as (n' & -> & Hg).
  inversion Hg; subst. eauto.
Qed.

(** *** Where [Filter] lands *)

Definition linked (parent : option nodePtr) (ptr : nodePtr) (parentIndex : Z) : Prop :=
  match parent with
  | None => ptr = []
  | Some pp => ptr = pp ++ [parentIndex]
  end.

Definition landsIn (r : treeNode stats) (f : filtered) : Prop :=
  match node f with
  | Some ptr =>
      linked (parent f) ptr (parentIndex f) /\ exists n, nodeAt r ptr = Some n
  | None =>
      exists pp c s cs,
        parent f = Some pp /\ nodeAt r pp = Some (SplitNode c s cs) /\
        getChild cs (parentIndex f) = None
  end.

Lemma Filter_landsIn_both (r : treeNode stats) (inst : Instance) :
  (forall n self par idx m f m',
     nodeAt r self = Some n -> linked par self idx ->
     Filter n self inst par idx m = Ok (f, m') -> landsIn r f) /\
  (forall cs branch self m f m' c s cs0,
     nodeAt r self = Some (SplitNode c s cs0) ->
     getChild cs0 branch = getChild cs branch ->
     FilterChild cs branch self inst m = Ok (f, m') -> landsIn r f).
Proof.
  assert (Hleaf : forall self par idx n,
            nodeAt r self = Some n -> linked par self idx ->
            landsIn r (mkFiltered (Some self) par idx)).
  { intros self par idx n Hn Hl. unfold landsIn. simpl. eauto. }
  assert (P : forall n : treeNode stats,
    (fun n => forall self par idx m f m',
       nodeAt r self = Some n -> linked par self idx ->
       Filter n self inst par idx m = Ok (f, m') -> landsIn r f) n).
  { apply (treeNode_mut stats
      (fun n => forall self par idx m f m',
         nodeAt r self = Some n -> linked par self idx ->
         Filter n self inst par idx m = Ok (f, m') -> landsIn r f)
      (fun cs => forall branch self m f m' c s cs0,
         nodeAt r self = Some (SplitNode c s cs0) ->
         getChild cs0 branch = getChild cs branch ->
         FilterChild cs branch self inst m = Ok (f, m') -> landsIn r f)).
    - intros leaf self par idx m f m' Hn Hl E. simpl in E. inversion E; subst. eauto.
    - intros c s cs IH self par idx m f m' Hn Hl E. simpl in E.
      destruct c as [c|]; [|discriminate].
      destruct (Branch c inst m) as [[branch m1]|]; [|discriminate].
      destruct (-1 <? branch).
      + eapply IH; eauto.
      + inversion E; subst. eauto.
    - intros branch self m f m' c s cs0 Hn Hg E. simpl in E. inversion E; subst.
      unfold landsIn. simpl. exists self, c, s, cs0. auto.
    - intros i n IHn rest IHrest branch self m f m' c s cs0 Hn Hg E. simpl in E, Hg.
      destruct (i =? branch) eqn:Ei.
      + eapply IHn; [| |exact E].
        * rewrite nodeAt_app, Hn. simpl. now rewrite Hg.
        * reflexivity.
      + eapply IHrest; eauto. }
  split; [exact P|].
  induction cs as [|i n rest IHrest]; intros branch self m f m' c s cs0 Hn Hg E;
    simpl in E, Hg.
  - inversion E; subst. unfold landsIn. simpl. exists self, c, s, cs0. auto.
  - destruct (i =? branch) eqn:Ei.
    + eapply P; [| |exact E].
      * rewrite nodeAt_app, Hn. simpl. now rewrite Hg.
      * reflexivity.
    + eapply IHrest; eauto.
Qed.

Lemma Filter_landsIn (r : treeNode stats) (inst : Instance) (m : Model.t)
    (f : filtered) (m' : Model.t) :
  Filter r [] inst None (-1) m = Ok (f, m') -> landsIn r f.
Proof.
  apply (proj1 (Filter_landsIn_both r inst) r [] None (-1) m f m'); reflexivity.
Qed.

(** *** The phases of [Train] *)

Lemma keeps_updateLeafAt (r : treeNode stats) (p : nodePtr)
    (g : leafNode stats -> leafNode stats) :
  (forall leaf, leafAt r p = Some leaf ->
     WeightOnLastEval leaf = WeightOnLastEval (g leaf)) ->
  keeps r (updateLeafAt r p g).
Proof. intros Hg. apply grows_updateLeafAt; auto. Qed.

Lemma pruneDeactivate_keeps (target : Z) (ls : list nodePtr) (i piv : nat)
    (r : treeNode stats) (byteSize : Z) :
  keeps r (fst (fst (pruneDeactivate target ls i piv r byteSize))).
Proof.
  revert i r byteSize. induction ls as [|p rest IH]; intros i r byteSize; simpl.
  - apply keeps_refl.
  - destruct (leafAt r p) as [leaf|]; [|apply IH].
    destruct (IsInactive leaf); [apply IH|].
    assert (K : keeps r (updateLeafAt r p leafDeactivate)).
    { apply keeps_updateLeafAt. reflexivity. }
    destruct (_ <=? target); [exact K|].
    eapply keeps_trans; [exact K|apply IH].
Qed.

Lemma pruneReactivate_keeps (ls : list nodePtr) (r : treeNode stats) (byteSize : Z) :
  keeps r (fst (pruneReactivate ls r byteSize)).
Proof.
  revert r byteSize. induction ls as [|p rest IH]; intros r byteSize; simpl.
  - apply keeps_refl.
  - destruct (leafAt r p) as [leaf|]; [|apply IH].
    destruct (IsInactive leaf); [|apply IH].
    eapply keeps_trans; [|apply IH].
    apply keeps_updateLeafAt. reflexivity.
Qed.

Lemma pruneTail_keeps (target : Z) (ls : list nodePtr) (r : treeNode stats)
    (byteSize : Z) :
  keeps r (fst (pruneTail target ls r byteSize)).
Proof.
  revert r byteSize. induction ls as [|p rest IH]; intros r byteSize; simpl.
  - apply keeps_refl.
  - destruct (leafAt r p) as [leaf|]; [|apply IH].
    assert (K : keeps r (updateLeafAt r p leafDeactivate)).
    { apply keeps_updateLeafAt. reflexivity. }
    destruct (_ <=? target); [exact K|].
    eapply keeps_trans; [exact K|apply IH].
Qed.

(** The pruning pass only switches leaves off and on: it keeps every
    leaf and its [WeightOnLastEval], and the configuration. *)
Lemma prune_keeps (t : Tree) :
  keeps (root t) (root (prune t)) /\ conf (prune t) = conf t.
Proof.
  unfold prune. destruct (_ <=? _); [split; [apply keeps_refl|reflexivity]|].
  set (sorted := Sort _ _).
  pose proof (pruneDeactivate_keeps (PruneMemTarget (conf t)) sorted 0 (length sorted)
                (root t) (nodeByteSize (root t))) as K1.
  destruct (pruneDeactivate _ sorted 0 _ _ _) as [[r1 size1] piv]. simpl in K1.
  pose proof (pruneReactivate_keeps (drop piv sorted) r1 size1) as K2.
  destruct (pruneReactivate _ r1 size1) as [r2 size2]. simpl in K2.
  pose proof (pruneTail_keeps (PruneMemTarget (conf t)) (drop piv sorted) r2 size2) as K3.
  destruct (pruneTail _ _ r2 size2) as [r3 size3]. simpl in *.
  split; [|reflexivity].
  eapply keeps_trans; [exact K1|]. eapply keeps_trans; [exact K2|exact K3].
Qed.

Lemma tick_prune_keeps (t : Tree) :
  keeps (root t) (root (tick prune t)) /\ conf (tick prune t) = conf t.
Proof.
  unfold tick. destruct (0 <? _); [|split; [apply keeps_refl|reflexivity]].
  destruct (_ =? 0); [|split; [apply keeps_refl|reflexivity]].
  apply (prune_keeps {| conf := conf t; root := root t; model := model t;
                        leaves := leaves t; cycles := wrap64 (cycles t + 1) |}).
Qed.

Lemma Learn_WeightOnLastEval (leaf : leafNode stats) (inst : Instance) (m : Model.t) :
  WeightOnLastEval (fst (Learn leaf inst m)) = WeightOnLastEval leaf.
Proof. unfold Learn. destruct (Update inst m (Stats leaf)). reflexivity. Qed.

(** What [land] hands to the evaluation: the tree [t2] right after the leaf
    has learnt keeps the leaves of the tree before the call, the landed leaf
    is at [ptr], and [ptr] is the child slot [parentIndex] of [parent]. *)
Lemma land_OnLeaf (pruneFn : Tree -> Tree) (t : Tree) (inst : Instance) (t3 : Tree)
    (ptr : nodePtr) (par : option nodePtr) (idx : Z) :
  land pruneFn t inst = Ok (OnLeaf t3 ptr par idx) ->
  exists t2 leaf,
    t3 = tick pruneFn t2 /\
    conf t2 = conf t /\ cycles t2 = cycles t /\ leaves t2 = leaves t /\
    keeps (root t) (root t2) /\
    leafAt (root t2) ptr = Some leaf /\
    linked par ptr idx.
Proof.
  unfold land. intros E.
  destruct (Filter (root t) [] inst None (-1) (model t)) as [[f m1]|] eqn:HF;
    [|discriminate E].
  apply Filter_landsIn in HF. unfold landsIn in HF.
  cbv beta iota delta [mbind result_bind Go.bind] in E.
  assert (Hcore : forall r1,
    keeps (root t) r1 ->
    forall ptr0,
    linked (parent f) ptr0 (parentIndex f) ->
    match nodeAt r1 ptr0 with
    | Some (LeafNode leaf) =>
        let '(leaf', m2) := Learn leaf inst m1 in
        Ok (OnLeaf (tick pruneFn
                      {| conf := conf t; root := updateLeafAt r1 ptr0 (fun _ => leaf');
                         model := m2; leaves := leaves t; cycles := cycles t |})
              ptr0 (parent f) (parentIndex f))
    | _ => Ok (OffLeaf {| conf := conf t; root := r1; model := m1;
                          leaves := leaves t; cycles := cycles t |})
    end = Ok (OnLeaf t3 ptr par idx) ->
    exists t2 leaf,
      t3 = tick pruneFn t2 /\
      conf t2 = conf t /\ cycles t2 = cycles t /\ leaves t2 = leaves t /\
      keeps (root t) (root t2) /\
      leafAt (root t2) ptr = Some leaf /\
      linked par ptr idx).
  { intros r1 K ptr0 Hl E0.
    destruct (nodeAt r1 ptr0) as [[leaf|c s cs]|] eqn:Hn; try discriminate E0.
    pose proof (Learn_WeightOnLastEval leaf inst m1) as HW.
    destruct (Learn leaf inst m1) as [leaf' m2]. simpl in HW.
    inversion E0; subst. eexists; exists leaf'. repeat split; simpl; try reflexivity.
    - eapply keeps_trans; [exact K|]. apply keeps_updateLeafAt.
      intros l Hl'. unfold leafAt in Hl'. rewrite Hn in Hl'. inversion Hl'; subst.
      now symmetry.
    - apply (leafAt_updateLeafAt_same _ _ _ leaf). unfold leafAt. now rewrite Hn.
    - exact Hl. }
  destruct (node f) as [ptr0|].
  - destruct HF as [Hl _]. exact (Hcore (root t) (keeps_refl _) ptr0 Hl E).
  - destruct HF as (pp & c & s & cs & Hp & Hn & Hg). rewrite Hp in E, Hcore.
    refine (Hcore _ _ (pp ++ [parentIndex f]) _ E); [|reflexivity].
    apply grows_setChildAt; [reflexivity|].
    intros ch Hch. rewrite nodeAt_app, Hn in Hch. simpl in Hch.
    rewrite Hg in Hch. discriminate Hch.
Qed.

Lemma land_OffLeaf (pruneFn : Tree -> Tree) (t : Tree) (inst : Instance) (t1 : Tree) :
  land pruneFn t inst = Ok (OffLeaf t1) ->
  keeps (root t) (root t1) /\ conf t1 = conf t /\ cycles t1 = cycles t /\
  leaves t1 = leaves t.
Proof.
  unfold land. intros E.
  destruct (Filter (root t) [] inst None (-1) (model t)) as [[f m1]|] eqn:HF;
    [|discriminate E].
  apply Filter_landsIn in HF. unfold landsIn in HF.
  cbv beta iota delta [mbind result_bind Go.bind] in E.
  destruct (node f) as [ptr0|].
  - destruct (nodeAt (root t) ptr0) as [[leaf|c s cs]|];
      try (destruct (Learn leaf inst m1)); inversion E; subst; simpl;
      repeat split; apply keeps_refl.
  - destruct HF as (pp & c & s & cs & Hp & Hn & Hg). rewrite Hp in E.
    assert (K : keeps (root t) (setChildAt (root t) pp (parentIndex f)
              (LeafNode (newLeafNode (NewObservationStats (Model.IsRegression m1)))))).
    { apply grows_setChildAt; [reflexivity|].
      intros ch Hch. rewrite nodeAt_app, Hn in Hch. simpl in Hch.
      rewrite Hg in Hch. discriminate Hch. }
    destruct (nodeAt _ (pp ++ [parentIndex f])) as [[leaf|c0 s0 cs0]|];
      try (destruct (Learn leaf inst m1)); inversion E; subst; simpl;
      repeat split; exact K.
Qed.

(** *** What the pruning pass changes, and when it stops *)

(** [toggled l l']: [l'] is the leaf [l] after calls of [Deactivate] and
    [Activate]. *)
Inductive toggled (l : leafNode stats) : leafNode stats -> Prop :=
| toggled_same : toggled l l
| toggled_off (l' : leafNode stats) : toggled l l' -> toggled l (leafDeactivate l')
| toggled_on (l' : leafNode stats) : toggled l l' -> toggled l (leafActivate l').

(** [switched r r']: [r'] is the tree [r] with some of its leaves switched
    off or on. Every split node is there with its condition, its statistics
    and its branches; every leaf is in its place, toggled. *)
Inductive switched : treeNode stats -> treeNode stats -> Prop :=
| switched_leaf (l l' : leafNode stats) :
    toggled l l' -> switched (LeafNode l) (LeafNode l')
| switched_split c s cs cs' :
    switchedIn cs cs' -> switched (SplitNode c s cs) (SplitNode c s cs')
with switchedIn : children stats -> children stats -> Prop :=
| switched_none : switchedIn NoChildren NoChildren
| switched_child i c c' rest rest' :
    switched c c' -> switchedIn rest rest' ->
    switchedIn (Child i c rest) (Child i c' rest').

Scheme switched_mut := Minimality for switched Sort Prop
  with switchedIn_mut := Minimality for switchedIn Sort Prop.

(** [off r p]: the leaf at [p], if there is one, is inactive. *)
Definition off (r : treeNode stats) (p : nodePtr) : Prop :=
  forall leaf, leafAt r p = Some leaf -> IsInactive leaf = true.

Lemma toggled_trans (a b c : leafNode stats) : toggled a b -> toggled b c -> toggled a c.
Proof. intros Hab Hbc. induction Hbc; [assumption|constructor 2|constructor 3]; auto. Qed.

Lemma switched_refl_both :
  (forall n : treeNode stats, switched n n) /\
  (forall cs : children stats, switchedIn cs cs).
Proof.
  assert (Hn : forall n : treeNode stats, switched n n).
  { apply (treeNode_mut stats (fun n => switched n n) (fun cs => switchedIn cs cs)).
    - intros leaf. constructor. constructor.
    - intros c s cs IH. now constructor.
    - constructor.
    - intros i n IHn rest IHrest. now constructor. }
  split; [exact Hn|].
  induction cs as [|i c rest IH]; constructor; auto.
Qed.

Lemma switched_refl (n : treeNode stats) : switched n n.
Proof. apply switched_refl_both. Qed.

Lemma switched_trans (a b c : treeNode stats) :
  switched a b -> switched b c -> switched a c.
Proof.
  intros Hab. revert c.
  apply (switched_mut (fun a b => forall c, switched b c -> switched a c)
                      (fun a b => forall c, switchedIn b c -> switchedIn a c));
    try exact Hab.
  - intros l l' Ht c Hc. inversion Hc; subst. constructor.
    eapply toggled_trans; eauto.
  - intros c0 s cs cs' Hin IH c Hc. inversion Hc; subst. constructor. now apply IH.
  - intros c Hc. exact Hc.
  - intros i d d' rest rest' Hd IHd Hrest IHrest c Hc.
    inversion Hc; subst. constructor; auto.
Qed.

Lemma switchedIn_setChild (cs : children stats) (i : Z) (c n : treeNode stats) :
  getChild cs i = Some c -> switched c n -> switchedIn cs (setChild cs i n).
Proof.
  induction cs as [|j d rest IH]; simpl; [discriminate|].
  destruct (j =? i).
  - intros E Hn. inversion E; subst. constructor; [exact Hn|apply switched_refl_both].
  - intros E Hn. constructor; [apply switched_refl|now apply IH].
Qed.

Lemma switched_updateLeafAt (r : treeNode stats) (p : nodePtr)
    (g : leafNode stats -> leafNode stats) :
  (forall l, toggled l (g l)) -> switched r (updateLeafAt r p g).
Proof.
  intros Hg. unfold updateLeafAt. revert r.
  induction p as [|i p IH]; intros r; simpl.
  - destruct r as [leaf|c s cs]; [constructor; apply Hg|apply switched_refl].
  - destruct r as [leaf|c s cs]; [apply switched_refl|].
    destruct (getChild cs i) as [ch|] eqn:Hch; [|apply switched_refl].
    constructor. apply (switchedIn_setChild cs i ch); [exact Hch|apply IH].
Qed.

Lemma switched_Deactivate (r : treeNode stats) (p : nodePtr) :
  switched r (updateLeafAt r p leafDeactivate).
Proof. apply switched_updateLeafAt. intros l. constructor 2. constructor. Qed.

Lemma switched_Activate (r : treeNode stats) (p : nodePtr) :
  switched r (updateLeafAt r p leafActivate).
Proof. apply switched_updateLeafAt. intros l. constructor 3. constructor. Qed.

Lemma pruneDeactivate_switched (target : Z) (ls : list nodePtr) (i piv : nat)
    (r : treeNode stats) (byteSize : Z) :
  switched r (fst (fst (pruneDeactivate target ls i piv r byteSize))).
Proof.
  revert i r byteSize. induction ls as [|p rest IH]; intros i r byteSize; simpl.
  - apply switched_refl.
  - destruct (leafAt r p) as [leaf|]; [|apply IH].
    destruct (IsInactive leaf); [apply IH|].
    destruct (_ <=? target); [apply switched_Deactivate|].
    eapply switched_trans; [apply switched_Deactivate|apply IH].
Qed.

Lemma pruneReactivate_switched (ls : list nodePtr) (r : treeNode stats) (byteSize : Z) :
  switched r (fst (pruneReactivate ls r byteSize)).
Proof.
  revert r byteSize. induction ls as [|p rest IH]; intros r byteSize; simpl.
  - apply switched_refl.
  - destruct (leafAt r p) as [leaf|]; [|apply IH].
    destruct (IsInactive leaf); [|apply IH].
    eapply switched_trans; [apply switched_Activate|apply IH].
Qed.

Lemma pruneTail_switched (target : Z) (ls : list nodePtr) (r : treeNode stats)
    (byteSize : Z) :
  switched r (fst (pruneTail target ls r byteSize)).
Proof.
  revert r byteSize. induction ls as [|p rest IH]; intros r byteSize; simpl.
  - apply switched_refl.
  - destruct (leafAt r p) as [leaf|]; [|apply IH].
    destruct (_ <=? target); [apply switched_Deactivate|].
    eapply switched_trans; [apply switched_Deactivate|apply IH].
Qed.

Lemma prune_switched (t : Tree) : switched (root t) (root (prune t)).
Proof.
  unfold prune. destruct (_ <=? _); [apply switched_refl|].
  set (sorted := Sort _ _).
  pose proof (pruneDeactivate_switched (PruneMemTarget (conf t)) sorted 0 (length sorted)
                (root t) (nodeByteSize (root t))) as K1.
  destruct (pruneDeactivate _ sorted 0 _ _ _) as [[r1 size1] piv]. simpl in K1.
  pose proof (pruneReactivate_switched (drop piv sorted) r1 size1) as K2.
  destruct (pruneReactivate _ r1 size1) as [r2 size2]. simpl in K2.
  pose proof (pruneTail_switched (PruneMemTarget (conf t)) (drop piv sorted) r2 size2) as K3.
  destruct (pruneTail _ _ r2 size2) as [r3 size3]. simpl in *.
  eapply switched_trans; [exact K1|]. eapply switched_trans; [exact K2|exact K3].
Qed.

(** A write through one pointer is not seen through another. *)
Lemma leafAt_updateLeafAt_other (r : treeNode stats) (p q : nodePtr)
    (g : leafNode stats -> leafNode stats) :
  p <> q -> leafAt (updateLeafAt r p g) q = leafAt r q.
Proof.
  unfold leafAt, updateLeafAt. revert r q.
  induction p as [|i p IH]; intros r q Hne.
  - destruct q as [|j q]; [congruence|].
    destruct r as [leaf|c s cs]; reflexivity.
  - destruct r as [leaf|c s cs]; [reflexivity|]. simpl.
    destruct (getChild cs i) as [ch|] eqn:Hch; [|reflexivity].
    destruct q as [|j q]; [reflexivity|]. simpl.
    rewrite getChild_setChild. destruct (i =? j) eqn:Hij; [|reflexivity].
    apply Z.eqb_eq in Hij. subst j. rewrite Hch. apply IH. congruence.
Qed.

Lemma leafAt_updateLeafAt_here (r : treeNode stats) (p : nodePtr)
    (g : leafNode stats -> leafNode stats) :
  leafAt (updateLeafAt r p g) p = g <$> leafAt r p.
Proof.
  unfold leafAt, updateLeafAt. rewrite nodeAt_updateAt_same.
  destruct (nodeAt r p) as [[l|c s cs]|]; reflexivity.
Qed.

Lemma off_Deactivate_here (r : treeNode stats) (p : nodePtr) :
  off (updateLeafAt r p leafDeactivate) p.
Proof.
  intros leaf. rewrite leafAt_updateLeafAt_here.
  destruct (leafAt r p) as [l|]; simpl; [|discriminate].
  intros E. inversion E. reflexivity.
Qed.

Lemma off_Deactivate (r : treeNode stats) (p q : nodePtr) :
  off r q -> off (updateLeafAt r p leafDeactivate) q.
Proof.
  intros Hq. destruct (decide (p = q)) as [->|Hne].
  - apply off_Deactivate_here.
  - intros leaf. rewrite leafAt_updateLeafAt_other by exact Hne. apply Hq.
Qed.

(** The first loop. Deactivation leaves no leaf active that was inactive;
    the loop either runs to the end, the pivot untouched and every leaf it
    has passed inactive, or stops at the first leaf that brings the estimate
    within the target, the leaves before it inactive. *)
Lemma pruneDeactivate_stops (target : Z) (ls : list nodePtr) (i piv : nat)
    (r : treeNode stats) (byteSize : Z) :
  (forall q, off r q -> off (fst (fst (pruneDeactivate target ls i piv r byteSize))) q) /\
  ((snd (pruneDeactivate target ls i piv r byteSize) = piv /\
    forall p, In p ls -> off (fst (fst (pruneDeactivate target ls i piv r byteSize))) p) \/
   (snd (fst (pruneDeactivate target ls i piv r byteSize)) <= target /\
    exists k, (k < length ls)%nat /\
      snd (pruneDeactivate target ls i piv r byteSize) = (i + k)%nat /\
      forall p, In p (take k ls) ->
        off (fst (fst (pruneDeactivate target ls i piv r byteSize))) p)).
Proof.
  revert i r byteSize. induction ls as [|p rest IH]; intros i r byteSize.
  - simpl. split; [auto|]. left. split; [reflexivity|]. intros p [].
  - assert (Hskip : off r p ->
      pruneDeactivate target (p :: rest) i piv r byteSize
      = pruneDeactivate target rest (S i) piv r byteSize ->
      (forall q, off r q ->
         off (fst (fst (pruneDeactivate target (p :: rest) i piv r byteSize))) q) /\
      ((snd (pruneDeactivate target (p :: rest) i piv r byteSize) = piv /\
        forall p0, In p0 (p :: rest) ->
          off (fst (fst (pruneDeactivate target (p :: rest) i piv r byteSize))) p0) \/
       (snd (fst (pruneDeactivate target (p :: rest) i piv r byteSize)) <= target /\
        exists k, (k < length (p :: rest))%nat /\
          snd (pruneDeactivate target (p :: rest) i piv r byteSize) = (i + k)%nat /\
          forall p0, In p0 (take k (p :: rest)) ->
            off (fst (fst (pruneDeactivate target (p :: rest) i piv r byteSize))) p0))).
    { intros Hp ->. destruct (IH (S i) r byteSize) as [Hmono Hcase].
      split; [exact Hmono|].
      destruct Hcase as [[Hpiv Hall]|(Hle & k & Hk & Hpiv & Hall)].
      - left. split; [exact Hpiv|]. intros p0 [<-|Hin]; auto.
      - right. split; [exact Hle|]. exists (S k). split; [simpl; lia|].
        split; [rewrite Hpiv; lia|]. intros p0 [<-|Hin]; auto. }
    simpl. simpl in Hskip.
    destruct (leafAt r p) as [leaf|] eqn:Hleaf.
    2:{ apply Hskip; [|reflexivity]. intros l Hl. congruence. }
    destruct (IsInactive leaf) eqn:Hin.
    { apply Hskip; [|reflexivity]. intros l Hl. congruence. }
    destruct (_ <=? target) eqn:Hle.
    + simpl. split; [intros q; apply off_Deactivate|].
      right. split; [now apply Z.leb_le|]. exists 0%nat.
      split; [simpl; lia|]. split; [lia|]. intros p0 [].
    + destruct (IH (S i) (updateLeafAt r p leafDeactivate)
                  (wrap64 (byteSize - leafByteSize leaf))) as [Hmono Hcase].
      split; [intros q Hq; apply Hmono, off_Deactivate, Hq|].
      destruct Hcase as [[Hpiv Hall]|(Hle' & k & Hk & Hpiv & Hall)].
      * left. split; [exact Hpiv|]. intros p0 [<-|Hin0]; auto.
        apply Hmono, off_Deactivate_here.
      * right. split; [exact Hle'|]. exists (S k). split; [simpl; lia|].
        split; [rewrite Hpiv; lia|]. intros p0 [<-|Hin0]; auto.
        apply Hmono, off_Deactivate_here.
Qed.

(** The second loop touches the leaves it is given and no other. *)
Lemma pruneReactivate_frame (ls : list nodePtr) (r : treeNode stats) (byteSize : Z)
    (q : nodePtr) :
  ~ In q ls -> leafAt (fst (pruneReactivate ls r byteSize)) q = leafAt r q.
Proof.
  revert r byteSize. induction ls as [|p rest IH]; intros r byteSize Hq; simpl.
  - reflexivity.
  - assert (Hne : p <> q) by (intros ->; apply Hq; now left).
    assert (Hrest : ~ In q rest) by (intros Hin; apply Hq; now right).
    destruct (leafAt r p) as [leaf|]; [|now apply IH].
    destruct (IsInactive leaf); [|now apply IH].
    rewrite IH by exact Hrest. now apply leafAt_updateLeafAt_other.
Qed.

(** The third loop touches the leaves it is given and no other, leaves no
    leaf active that was inactive, and runs until the estimate is within the
    target or every leaf it was given is inactive. *)
Lemma pruneTail_stops (target : Z) (ls : list nodePtr) (r : treeNode stats)
    (byteSize : Z) :
  (forall q, off r q -> off (fst (pruneTail target ls r byteSize)) q) /\
  (forall q, ~ In q ls -> leafAt (fst (pruneTail target ls r byteSize)) q = leafAt r q) /\
  (snd (pruneTail target ls r byteSize) <= target \/
   forall p, In p ls -> off (fst (pruneTail target ls r byteSize)) p).
Proof.
  revert r byteSize. induction ls as [|p rest IH]; intros r byteSize; simpl.
  - split; [auto|]. split; [auto|]. right. intros p [].
  - destruct (leafAt r p) as [leaf|] eqn:Hleaf.
    2:{ destruct (IH r byteSize) as (Hmono & Hframe & Hcase).
        split; [exact Hmono|]. split; [intros q Hq; apply Hframe; tauto|].
        destruct Hcase as [Hle|Hall]; [now left|right].
        intros p0 [<-|Hin]; auto. apply Hmono. intros l Hl. congruence. }
    destruct (_ <=? target) eqn:Hle; simpl.
    + split; [intros q; apply off_Deactivate|].
      split; [|left; now apply Z.leb_le].
      intros q Hq. apply leafAt_updateLeafAt_other. intros ->. apply Hq. now left.
    + destruct (IH (updateLeafAt r p leafDeactivate)
                  (wrap64 (byteSize - leafByteSize leaf))) as (Hmono & Hframe & Hcase).
      split; [intros q Hq; apply Hmono, off_Deactivate, Hq|].
      split.
      * intros q Hq. rewrite Hframe by tauto.
        apply leafAt_updateLeafAt_other. intros ->. apply Hq. now left.
      * destruct Hcase as [Hle'|Hall]; [now left|right].
        intros p0 [<-|Hin]; auto. apply Hmono, off_Deactivate_here.
Qed.

(** A pass that does not return at once collects and sorts the leaves, and
    stops with its estimate within the target or with no active leaf
    left. *)
Lemma prune_stops (t : Tree) :
  PruneMemTarget (conf t) < nodeByteSize (root t) ->
  Permutation (leaves (prune t)) (FindLeaves (root t) [] []) /\
  (pruneEstimate t <= PruneMemTarget (conf t) \/
   forall p, In p (leaves (prune t)) -> off (root (prune t)) p).
Proof.
  intros Hgt. unfold prune, pruneEstimate.
  assert (Hleb : (nodeByteSize (root t) <=? PruneMemTarget (conf t)) = false)
    by (apply Z.leb_gt; exact Hgt).
  rewrite Hleb. cbv zeta.
  pose proof (Sort_Permutation _ (leafLessAt (root t)) (FindLeaves (root t) [] [])) as Hperm.
  set (sorted := Sort _ _) in *.
  destruct (pruneDeactivate_stops (PruneMemTarget (conf t)) sorted 0 (length sorted)
              (root t) (nodeByteSize (root t))) as [_ Hfirst].
  destruct (pruneDeactivate _ sorted 0 _ _ _) as [[r1 size1] piv]. simpl in Hfirst.
  pose proof (pruneReactivate_frame (drop piv sorted) r1 size1) as Hsecond.
  destruct (pruneReactivate _ r1 size1) as [r2 size2]. simpl in Hsecond.
  destruct (pruneTail_stops (PruneMemTarget (conf t)) (drop piv sorted) r2 size2)
    as (_ & Hframe & Hthird).
  destruct (pruneTail _ _ r2 size2) as [r3 size3]. simpl in *.
  split; [exact Hperm|].
  destruct Hthird as [Hle|Htail]; [now left|right].
  assert (Hhead : forall p, In p (take piv sorted) -> off r1 p).
  { destruct Hfirst as [[-> Hall]|(_ & k & _ & -> & Hall)].
    - intros p Hp. apply Hall. rewrite <- (take_drop (length sorted) sorted).
      apply in_or_app. now left.
    - exact Hall. }
  intros p Hp. rewrite <- (take_drop piv sorted) in Hp.
  destruct (List.in_dec (fun a b : nodePtr => decide (a = b)) p (drop piv sorted))
    as [Hin|Hout].
  - now apply Htail.
  - apply in_app_or in Hp as [Hp|Hp]; [|contradiction].
    intros leaf. rewrite Hframe, Hsecond by exact Hout. now apply Hhead.
Qed.

(** [land] with another pruning pass differs in the pass only. *)
Lemma land_tick (pruneFn : Tree -> Tree) (t : Tree) (inst : Instance) (t3 : Tree)
    (ptr : nodePtr) (par : option nodePtr) (idx : Z) :
  land pruneFn t inst = Ok (OnLeaf t3 ptr par idx) ->
  exists t2,
    t3 = tick pruneFn t2 /\ conf t2 = conf t /\ cycles t2 = cycles t /\
    forall pruneFn', land pruneFn' t inst = Ok (OnLeaf (tick pruneFn' t2) ptr par idx).
Proof.
  unfold land. intros E.
  destruct (Filter (root t) [] inst None (-1) (model t)) as [[f m1]|]; [|discriminate E].
  cbv beta iota delta [mbind result_bind Go.bind] in *.
  destruct (match node f with
            | Some ptr0 => Ok (ptr0, root t)
            | None => _
            end) as [[ptr0 r1]|]; [|discriminate E].
  destruct (nodeAt r1 ptr0) as [[leaf|c s cs]|]; try discriminate E.
  destruct (Learn leaf inst m1) as [leaf' m2].
  inversion E; subst. eexists. split; [reflexivity|].
  split; [reflexivity|]. split; [reflexivity|]. intros pruneFn'. reflexivity.
Qed.

(** C3. The pruning pass and its schedule.
    - A pass that finds the estimated size within [PruneMemTarget] returns
      at once: the tree, its leaves and the leaf buffer are as they were.
    - A pass only switches leaves off and on. Every split node stays with
      its condition, statistics and branches, and every leaf stays in its
      place with its [WeightOnLastEval]; configuration, model and cycle
      counter are untouched.
    - A pass that does not return at once fills the leaf buffer with the
      leaves of the tree and stops when its running estimate (the size at
      entry, less the size of each leaf it deactivates, plus the size of
      each leaf it reactivates) is within [PruneMemTarget], or when no leaf
      of the tree is active any more.
    - With a positive [PrunePeriod], a training call that lands on a leaf
      counts one cycle, and runs the pass exactly when the new count is a
      multiple of [PrunePeriod].
    The size [root.ByteSize()] reports after a training call is bounded
    neither by [PruneMemTarget] nor by twice it. *)
Theorem prune_within_target (t : Tree) :
  (nodeByteSize (root t) <= PruneMemTarget (conf t) -> prune t = t) /\
  (switched (root t) (root (prune t)) /\
   conf (prune t) = conf t /\ model (prune t) = model t /\ cycles (prune t) = cycles t) /\
  (PruneMemTarget (conf t) < nodeByteSize (root t) ->
   Permutation (leaves (prune t)) (FindLeaves (root t) [] []) /\
   (pruneEstimate t <= PruneMemTarget (conf t) \/
    forall p, In p (leaves (prune t)) -> off (root (prune t)) p)) /\
  forall (inst : Instance) (t3 : Tree) (ptr : nodePtr) (par : option nodePtr) (idx : Z),
    0 < PrunePeriod (conf t) ->
    land prune t inst = Ok (OnLeaf t3 ptr par idx) ->
    exists t2,
      land (fun t0 => t0) t inst = Ok (OnLeaf t2 ptr par idx) /\
      cycles t2 = wrap64 (cycles t + 1) /\
      t3 = if Z.rem (wrap64 (cycles t + 1)) (PrunePeriod (conf t)) =? 0
           then prune t2 else t2.
Proof.
  split; [|split; [|split]].
  - intros Hle. unfold prune. apply Z.leb_le in Hle. now rewrite Hle.
  - split; [apply prune_switched|].
    unfold prune. destruct (_ <=? _); [repeat split|].
    destruct (pruneDeactivate _ _ 0 _ _ _) as [[r1 size1] piv].
    destruct (pruneReactivate _ r1 size1) as [r2 size2].
    destruct (pruneTail _ _ r2 size2) as [r3 size3]. repeat split.
  - apply prune_stops.
  - intros inst t3 ptr par idx Hperiod Hland.
    destruct (land_tick _ _ _ _ _ _ _ Hland) as (t2 & -> & Hconf & Hcycles & Hother).
    exists (tick (fun t0 => t0) t2). split; [apply Hother|].
    apply Z.ltb_lt in Hperiod.
    unfold tick. rewrite Hconf, Hcycles, Hperiod. simpl.
    split; [now destruct (_ =? 0)|].
    destruct (_ =? 0); reflexivity.
Qed.

(** Where [land] leaves the structure: as it was when the instance came
    down on a leaf of the tree, and with one leaf more, in the empty child
    slot, when it came down on none. *)
Lemma land_OnLeaf_shape (pruneFn : Tree -> Tree) (t : Tree) (inst : Instance)
    (t3 : Tree) (ptr : nodePtr) (par : option nodePtr) (idx : Z) :
  (forall t0, shapeOf (root (pruneFn t0)) = shapeOf (root t0)) ->
  land pruneFn t inst = Ok (OnLeaf t3 ptr par idx) ->
  match nodeAt (root t) ptr with
  | Some _ => shapeOf (root t3) = shapeOf (root t)
  | None =>
      exists pp regression,
        par = Some pp /\ ptr = pp ++ [idx] /\
        shapeOf (root t3)
        = shapeOf (setChildAt (root t) pp idx
                     (LeafNode (newLeafNode (NewObservationStats regression))))
  end.
Proof.
  intros Hprune. unfold land. intros E.
  destruct (Filter (root t) [] inst None (-1) (model t)) as [[f m1]|] eqn:HF;
    [|discriminate E].
  apply Filter_landsIn in HF. unfold landsIn in HF.
  cbv beta iota delta [mbind result_bind Go.bind] in E.
  destruct (node f) as [ptr0|].
  - destruct (nodeAt (root t) ptr0) as [[leaf|c s cs]|] eqn:Hn; try discriminate E.
    destruct (Learn leaf inst m1) as [leaf' m2]. inversion E; subst. rewrite Hn.
    rewrite tick_shape by exact Hprune. apply shapeOf_updateLeafAt.
  - destruct HF as (pp & c & s & cs & Hp & Hn & Hg). rewrite Hp in E.
    destruct (nodeAt _ (pp ++ [parentIndex f])) as [[leaf|c0 s0 cs0]|];
      try discriminate E.
    destruct (Learn leaf inst m1) as [leaf' m2]. inversion E; subst.
    rewrite nodeAt_app, Hn. simpl. rewrite Hg.
    exists pp, (Model.IsRegression m1). split; [reflexivity|]. split; [reflexivity|].
    rewrite tick_shape by exact Hprune. apply shapeOf_updateLeafAt.
Qed.

(** C4. Once the landed leaf has learnt the instance (and the periodic
    pruning pass has run), [Train] stands at a tree [t3] with the leaf at
    [ptr]. When [int (weight - WeightOnLastEval) < GracePeriod], the test
    the code makes, [Train] returns [t3] as it is: no split is attempted,
    and every leaf the tree had before the call still has its
    [WeightOnLastEval]. For a positive grace period the test holds whenever
    the leaf's total weight minus its [WeightOnLastEval] is below the grace
    period. The structure of [t3] is the structure before the call when
    the instance came down on a leaf of the tree; when it came down on an
    empty branch of a split node, [t3] has a fresh leaf in that branch,
    which the tree did not have before. *)
Theorem Train_within_grace_period (t : Tree) (inst : Instance) (t3 : Tree)
    (ptr : nodePtr) (par : option nodePtr) (idx : Z) :
  land prune t inst = Ok (OnLeaf t3 ptr par idx) ->
  exists leaf,
    leafAt (root t3) ptr = Some leaf /\
    (0 < GracePeriod (conf t) ->
     float_lt_int (TotalWeight (Stats leaf) - WeightOnLastEval leaf)
                  (GracePeriod (conf t)) ->
     (int_of_float64 (TotalWeight (Stats leaf) - WeightOnLastEval leaf)
        <? GracePeriod (conf t)) = true) /\
    ((int_of_float64 (TotalWeight (Stats leaf) - WeightOnLastEval leaf)
        <? GracePeriod (conf t)) = true ->
     Train t inst = Ok (None, t3) /\
     (forall q l, leafAt (root t) q = Some l ->
        exists l', leafAt (root t3) q = Some l' /\
                   WeightOnLastEval l' = WeightOnLastEval l) /\
     match nodeAt (root t) ptr with
     | Some _ => shapeOf (root t3) = shapeOf (root t)
     | None =>
         exists pp regression,
           par = Some pp /\ ptr = pp ++ [idx] /\
           shapeOf (root t3)
           = shapeOf (setChildAt (root t) pp idx
                        (LeafNode (newLeafNode (NewObservationStats regression))))
     end).
Proof.
  intros Hland.
  pose proof (land_OnLeaf_shape _ _ _ _ _ _ _ prune_shape Hland) as Hshape.
  destruct (land_OnLeaf _ _ _ _ _ _ _ Hland)
    as (t2 & leaf2 & -> & Hconf & _ & _ & K2 & Hleaf2 & _).
  destruct (tick_prune_keeps t2) as [K3 Hconf3].
  destruct (keeps_leafAt _ _ _ _ K3 Hleaf2) as (leaf & Hleaf & _).
  exists leaf. split; [exact Hleaf|]. split.
  - intros Hpos Hlt. apply Z.ltb_lt. now apply int_of_float64_lt.
  - intros Hlt. split; [|split; [|exact Hshape]].
    + unfold Train, TrainWith. rewrite Hland. simpl. unfold evaluate.
      rewrite Hleaf, Hconf3, Hconf. now rewrite Hlt.
    + intros q l Hl. apply (keeps_leafAt (root t)); [|exact Hl].
      eapply keeps_trans; eauto.
Qed.

(** *** [WeightOnLastEval] never decreases *)

Lemma attemptSplit_SplitNode (t : Tree) (leaf : leafNode stats) (weight : float)
    (trace trace' : option Trace.t) (sn : treeNode stats) :
  attemptSplit t leaf weight trace = Ok (Some sn, trace') ->
  exists c s cs, sn = SplitNode c s cs.
Proof.
  unfold attemptSplit.
  destruct (negb (IsSufficient (Stats leaf)) || IsInactive leaf); [discriminate|].
  destruct (BestSplits (conf t) (model t) leaf) as [|best others]; [discriminate|].
  destruct (match (if EnableTracing (conf t) then Some Trace.zero else trace) with
            | Some tr => _
            | None => _
            end) as [tr|]; cbv beta iota delta [mbind result_bind Go.bind];
    [|discriminate].
  destruct (_ <=? 0)%float; [discriminate|].
  destruct (_ || _); [|discriminate].
  intros E; inversion E. unfold newSplitNode. eauto.
Qed.

Lemma nodeAt_setChildAt_child (r : treeNode stats) (pp : nodePtr) (i : Z)
    (n : treeNode stats) c s cs :
  nodeAt r pp = Some (SplitNode c s cs) ->
  nodeAt (setChildAt r pp i n) (pp ++ [i]) = Some n.
Proof.
  intros Hn. unfold setChildAt. rewrite nodeAt_app, nodeAt_updateAt_same, Hn.
  simpl. now rewrite getChild_setChild, Z.eqb_refl.
Qed.

(** The evaluation of the landed leaf: the tree advances, and the leaf,
    unless it was promoted, ends with the larger of its former
    [WeightOnLastEval] and its total weight. *)
Lemma evaluate_advances (t : Tree) (ptr : nodePtr) (par : option nodePtr) (idx : Z)
    (trace : option Trace.t) (t' : Tree) (leaf : leafNode stats) :
  linked par ptr idx ->
  leafAt (root t) ptr = Some leaf ->
  evaluate t ptr par idx = Ok (trace, t') ->
  advances (root t) (root t') /\
  ((int_of_float64 (TotalWeight (Stats leaf) - WeightOnLastEval leaf)
      <? GracePeriod (conf t)) = false ->
   (exists c s cs, nodeAt (root t') ptr = Some (SplitNode c s cs)) \/
   (exists leaf', leafAt (root t') ptr = Some leaf' /\
      WeightOnLastEval leaf' =
        if (WeightOnLastEval leaf <? TotalWeight (Stats leaf))%float
        then TotalWeight (Stats leaf) else WeightOnLastEval leaf)).
Proof.
  intros Hlink Hleaf. unfold evaluate. rewrite Hleaf.
  destruct (_ <? GracePeriod (conf t)) eqn:Hgrace.
  { intros E; inversion E; subst. split; [apply advances_refl|discriminate]. }
  destruct (attemptSplit t leaf (TotalWeight (Stats leaf)) None)
    as [[split tr]|] eqn:Hatt; [|discriminate].
  cbv beta iota delta [mbind result_bind Go.bind].
  intros E; inversion E; subst trace t'; clear E. simpl root.
  assert (Hnode : nodeAt (root t) ptr = Some (LeafNode leaf)).
  { unfold leafAt in Hleaf. destruct (nodeAt (root t) ptr) as [[l|c s cs]|];
      inversion Hleaf; reflexivity. }
  destruct split as [sn|].
  - (* promoted *)
    destruct (attemptSplit_SplitNode _ _ _ _ _ _ Hatt) as (c & s & cs & ->).
    assert (Hat : nodeAt match par with
                         | Some pp => setChildAt (root t) pp idx (SplitNode c s cs)
                         | None => SplitNode c s cs
                         end ptr = Some (SplitNode c s cs)).
    { destruct par as [pp|]; simpl in Hlink; subst ptr; [|reflexivity].
      rewrite nodeAt_app in Hnode.
      destruct (nodeAt (root t) pp) as [[l|c0 s0 cs0]|] eqn:Hpp; try discriminate.
      eapply nodeAt_setChildAt_child; eauto. }
    assert (Hadv : advances (root t) match par with
                         | Some pp => setChildAt (root t) pp idx (SplitNode c s cs)
                         | None => SplitNode c s cs
                         end).
    { destruct par as [pp|]; simpl in Hlink; subst ptr.
      - apply grows_setChildAt; [exact noless_refl|].
        intros ch Hch. rewrite Hnode in Hch. inversion Hch; subst.
        now constructor.
      - simpl in Hnode. inversion Hnode as [Hr]. rewrite Hr.
        unfold advances. now constructor. }
    set (r1 := match par with
               | Some pp => setChildAt (root t) pp idx (SplitNode c s cs)
               | None => SplitNode c s cs
               end) in *.
    assert (Hadv2 : forall g, advances r1 (updateLeafAt r1 ptr g)).
    { intros g. apply grows_updateLeafAt; [exact noless_refl|].
      intros l Hl. unfold leafAt in Hl. rewrite Hat in Hl. discriminate Hl. }
    assert (Hat2 : forall g, nodeAt (updateLeafAt r1 ptr g) ptr = Some (SplitNode c s cs)).
    { intros g. unfold updateLeafAt. rewrite nodeAt_updateAt_same, Hat. reflexivity. }
    split.
    + destruct (_ <? _)%float; [|exact Hadv].
      eapply advances_trans; [exact Hadv|apply Hadv2].
    + intros _. left. exists c, s, cs.
      destruct (_ <? _)%float; [apply Hat2|exact Hat].
  - (* no split *)
    destruct (WeightOnLastEval leaf <? TotalWeight (Stats leaf))%float eqn:Hlt.
    + split.
      * apply grows_updateLeafAt; [exact noless_refl|].
        intros l Hl. rewrite Hleaf in Hl. inversion Hl; subst. simpl. now right.
      * intros _. right. eexists. split.
        -- apply leafAt_updateLeafAt_same. exact Hleaf.
        -- reflexivity.
    + split; [apply advances_refl|].
      intros _. right. exists leaf. split; [exact Hleaf|reflexivity].
Qed.

(** One call of [Train] advances the tree. *)
Lemma Train_advances (t : Tree) (inst : Instance) (trace : option Trace.t) (t' : Tree) :
  Train t inst = Ok (trace, t') -> advances (root t) (root t').
Proof.
  unfold Train, TrainWith.
  destruct (land prune t inst) as [[t1|t3 ptr par idx]|] eqn:Hland; simpl;
    [| |discriminate].
  - intros E; inversion E; subst.
    apply keeps_advances. now apply land_OffLeaf in Hland.
  - intros E.
    destruct (land_OnLeaf _ _ _ _ _ _ _ Hland)
      as (t2 & leaf2 & -> & _ & _ & _ & K2 & Hleaf2 & Hlink).
    destruct (tick_prune_keeps t2) as [K3 _].
    destruct (keeps_leafAt _ _ _ _ K3 Hleaf2) as (leaf & Hleaf & _).
    destruct (evaluate_advances _ _ _ _ _ _ _ Hlink Hleaf E) as [A _].
    eapply advances_trans; [|exact A].
    apply keeps_advances. eapply keeps_trans; eauto.
Qed.

(** A run of training calls. *)
Fixpoint TrainAll (t : Tree) (insts : list Instance) : result Tree :=
  match insts with
  | [] => Ok t
  | inst :: rest =>
      match Train t inst with
      | Ok (_, t') => TrainAll t' rest
      | Panic why => Panic why
      end
  end.

Lemma TrainAll_advances (insts : list Instance) (t t' : Tree) :
  TrainAll t insts = Ok t' -> advances (root t) (root t').
Proof.
  revert t. induction insts as [|inst rest IH]; intros t; simpl.
  - intros E; inversion E. apply advances_refl.
  - destruct (Train t inst) as [[trace t1]|] eqn:HT; [|discriminate].
    intros E. eapply advances_trans; [eapply Train_advances; eauto|now apply IH].
Qed.

(** C5. Over any run of [Train] calls, a leaf of the tree either is still
    a leaf at its place, with a [WeightOnLastEval] that is the former one or
    a larger number, or has been promoted to a split node. And a call whose
    landed leaf passes the grace-period check leaves that leaf, unless it
    promotes it, with the larger of its former [WeightOnLastEval] and its
    total weight. *)
Theorem WeightOnLastEval_monotone :
  (forall (insts : list Instance) (t t' : Tree),
     TrainAll t insts = Ok t' ->
     forall q leaf, leafAt (root t) q = Some leaf ->
       (exists leaf', leafAt (root t') q = Some leaf' /\
          noless (WeightOnLastEval leaf) (WeightOnLastEval leaf')) \/
       (exists c s cs, nodeAt (root t') q = Some (SplitNode c s cs))) /\
  (forall (t : Tree) (inst : Instance) (t3 : Tree) ptr par idx leaf trace t',
     land prune t inst = Ok (OnLeaf t3 ptr par idx) ->
     leafAt (root t3) ptr = Some leaf ->
     (int_of_float64 (TotalWeight (Stats leaf) - WeightOnLastEval leaf)
        <? GracePeriod (conf t3)) = false ->
     Train t inst = Ok (trace, t') ->
     (exists c s cs, nodeAt (root t') ptr = Some (SplitNode c s cs)) \/
     (exists leaf', leafAt (root t') ptr = Some leaf' /\
        WeightOnLastEval leaf' =
          if (WeightOnLastEval leaf <? TotalWeight (Stats leaf))%float
          then TotalWeight (Stats leaf) else WeightOnLastEval leaf)).
Proof.
  split.
  - intros insts t t' HT q leaf Hleaf.
    eapply advances_leafAt; [eapply TrainAll_advances|]; eauto.
  - intros t inst t3 ptr par idx leaf trace t' Hland Hleaf Hgrace HT.
    unfold Train, TrainWith in HT. rewrite Hland in HT. simpl in HT.
    destruct (land_OnLeaf _ _ _ _ _ _ _ Hland)
      as (t2 & leaf2 & -> & _ & _ & _ & _ & _ & Hlink).
    destruct (evaluate_advances _ _ _ _ _ _ _ Hlink Hleaf HT) as [_ Hmax].
    now apply Hmax.
Qed.

(** *** Training without pruning *)

(** A tree is well formed for a model when every split node carries a
    condition whose attribute pointer resolves in the model. *)
Definition resolves (m : Model.t) (c : option SplitCondition) : Prop :=
  exists cnd name,
    c = Some cnd /\ conditionAttribute cnd = Some name /\
    is_Some (Model.Predictor m name).

Fixpoint wellFormed (m : Model.t) (n : treeNode stats) : Prop :=
  match n with
  | LeafNode _ => True
  | SplitNode c _ cs => resolves m c /\ wellFormedIn m cs
  end
with wellFormedIn (m : Model.t) (cs : children stats) : Prop :=
  match cs with
  | NoChildren => True
  | Child _ c rest => wellFormed m c /\ wellFormedIn m rest
  end.

Definition covers (m m' : Model.t) : Prop :=
  forall name, is_Some (Model.Predictor m name) -> is_Some (Model.Predictor m' name).

Lemma resolves_covers (m m' : Model.t) (c : option SplitCondition) :
  covers m m' -> resolves m c -> resolves m' c.
Proof. intros Hc (cnd & name & E1 & E2 & Hs). exists cnd, name. auto. Qed.

Lemma wellFormed_covers (m m' : Model.t) :
  covers m m' ->
  (forall n, wellFormed m n -> wellFormed m' n) /\
  (forall cs, wellFormedIn m cs -> wellFormedIn m' cs).
Proof.
  intros Hc.
  assert (P : forall n, wellFormed m n -> wellFormed m' n).
  { apply (treeNode_mut stats (fun n => wellFormed m n -> wellFormed m' n)
             (fun cs => wellFormedIn m cs -> wellFormedIn m' cs)); simpl; auto.
    - intros c s cs IH [Hr Hcs]. split; [eapply resolves_covers; eauto|auto].
    - intros i n IHn rest IHrest [Hn Hrest]. auto. }
  split; [exact P|].
  induction cs as [|i n rest IH]; simpl; [auto|].
  intros [Hn Hrest]. auto.
Qed.

Lemma Branch_returns (c : SplitCondition) (inst : Instance) (m : Model.t) :
  resolves m (Some c) ->
  exists b m', Branch c inst m = Ok (b, m') /\ covers m m'.
Proof.
  intros (cnd & name & E & Hptr & [a Ha]). inversion E; subst cnd.
  assert (Hcov : forall a', covers m (Model.store m name a')).
  { intros a' n [x Hx]. unfold Model.Predictor, Model.store in *. simpl.
    destruct (decide (name = n)) as [->|Hne].
    - rewrite lookup_insert_eq. eauto.
    - rewrite lookup_insert_ne by assumption. eauto. }
  destruct c as [ptr|ptr threshold]; simpl in Hptr; subst ptr;
    unfold Branch, deref; rewrite Ha; simpl;
    destruct (Attribute.Value a inst) as [v a'].
  - eauto.
  - destruct (AttributeValue.IsMissing v); [eauto|].
    destruct (_ <? _)%float; eauto.
Qed.

Lemma Filter_returns_both (inst : Instance) :
  (forall n self par idx m, wellFormed m n -> returns (Filter n self inst par idx m)) /\
  (forall cs branch self m, wellFormedIn m cs ->
     returns (FilterChild cs branch self inst m)).
Proof.
  assert (P : forall n self par idx m,
            wellFormed m n -> returns (Filter n self inst par idx m)).
  { apply (treeNode_mut stats
      (fun n => forall self par idx m,
         wellFormed m n -> returns (Filter n self inst par idx m))
      (fun cs => forall branch self m,
         wellFormedIn m cs -> returns (FilterChild cs branch self inst m))).
    - intros leaf self par idx m _. simpl. eexists; reflexivity.
    - intros c s cs IH self par idx m [Hr Hcs]. simpl.
      destruct Hr as (cnd & name & -> & Hptr & Hs).
      destruct (Branch_returns cnd inst m) as (b & m' & -> & Hcov).
      { exists cnd, name. auto. }
      destruct (-1 <? b); [|eexists; reflexivity].
      apply IH. now apply (wellFormed_covers m m').
    - intros branch self m _. simpl. eexists; reflexivity.
    - intros i n IHn rest IHrest branch self m [Hn Hrest]. simpl.
      destruct (i =? branch); auto. }
  split; [exact P|].
  induction cs as [|i n rest IH]; intros branch self m; simpl.
  - intros _. eexists; reflexivity.
  - intros [Hn Hrest]. destruct (i =? branch); auto.
Qed.

Lemma tick_disabled (pruneFn : Tree -> Tree) (t : Tree) :
  PrunePeriod (conf t) = 0 -> tick pruneFn t = t.
Proof. intros E. unfold tick. now rewrite E. Qed.

Lemma land_disabled (pruneFn : Tree -> Tree) (t : Tree) (inst : Instance) :
  PrunePeriod (conf t) = 0 -> land pruneFn t inst = land prune t inst.
Proof.
  intros E. unfold land.
  destruct (Filter (root t) [] inst None (-1) (model t)) as [[f m1]|]; [|reflexivity].
  cbv beta iota delta [mbind result_bind Go.bind].
  destruct (match node f with
            | Some ptr => Ok (ptr, root t)
            | None => _
            end) as [[ptr r1]|]; [|reflexivity].
  destruct (nodeAt r1 ptr) as [[leaf|c s cs]|]; try reflexivity.
  destruct (Learn leaf inst m1) as [leaf' m2].
  now rewrite !tick_disabled by exact E.
Qed.

Lemma land_returns (pruneFn : Tree -> Tree) (t : Tree) (inst : Instance) :
  wellFormed (model t) (root t) -> returns (land pruneFn t inst).
Proof.
  intros Hwf. unfold land.
  destruct (proj1 (Filter_returns_both inst) (root t) [] None (-1) (model t) Hwf)
    as [[f m1] HF].
  rewrite HF. apply Filter_landsIn in HF. unfold landsIn in HF.
  cbv beta iota delta [mbind result_bind Go.bind].
  destruct (node f) as [ptr|].
  - destruct (nodeAt (root t) ptr) as [[leaf|c s cs]|];
      try (destruct (Learn leaf inst m1)); eexists; reflexivity.
  - destruct HF as (pp & c & s & cs & -> & _).
    destruct (nodeAt _ _) as [[leaf|c0 s0 cs0]|];
      try (destruct (Learn leaf inst m1)); eexists; reflexivity.
Qed.

Lemma attemptSplit_returns (t : Tree) (leaf : leafNode stats) (weight : float)
    (trace : option Trace.t) :
  BestSplits (conf t) (model t) leaf <> [] ->
  returns (possibleSplits (model t) (BestSplits (conf t) (model t) leaf)) ->
  returns (attemptSplit t leaf weight trace).
Proof.
  intros Hne [possible Hp]. unfold attemptSplit.
  destruct (negb (IsSufficient (Stats leaf)) || IsInactive leaf);
    [eexists; reflexivity|].
  destruct (BestSplits (conf t) (model t) leaf) as [|best others]; [congruence|].
  rewrite Hp.
  destruct (if EnableTracing (conf t) then Some Trace.zero else trace);
    cbv beta iota delta [mbind result_bind Go.bind];
    destruct (_ <=? 0)%float; try (eexists; reflexivity);
    destruct (_ || _); eexists; reflexivity.
Qed.

(** C6. With [PrunePeriod = 0], on a well-formed tree whose leaves always
    get at least one suggestion, with conditions that name predictors of
    the model: [Train] returns (it does not panic), and the call is the same
    whatever the pruning pass would do, so the pass is not run; the cycle
    counter and the scratch buffer of leaves stay as they were. *)
Theorem Train_without_pruning (t : Tree) (inst : Instance) :
  PrunePeriod (conf t) = 0 ->
  wellFormed (model t) (root t) ->
  (forall c m leaf, BestSplits c m leaf <> []) ->
  (forall c m leaf, returns (possibleSplits m (BestSplits c m leaf))) ->
  (exists trace t', Train t inst = Ok (trace, t') /\
                    cycles t' = cycles t /\ leaves t' = leaves t) /\
  forall pruneFn, TrainWith pruneFn t inst = Train t inst.
Proof.
  intros Hoff Hwf Hbest Hposs. split.
  - unfold Train, TrainWith.
    destruct (land_returns prune t inst Hwf) as [l Hland]. rewrite Hland.
    cbv beta iota delta [mbind result_bind Go.bind].
    destruct l as [t1|t3 ptr par idx].
    + apply land_OffLeaf in Hland as (_ & _ & Hc & Hl). eauto.
    + destruct (land_OnLeaf _ _ _ _ _ _ _ Hland)
        as (t2 & leaf & -> & Hconf & Hc & Hl & _ & Hleaf & _).
      rewrite tick_disabled by (now rewrite Hconf).
      unfold evaluate. rewrite Hleaf.
      destruct (_ <? GracePeriod (conf t2)); [eauto|].
      destruct (attemptSplit_returns t2 leaf (TotalWeight (Stats leaf)) None
                  (Hbest _ _ _) (Hposs _ _ _)) as [[split trace] ->].
      cbv beta iota delta [mbind result_bind Go.bind].
      eexists; eexists. split; [reflexivity|]. simpl. auto.
  - intros pruneFn. unfold Train, TrainWith.
    now rewrite (land_disabled pruneFn t inst Hoff).
Qed.

(** *** Prediction *)









(** *** How a split attempt ends *)

(** A suggestion can be traced when its condition, if it has one, can name
    its predictor. *)
Definition traceable (m : Model.t) (s : option (SplitSuggestion stats)) : Prop :=
  match Condition s with
  | Some c => returns (Predictor c m)
  | None => True
  end.

Lemma Predictor_panics (c : SplitCondition) (m : Model.t) (why : panic) :
  Predictor c m = Panic why -> why = NilDereference.
Proof.
  unfold Predictor, deref.
  destruct (conditionAttribute c) as [name|]; [|now intros E; inversion E].
  destruct (Model.Predictor m name); [discriminate|now intros E; inversion E].
Qed.

Lemma possibleSplits_outcome (m : Model.t) (splits : SplitSuggestions stats) :
  match possibleSplits m splits with
  | Ok _ => Forall (traceable m) splits
  | Panic why => why = NilDereference /\ ~ Forall (traceable m) splits
  end.
Proof.
  induction splits as [|s rest IH]; simpl; [constructor|].
  assert (Htail : forall why, possibleSplits m rest = Panic why ->
            why = NilDereference /\ ~ Forall (traceable m) (s :: rest)).
  { intros why E. rewrite E in IH. destruct IH as [-> Hrest]. split; [reflexivity|].
    intros Hall. apply Hrest. now inversion Hall. }
  destruct (Condition s) as [c|] eqn:Hc.
  - destruct (Predictor c m) as [name|why] eqn:Hp;
      cbv beta iota delta [mbind result_bind Go.bind].
    + destruct (possibleSplits m rest) as [more|why'] eqn:Hrest; [|now apply Htail].
      constructor; [|exact IH]. unfold traceable. rewrite Hc. eexists; eauto.
    + split; [now apply (Predictor_panics c m)|].
      intros Hall. inversion Hall as [|? ? Hhead ?]; subst.
      unfold traceable in Hhead. rewrite Hc in Hhead. destruct Hhead as [name Hname].
      congruence.
  - destruct (possibleSplits m rest) as [more|why'] eqn:Hrest; [|now apply Htail].
    constructor; [|exact IH]. unfold traceable. now rewrite Hc.
Qed.

(** X14. How [attemptSplit] ends, in full. It returns when the leaf is not due
    (insufficient statistics, or inactive), and otherwise when there is at
    least one suggestion and either no trace is being recorded or every
    suggestion can be traced. It panics with an index out of range exactly
    when the leaf is due and there is no suggestion ([splits[0]]), and on a
    nil attribute exactly when a trace is being recorded and some suggestion
    cannot name its predictor; it never panics otherwise. *)
Theorem attemptSplit_outcome (t : Tree) (leaf : leafNode stats) (weight : float)
    (trace : option Trace.t) :
  let splits := BestSplits (conf t) (model t) leaf in
  let recording := EnableTracing (conf t) = true \/ trace <> None in
  match attemptSplit t leaf weight trace with
  | Ok _ =>
      IsSufficient (Stats leaf) = false \/ IsInactive leaf = true \/
      (splits <> [] /\ (~ recording \/ Forall (traceable (model t)) splits))
  | Panic why =>
      IsSufficient (Stats leaf) = true /\ IsInactive leaf = false /\
      match why with
      | IndexOutOfRange => splits = []
      | NilDereference =>
          splits <> [] /\ recording /\ ~ Forall (traceable (model t)) splits
      | DivideByZero | NilMapWrite => False
      end
  end.
Proof.
  intros splits recording. unfold attemptSplit. fold splits.
  destruct (IsSufficient (Stats leaf)) eqn:Hsuff; [|now left].
  destruct (IsInactive leaf) eqn:Hact; [right; now left|]. simpl orb. cbv iota.
  destruct splits as [|best others] eqn:Hsplits; [now repeat split|].
  assert (Hne : best :: others <> []) by discriminate.
  pose proof (possibleSplits_outcome (model t) (best :: others)) as Hposs.
  destruct (if EnableTracing (conf t) then Some Trace.zero else trace) as [tr|] eqn:Htr.
  - assert (Hrec : recording).
    { unfold recording. destruct (EnableTracing (conf t)); [now left|].
      right. congruence. }
    destruct (possibleSplits (model t) (best :: others)) as [possible|why];
      cbv beta iota delta [mbind result_bind Go.bind].
    + destruct (_ <=? 0)%float; [|destruct (_ || _)]; right; right; split; auto.
    + destruct Hposs as [-> Hnot]. now repeat split.
  - assert (Hrec : ~ recording).
    { unfold recording. destruct (EnableTracing (conf t)); [discriminate|].
      intros [Hx|Hx]; [discriminate|]. now apply Hx. }
    cbv beta iota delta [mbind result_bind Go.bind].
    destruct (_ <=? 0)%float; [|destruct (_ || _)]; right; right; split; auto.
Qed.

(** X15. A merit gain that is not a number passes the guard [meritGain <= 0]
    and fails [meritGain > hbound]: the leaf is then split exactly when the
    Hoeffding bound is below the tie threshold. *)
Theorem attemptSplit_NaN_gain (t : Tree) (leaf : leafNode stats) (weight : float)
    (trace : option Trace.t) (best : option (SplitSuggestion stats))
    (others : SplitSuggestions stats) :
  IsSufficient (Stats leaf) = true ->
  IsInactive leaf = false ->
  BestSplits (conf t) (model t) leaf = best :: others ->
  returns (possibleSplits (model t) (best :: others)) ->
  is_nan (meritGainOf (best :: others)) = true ->
  attemptSplit t leaf weight trace
  = Ok (if (hoeffdingBound (conf t) (Range best) weight <? TieThreshold (conf t))%float
        then Some (newSplitNode (Condition best) (PreStats best) (PostStats best))
        else None,
        None).
Proof.
  intros Hsuff Hact Hbest [possible Hposs] Hnan.
  unfold attemptSplit. rewrite Hsuff, Hact, Hbest. simpl orb. cbv iota.
  rewrite Hposs, (leb_nan _ 0 (or_introl Hnan)), (ltb_nan _ _ (or_intror Hnan)).
  simpl orb.
  destruct (if EnableTracing (conf t) then Some Trace.zero else trace);
    cbv beta iota delta [mbind result_bind Go.bind];
    destruct (_ <? _)%float; reflexivity.
Qed.

(** *** Instances that do not reach a leaf *)

(** X16. When the descent stops at a split node (the instance has no usable
    value for the split attribute), [Train] learns nothing: no statistics
    change, no cycle is counted, no trace is returned; only the model may
    have registered values met on the way down. [Predict] answers from the
    statistics the split node kept, and panics if it kept none. *)
Theorem Train_off_leaf (t : Tree) (inst : Instance) (f : filtered) (m1 : Model.t)
    (ptr : nodePtr) (c : option SplitCondition) (s : option stats) (cs : children stats) :
  Filter (root t) [] inst None (-1) (model t) = Ok (f, m1) ->
  node f = Some ptr ->
  nodeAt (root t) ptr = Some (SplitNode c s cs) ->
  let t1 := {| conf := conf t; root := root t; model := m1;
               leaves := leaves t; cycles := cycles t |} in
  Train t inst = Ok (None, t1) /\
  Predict t inst = match nodePredict (SplitNode c s cs) with
                   | Ok votes => Ok (votes, t1)
                   | Panic why => Panic why
                   end.
Proof.
  intros HF Hnode Hsplit t1. split.
  - unfold Train, TrainWith, land. rewrite HF.
    cbv beta iota delta [mbind result_bind Go.bind]. rewrite Hnode, Hsplit. reflexivity.
  - unfold Predict. rewrite HF.
    cbv beta iota delta [mbind result_bind Go.bind]. rewrite Hnode, Hsplit.
    destruct s; reflexivity.
Qed.

(** X17. When the descent finds no child under the branch the instance takes,
    [Predict] answers from the statistics of the split node above, and
    [Train] puts a node into the empty slot: once it has returned, the slot
    holds the new leaf, or the split node the leaf was promoted to in the
    same call. *)
Theorem Train_fills_slot (t : Tree) (inst : Instance) (f : filtered) (m1 : Model.t) :
  Filter (root t) [] inst None (-1) (model t) = Ok (f, m1) ->
  node f = None ->
  exists pp c s cs,
    parent f = Some pp /\
    nodeAt (root t) pp = Some (SplitNode c s cs) /\
    getChild cs (parentIndex f) = None /\
    Predict t inst = match nodePredict (SplitNode c s cs) with
                     | Ok votes => Ok (votes, {| conf := conf t; root := root t;
                                                 model := m1; leaves := leaves t;
                                                 cycles := cycles t |})
                     | Panic why => Panic why
                     end /\
    forall trace t', Train t inst = Ok (trace, t') ->
      exists n, nodeAt (root t') (pp ++ [parentIndex f]) = Some n.
Proof.
  intros HF Hnode. pose proof (Filter_landsIn _ _ _ _ _ HF) as Hlands.
  unfold landsIn in Hlands. rewrite Hnode in Hlands.
  destruct Hlands as (pp & c & s & cs & Hparent & Hsplit & Hchild).
  exists pp, c, s, cs. split; [exact Hparent|]. split; [exact Hsplit|].
  split; [exact Hchild|]. split.
  - unfold Predict. rewrite HF.
    cbv beta iota delta [mbind result_bind Go.bind]. rewrite Hnode, Hparent, Hsplit.
    destruct s; reflexivity.
  - intros trace t' HT. unfold Train, TrainWith in HT.
    destruct (land prune t inst) as [[t0|t3 ptr par idx]|] eqn:Hland; [| |discriminate HT];
      cbv beta iota delta [mbind result_bind Go.bind] in HT.
    + exfalso. unfold land in Hland. rewrite HF in Hland.
      cbv beta iota delta [mbind result_bind Go.bind] in Hland.
      rewrite Hnode, Hparent in Hland.
      rewrite (nodeAt_setChildAt_child _ _ _ _ _ _ _ Hsplit) in Hland.
      destruct (Learn _ inst m1). discriminate Hland.
    + assert (Hptr : ptr = pp ++ [parentIndex f]).
      { unfold land in Hland. rewrite HF in Hland.
        cbv beta iota delta [mbind result_bind Go.bind] in Hland.
        rewrite Hnode, Hparent in Hland.
        rewrite (nodeAt_setChildAt_child _ _ _ _ _ _ _ Hsplit) in Hland.
        destruct (Learn _ inst m1). now inversion Hland. }
      destruct (land_OnLeaf _ _ _ _ _ _ _ Hland)
        as (t2 & leaf2 & -> & _ & _ & _ & _ & Hleaf2 & Hlink).
      destruct (tick_prune_keeps t2) as [K3 _].
      destruct (keeps_leafAt _ _ _ _ K3 Hleaf2) as (leaf & Hleaf & _).
      destruct (evaluate_advances _ _ _ _ _ _ _ Hlink Hleaf HT) as [A _].
      rewrite <- Hptr.
      destruct (advances_leafAt _ _ _ _ A Hleaf) as [(leaf' & Hleaf' & _)|(c' & s' & cs' & Hn)];
        [|eauto].
      unfold leafAt in Hleaf'. destruct (nodeAt (root t') ptr); [eauto|discriminate].
Qed.

(** X18. Training never removes a node and never rewires a split: over any run
    of [Train] calls, a node of the tree is still there afterwards, and a
    split node is still a split node on the same condition. *)
Theorem TrainAll_never_removes (insts : list Instance) (t t' : Tree) (p : nodePtr)
    (n : treeNode stats) :
  TrainAll t insts = Ok t' ->
  nodeAt (root t) p = Some n ->
  exists n',
    nodeAt (root t') p = Some n' /\
    forall c s cs, n = SplitNode c s cs ->
      exists s' cs', n' = SplitNode c s' cs' /\
        forall i child, getChild cs i = Some child -> is_Some (getChild cs' i).
Proof.
  intros HT Hn. pose proof (TrainAll_advances _ _ _ HT) as A.
  destruct (grows_nodeAt _ _ _ _ _ _ A Hn) as (n' & Hn' & Hg).
  exists n'. split; [exact Hn'|].
  intros c s cs ->. inversion Hg as [| |c0 s0 s' cs0 cs' Hin]; subst.
  exists s', cs'. split; [reflexivity|].
  intros i child Hchild.
  destruct (growsIn_getChild _ _ _ _ _ _ Hin Hchild) as (child' & -> & _). eauto.
Qed.

End Tree.

Arguments Tree stats : clear implicits.

(** *** Persistence *)

Import Msgpack.

Section Persistence.
Context {stats : Type} `{ObservationStats stats} `{StatsCodec stats}.

(** Modelled from the spec: the codecs of the two node variants (nodes.go
    is not among the sources). A leaf is written as its statistics, the
    weight at its last evaluation and its inactive flag; a split node as
    its condition, its fallback statistics and its children, each under
    its branch index. The variants are registered under two distinct codes,
    [leafNodeCode] and [splitNodeCode]. [norm] stands for [Config.norm],
    which fills in the defaults of a configuration. *)
Variables leafNodeCode splitNodeCode : Z.
Hypothesis codes_differ : leafNodeCode <> splitNodeCode.
Variable norm : bool -> Config -> Config.

Fixpoint countChildren (cs : children stats) : nat :=
  match cs with
  | NoChildren => O
  | Child _ _ rest => S (countChildren rest)
  end.

(** Writing a split node calls [Predictor] on its condition, which
    dereferences the condition's attribute: a nil attribute panics. *)
Fixpoint encodeNode (m : Model.t) (n : treeNode stats) : result (list token) :=
  match n with
  | LeafNode leaf =>
      Ok ([Tag leafNodeCode] ++ EncodeStats (Some (Stats leaf))
          ++ [Float (WeightOnLastEval leaf); Bool (IsInactive leaf)])
  | SplitNode c s cs =>
      match encodeCondition m c with
      | Ok condition =>
          match encodeChildren m cs with
          | Ok branches =>
              Ok ([Tag splitNodeCode] ++ condition ++ EncodeStats s
                  ++ [Int (Z.of_nat (countChildren cs))] ++ branches)
          | Panic why => Panic why
          end
      | Panic why => Panic why
      end
  end
with encodeChildren (m : Model.t) (cs : children stats) : result (list token) :=
  match cs with
  | NoChildren => Ok []
  | Child i c rest =>
      match encodeNode m c with
      | Ok child =>
          match encodeChildren m rest with
          | Ok more => Ok ([Int i] ++ child ++ more)
          | Panic why => Panic why
          end
      | Panic why => Panic why
      end
  end.

(** The decoder of a node calls itself on the children; [rec] is that
    call. *)
Fixpoint decodeChildrenWith (rec : list token -> decoded (treeNode stats)) (n : nat)
    (ts : list token) : decoded (children stats) :=
  match n with
  | O => Decoded NoChildren ts
  | S n' =>
      match ts with
      | Int i :: ts1 =>
          match rec ts1 with
          | Decoded c ts2 =>
              match decodeChildrenWith rec n' ts2 with
              | Decoded cs rest => Decoded (Child i c cs) rest
              | Malformed => Malformed
              end
          | Malformed => Malformed
          end
      | _ => Malformed
      end
  end.

Definition decodeNodeWith (rec : list token -> decoded (treeNode stats)) (m : Model.t)
    (ts : list token) : decoded (treeNode stats) :=
  match ts with
  | Tag code :: ts1 =>
      if code =? leafNodeCode then
        match DecodeStats ts1 with
        | Decoded (Some s) (Float w :: Bool inactive :: rest) =>
            Decoded (LeafNode {| Stats := s; WeightOnLastEval := w;
                                 IsInactive := inactive |}) rest
        | _ => Malformed
        end
      else if code =? splitNodeCode then
        match decodeCondition m ts1 with
        | Decoded c ts2 =>
            match DecodeStats ts2 with
            | Decoded s (Int n :: ts3) =>
                match decodeChildrenWith rec (Z.to_nat n) ts3 with
                | Decoded cs rest => Decoded (SplitNode c s cs) rest
                | Malformed => Malformed
                end
            | _ => Malformed
            end
        | Malformed => Malformed
        end
      else Malformed
  | _ => Malformed
  end.

(** The nesting the decoder follows is bounded by [fuel]; a stream has no
    more nested nodes than items. *)
Fixpoint decodeNode (fuel : nat) (m : Model.t) (ts : list token)
  : decoded (treeNode stats) :=
  match fuel with
  | O => Malformed
  | S fuel' => decodeNodeWith (decodeNode fuel' m) m ts
  end.

(** [EncodeTo] (lines 199-201) writes the model, then the root. *)
Definition EncodeTo (t : Tree stats) : result (list token) :=
  match encodeNode (model t) (root t) with
  | Ok nodes => Ok (Model.EncodeTo (model t) ++ nodes)
  | Panic why => Panic why
  end.

(** [DecodeFrom] (lines 203-205) reads the model, then the root; the
    conditions of the root are resolved in the model just read. *)
Definition DecodeFrom (ts : list token) : decoded (Model.t * treeNode stats) :=
  match Model.DecodeFrom ts with
  | Decoded m ts' =>
      match decodeNode (length ts') m ts' with
      | Decoded r rest => Decoded (m, r) rest
      | Malformed => Malformed
      end
  | Malformed => Malformed
  end.

(** [DumpTo] (lines 183-189): the tree is a registered type, code 7750. *)
Definition DumpTo (t : Tree stats) : result (list token) :=
  match EncodeTo t with
  | Ok fields => Ok (Tag 7750 :: fields)
  | Panic why => Panic why
  end.

Definition zeroConfig : Config :=
  {| GracePeriod := 0; SplitConfidence := 0; TieThreshold := 0; PrunePeriod := 0;
     PruneMemTarget := 0; EnableTracing := false |}.

(** [SetConfig] (lines 63-73); a nil configuration is a new one. *)
Definition SetConfig (t : Tree stats) (c : option Config) : Tree stats :=
  let c := match c with Some c => c | None => zeroConfig end in
  {| conf := norm (Model.IsRegression (model t)) c; root := root t; model := model t;
     leaves := leaves t; cycles := cycles t |}.

(** [Load] (lines 53-61): decode a tree, then set the configuration. *)
Definition Load (stream : list token) (c : option Config) : decoded (Tree stats) :=
  match stream with
  | Tag code :: ts =>
      if code =? 7750 then
        match DecodeFrom ts with
        | Decoded (m, r) rest =>
            Decoded (SetConfig {| conf := zeroConfig; root := r; model := m;
                                  leaves := []; cycles := 0 |} c) rest
        | Malformed => Malformed
        end
      else Malformed
  | _ => Malformed
  end.

(** Predictions asked one after the other; each call leaves the model to
    the next. *)
Fixpoint PredictAll (t : Tree stats) (insts : list Instance)
  : result (list Prediction.t) :=
  match insts with
  | [] => Ok []
  | inst :: rest =>
      '(votes, t1) ← Predict t inst;
      more ← PredictAll t1 rest;
      Ok (votes :: more)
  end.

(** [t'] has the nodes of [t] and the model of [t] as a reload leaves it. *)
Definition mirrors (t' t : Tree stats) : Prop :=
  root t' = root t /\ model t' = reloaded (model t).

(** The descent on a reloaded model ends where it ends on the model that
    was written. *)
Lemma Filter_reloaded_both (inst : Instance) :
  (forall (n : treeNode stats) self par idx m,
     Filter n self inst par idx (reloaded m)
     = onModel reloaded (Filter n self inst par idx m)) /\
  (forall (cs : children stats) branch self m,
     FilterChild cs branch self inst (reloaded m)
     = onModel reloaded (FilterChild cs branch self inst m)).
Proof.
  assert (P : forall (n : treeNode stats) self par idx m,
     Filter n self inst par idx (reloaded m)
     = onModel reloaded (Filter n self inst par idx m)).
  { apply (treeNode_mut stats
      (fun n : treeNode stats => forall self par idx m,
         Filter n self inst par idx (reloaded m)
         = onModel reloaded (Filter n self inst par idx m))
      (fun cs : children stats => forall branch self m,
         FilterChild cs branch self inst (reloaded m)
         = onModel reloaded (FilterChild cs branch self inst m))).
    - reflexivity.
    - intros c s cs IH self par idx m. simpl.
      destruct c as [c|]; [|reflexivity].
      rewrite Branch_reloaded.
      destruct (Branch c inst m) as [[b m1]|]; [|reflexivity]. simpl.
      destruct (-1 <? b); [apply IH|reflexivity].
    - reflexivity.
    - intros i n IHn rest IHrest branch self m. simpl.
      destruct (i =? branch); auto. }
  split; [exact P|].
  induction cs as [|i n rest IH]; intros branch self m; simpl; [reflexivity|].
  destruct (i =? branch); auto.
Qed.

Lemma Predict_mirrors (t' t : Tree stats) (inst : Instance) :
  mirrors t' t ->
  match Predict t inst with
  | Ok (votes, t1) => exists t1', Predict t' inst = Ok (votes, t1') /\ mirrors t1' t1
  | Panic why => Predict t' inst = Panic why
  end.
Proof.
  intros [Hr Hm]. unfold Predict. rewrite Hr, Hm.
  rewrite (proj1 (Filter_reloaded_both inst)).
  destruct (Filter (root t) [] inst None (-1) (model t)) as [[f m1]|]; [|reflexivity].
  simpl. cbv beta iota delta [mbind result_bind Go.bind].
  destruct (match node f with Some ptr => Some ptr | None => parent f end);
    [|reflexivity].
  destruct (nodeAt (root t) n) as [x|]; [|reflexivity].
  destruct (nodePredict x); [|reflexivity].
  eexists. split; [reflexivity|]. split; reflexivity.
Qed.

Lemma PredictAll_mirrors (insts : list Instance) :
  forall t' t : Tree stats, mirrors t' t -> PredictAll t' insts = PredictAll t insts.
Proof.
  induction insts as [|inst insts IH]; intros t' t Hmirror; [reflexivity|].
  cbn [PredictAll]. pose proof (Predict_mirrors t' t inst Hmirror) as Hstep.
  destruct (Predict t inst) as [[votes t1]|why].
  - destruct Hstep as (t1' & -> & Hmirror1).
    cbv beta iota delta [mbind result_bind Go.bind].
    now rewrite (IH t1' t1 Hmirror1).
  - now rewrite Hstep.
Qed.

(** A well-formed tree is written without a panic, and its nodes are read
    back as they were, against the reloaded model. *)
Lemma decodeNode_encodeNode_both (m : Model.t) :
  Model.named m ->
  (forall n : treeNode stats, wellFormed m n ->
     exists tokens, encodeNode m n = Ok tokens /\
       forall fuel rest, (length tokens <= fuel)%nat ->
         decodeNode fuel (reloaded m) (tokens ++ rest) = Decoded n rest) /\
  (forall cs : children stats, wellFormedIn m cs ->
     exists tokens, encodeChildren m cs = Ok tokens /\
       forall fuel rest, (length tokens <= fuel)%nat ->
         decodeChildrenWith (decodeNode fuel (reloaded m)) (countChildren cs)
           (tokens ++ rest) = Decoded cs rest).
Proof.
  intros Hnamed.
  assert (Hleafcode : (leafNodeCode =? leafNodeCode) = true) by apply Z.eqb_refl.
  assert (Hsplitcode : (splitNodeCode =? leafNodeCode) = false).
  { apply Z.eqb_neq. congruence. }
  assert (P : forall n : treeNode stats, wellFormed m n ->
     exists tokens, encodeNode m n = Ok tokens /\
       forall fuel rest, (length tokens <= fuel)%nat ->
         decodeNode fuel (reloaded m) (tokens ++ rest) = Decoded n rest).
  { apply (treeNode_mut stats
      (fun n : treeNode stats => wellFormed m n ->
         exists tokens, encodeNode m n = Ok tokens /\
           forall fuel rest, (length tokens <= fuel)%nat ->
             decodeNode fuel (reloaded m) (tokens ++ rest) = Decoded n rest)
      (fun cs : children stats => wellFormedIn m cs ->
         exists tokens, encodeChildren m cs = Ok tokens /\
           forall fuel rest, (length tokens <= fuel)%nat ->
             decodeChildrenWith (decodeNode fuel (reloaded m)) (countChildren cs)
               (tokens ++ rest) = Decoded cs rest)).
    - intros [s w inactive] _. eexists. split; [reflexivity|].
      intros fuel rest Hfuel. destruct fuel as [|fuel]; [simpl in Hfuel; lia|].
      cbn [decodeNode]. unfold decodeNodeWith. cbn [app].
      rewrite Hleafcode, <- app_assoc, DecodeStats_EncodeStats. reflexivity.
    - intros c s cs IH [Hres Hcs].
      destruct (IH Hcs) as (branches & Hbranches & Hdecode).
      destruct (decodeCondition_encodeCondition m c Hnamed) as (condition & Hcond & Hdc).
      { intros cnd ->. destruct Hres as (cnd' & name & E & Hptr & [a Ha]).
        inversion E; subst. eauto. }
      eexists. split; [simpl; rewrite Hcond, Hbranches; reflexivity|].
      intros fuel rest Hfuel. destruct fuel as [|fuel]; [simpl in Hfuel; lia|].
      cbn [decodeNode]. unfold decodeNodeWith.
      rewrite <- app_comm_cons, <- !app_assoc, <- app_comm_cons.
      rewrite Hsplitcode, Z.eqb_refl.
      rewrite Hdc, DecodeStats_EncodeStats.
      rewrite Nat2Z.id, Hdecode; [reflexivity|].
      simpl in Hfuel. rewrite !length_app in Hfuel. simpl in Hfuel. lia.
    - intros _. exists []. split; [reflexivity|]. reflexivity.
    - intros i n IHn rest IHrest [Hn Hrest].
      destruct (IHn Hn) as (child & Hchild & Hdn).
      destruct (IHrest Hrest) as (more & Hmore & Hdm).
      eexists. split; [simpl; rewrite Hchild, Hmore; reflexivity|].
      intros fuel rest0 Hfuel. cbn [countChildren decodeChildrenWith app].
      rewrite <- app_assoc, Hdn, Hdm; [reflexivity| |];
        simpl in Hfuel; rewrite length_app in Hfuel; lia. }
  split; [exact P|].
  induction cs as [|i n rest IH]; intros Hwf.
  - exists []. split; reflexivity.
  - destruct Hwf as [Hn Hrest].
    destruct (P n Hn) as (child & Hchild & Hdn).
    destruct (IH Hrest) as (more & Hmore & Hdm).
    eexists. split; [simpl; rewrite Hchild, Hmore; reflexivity|].
    intros fuel rest0 Hfuel. cbn [countChildren decodeChildrenWith app].
    rewrite <- app_assoc, Hdn, Hdm; [reflexivity| |];
      simpl in Hfuel; rewrite length_app in Hfuel; lia.
Qed.

(** C7. Dump/Load round trip. Take a tree whose model files every
    predictor under its name and whose split conditions name predictors of
    the model. [DumpTo] writes it without a panic; [Load] reads the stream
    to its end, under any configuration, and returns a tree with the same
    nodes and the reloaded model; asked for predictions on any instances,
    one after the other, the loaded tree answers as the dumped tree does. *)
Theorem DumpTo_Load (t : Tree stats) (c : option Config) :
  Model.named (model t) ->
  wellFormed (model t) (root t) ->
  exists stream t',
    DumpTo t = Ok stream /\
    Load stream c = Decoded t' [] /\
    root t' = root t /\
    forall insts, PredictAll t' insts = PredictAll t insts.
Proof.
  intros Hnamed Hwf.
  destruct (proj1 (decodeNode_encodeNode_both (model t) Hnamed) (root t) Hwf)
    as (tokens & Henc & Hdec).
  exists (Tag 7750 :: Model.EncodeTo (model t) ++ tokens).
  eexists. split; [unfold DumpTo, EncodeTo; rewrite Henc; reflexivity|].
  split; [|split].
  - unfold Load. change (7750 =? 7750) with true. cbv iota.
    unfold DecodeFrom. rewrite Model_DecodeFrom_EncodeTo by exact Hnamed.
    pose proof (Hdec (length tokens) [] (le_n _)) as Hroot.
    rewrite app_nil_r in Hroot. rewrite Hroot. reflexivity.
  - reflexivity.
  - intros insts. apply PredictAll_mirrors. split; reflexivity.
Qed.

End Persistence.

End Hoeffding.

(** ** classifiers/hoeffding/tree.go: the tree that reports on a channel *)

Module HoeffdingChannel.
Import Float64 Sorting Go Core Helpers Hoeffding.

Section Tree.
Context {stats : Type} `{ObservationStats stats} `{Sorter}.

(** As for the other tree, [math.Log], [leaf.BestSplits], the ordering of
    [leafNodeSlice], the fixed parts of the byte sizes and [Config.norm] are
    taken as they come. The configuration is the other tree's: its
    [PruneMemTarget] is the field [MemTarget] here. *)
Variable Log : float -> float.
Variable BestSplits : Config -> Model.t -> leafNode stats -> SplitSuggestions stats.
Variable leafLess : leafNode stats -> leafNode stats -> bool.
Variables leafNodeSize splitNodeSize : Z.
Variable norm : bool -> Config -> Config.

Definition MemTarget (c : Config) : Z := PruneMemTarget c.

(** [traces] is the channel of capacity 3 that [New] makes, as the queue of
    the traces sent and not yet received. *)
Record Tree : Type := mkTree {
  conf : Config;
  root : treeNode stats;
  model : Model.t;
  regression : bool;
  traces : list (option Trace.t);
  leaves : list nodePtr;
  cycles : Z
}.

Definition capacity : nat := 3.

(** [New] (lines 37-51). *)
Definition New (m : Model.t) (c : option Config) : Tree :=
  let regression := Model.IsRegression m in
  let c := match c with Some c => c | None => zeroConfig end in
  {| conf := norm regression c; root := LeafNode (newLeafNode (NewObservationStats regression));
     model := m; regression := regression; traces := []; leaves := []; cycles := 0 |}.

(** [ByteSize] (lines 53-60). *)
Definition ByteSize (t : Tree) : Z := nodeByteSize leafNodeSize splitNodeSize (root t).

Definition IsActive (leaf : leafNode stats) : bool := negb (IsInactive leaf).

(** [attemptSplit] (lines 176-232): the evaluation of the other tree, with
    the trace handed back at every [return]; [Split] is left for [Train]
    to set. *)
Definition attemptSplit (t : Tree) (leaf : leafNode stats) (weight : float)
    (trace : option Trace.t) : result (option (treeNode stats) * option Trace.t) :=
  if negb (IsSufficient (Stats leaf)) || negb (IsActive leaf) then Ok (None, trace)
  else
    let trace := if EnableTracing (conf t) then Some Trace.zero else trace in
    let splits := BestSplits (conf t) (model t) leaf in
    match splits with
    | [] => Panic IndexOutOfRange
    | bestSplit :: _ =>
        let meritGain := meritGainOf splits in
        trace ← match trace with
                | Some tr =>
                    possible ← possibleSplits (model t) splits;
                    Ok (Some {| Trace.PossibleSplits := possible;
                                Trace.MeritGain := meritGain;
                                Trace.HoeffdingBound := Trace.HoeffdingBound tr;
                                Trace.Split := Trace.Split tr |})
                | None => Ok None
                end;
        if (meritGain <=? 0)%float then Ok (None, trace)
        else
          let srange := Range bestSplit in
          let hbound := hoeffdingBound Log (conf t) srange weight in
          let trace :=
            match trace with
            | Some tr => Some {| Trace.PossibleSplits := Trace.PossibleSplits tr;
                                 Trace.MeritGain := Trace.MeritGain tr;
                                 Trace.HoeffdingBound := hbound;
                                 Trace.Split := Trace.Split tr |}
            | None => None
            end in
          if (hbound <? meritGain)%float || (hbound <? TieThreshold (conf t))%float then
            Ok (Some (newSplitNode (Condition bestSplit) (PreStats bestSplit)
                        (PostStats bestSplit)), trace)
          else Ok (None, trace)
    end.

(** [prune] (lines 234-254). The first loop deactivates active leaves, in
    the reversed order of the slice, until the estimate is within the
    target, and stops on the leaf that got it there; the second loop
    activates every leaf from that one on. *)
Fixpoint pruneDeactivate (target : Z) (ls : list nodePtr) (piv : nat)
    (r : treeNode stats) (byteSize : Z) : treeNode stats * nat :=
  match ls with
  | [] => (r, piv)
  | p :: rest =>
      match leafAt r p with
      | Some leaf =>
          if IsActive leaf then
            let byteSize' := wrap64 (byteSize - leafByteSize leafNodeSize leaf) in
            let r' := updateLeafAt r p leafDeactivate in
            if byteSize' <=? target then (r', piv)
            else pruneDeactivate target rest (S piv) r' byteSize'
          else pruneDeactivate target rest (S piv) r byteSize
      | None => pruneDeactivate target rest (S piv) r byteSize
      end
  end.

Fixpoint pruneActivate (ls : list nodePtr) (r : treeNode stats) : treeNode stats :=
  match ls with
  | [] => r
  | p :: rest => pruneActivate rest (updateLeafAt r p leafActivate)
  end.

Definition prune (t : Tree) (byteSize : Z) : Tree :=
  let sorted := Sort (Reverse (leafLessAt leafLess (root t)))
                     (FindLeaves (root t) [] []) in
  let '(r1, piv) := pruneDeactivate (MemTarget (conf t)) sorted 0 (root t) byteSize in
  let r2 := pruneActivate (drop piv sorted) r1 in
  {| conf := conf t; root := r2; model := model t; regression := regression t;
     traces := traces t; leaves := sorted; cycles := cycles t |}.

(** How a call of [Train] ends: it returns, it panics, or it blocks in
    the deferred send, the channel being full (it cannot return before a
    trace is received, which no step here does). *)
Inductive outcome : Type :=
| Returns (t : Tree)
| Panics (why : panic)
| Blocks.

(** The body of [Train] (lines 127-159) up to its [return]: the tree it
    leaves and the value of [trace] at that point. The remainder of
    [t.cycles] by a zero [PrunePeriod] is a run-time panic. *)
Definition trained (t : Tree) (inst : Instance) : result (Tree * option Trace.t) :=
  '(f, m1) ← Filter (root t) [] inst None (-1) (model t);
  '(ptr, r1) ←
    match node f with
    | Some ptr => Ok (ptr, root t)
    | None =>
        match parent f with
        | Some pp =>
            let fresh := newLeafNode (NewObservationStats (regression t)) in
            Ok (pp ++ [parentIndex f],
                setChildAt (root t) pp (parentIndex f) (LeafNode fresh))
        | None => Panic NilDereference
        end
    end;
  match nodeAt r1 ptr with
  | Some (LeafNode leaf) =>
      let '(leaf', m2) := Learn leaf inst m1 in
      let t2 := {| conf := conf t; root := updateLeafAt r1 ptr (fun _ => leaf');
                   model := m2; regression := regression t; traces := traces t;
                   leaves := leaves t; cycles := wrap64 (cycles t + 1) |} in
      if PrunePeriod (conf t) =? 0 then Panic DivideByZero
      else
        let t3 :=
          if Z.rem (cycles t2) (PrunePeriod (conf t)) =? 0 then
            let byteSize := nodeByteSize leafNodeSize splitNodeSize (root t2) in
            if wrap64 (MemTarget (conf t) * 2) <=? byteSize then prune t2 byteSize else t2
          else t2 in
        match leafAt (root t3) ptr with
        | None => Panic NilDereference
        | Some leaf3 =>
            let weight := TotalWeight (Stats leaf3) in
            if int_of_float64 (weight - WeightOnLastEval leaf3) <? GracePeriod (conf t)
            then Ok (t3, None)
            else
              '(split, trace) ← attemptSplit t3 leaf3 weight None;
              let r4 :=
                match split with
                | Some sn =>
                    match parent f with
                    | None => sn
                    | Some pp => setChildAt (root t3) pp (parentIndex f) sn
                    end
                | None => root t3
                end in
              let trace :=
                match split, trace with
                | Some _, Some tr =>
                    Some {| Trace.PossibleSplits := Trace.PossibleSplits tr;
                            Trace.MeritGain := Trace.MeritGain tr;
                            Trace.HoeffdingBound := Trace.HoeffdingBound tr;
                            Trace.Split := true |}
                | _, _ => trace
                end in
              Ok ({| conf := conf t3; root := updateLeafAt r4 ptr (setWeightOnLastEval weight);
                     model := model t3; regression := regression t3; traces := traces t3;
                     leaves := leaves t3; cycles := cycles t3 |}, trace)
        end
  | _ =>
      Ok ({| conf := conf t; root := r1; model := m1; regression := regression t;
             traces := traces t; leaves := leaves t; cycles := cycles t |}, None)
  end.

(** [Train]: with tracing enabled the trace, nil or not, is sent on the
    channel when the call ends, while the lock is still held. *)
Definition Train (t : Tree) (inst : Instance) : outcome :=
  if EnableTracing (conf t) then
    if (length (traces t) <? capacity)%nat then
      match trained t inst with
      | Ok (t', trace) =>
          Returns {| conf := conf t'; root := root t'; model := model t';
                     regression := regression t'; traces := traces t' ++ [trace];
                     leaves := leaves t'; cycles := cycles t' |}
      | Panic why => Panics why
      end
    else Blocks
  else
    match trained t inst with
    | Ok (t', _) => Returns t'
    | Panic why => Panics why
    end.

(** [Predict] (lines 162-174). *)
Definition Predict (t : Tree) (inst : Instance) : result (Prediction.t * Tree) :=
  '(f, m1) ← Filter (root t) [] inst None (-1) (model t);
  let target := match node f with
                | Some ptr => Some ptr
                | None => parent f
                end in
  match target with
  | None => Panic NilDereference
  | Some ptr =>
      match nodeAt (root t) ptr with
      | Some n =>
          votes ← nodePredict n;
          Ok (votes, {| conf := conf t; root := root t; model := m1;
                        regression := regression t; traces := traces t;
                        leaves := leaves t; cycles := cycles t |})
      | None => Panic NilDereference
      end
  end.

(** The tree as the other variant has it. *)
Definition asTree (t : Tree) : Hoeffding.Tree stats :=
  {| Hoeffding.conf := conf t; Hoeffding.root := root t; Hoeffding.model := model t;
     Hoeffding.leaves := leaves t; Hoeffding.cycles := cycles t |}.

(** What a split attempt decides, the trace left aside. *)
Definition decision (r : result (option (treeNode stats) * option Trace.t))
  : result (option (treeNode stats)) :=
  match r with
  | Ok (split, _) => Ok split
  | Panic why => Panic why
  end.

(** X19. The two trees take the same decision: on every leaf, weight and
    incoming trace, the two [attemptSplit] return the same node, or no
    node, or panic alike. They differ in the trace alone. *)
Theorem attemptSplit_same_decision (t : Tree) (leaf : leafNode stats)
    (weight : float) (trace : option Trace.t) :
  decision (attemptSplit t leaf weight trace)
  = decision (Hoeffding.attemptSplit Log BestSplits (asTree t) leaf weight trace).
Proof.
  unfold attemptSplit, Hoeffding.attemptSplit, IsActive, asTree.
  cbn [Hoeffding.conf Hoeffding.model]. rewrite negb_involutive.
  destruct (negb (IsSufficient (Stats leaf)) || IsInactive leaf); [reflexivity|].
  destruct (BestSplits (conf t) (model t) leaf) as [|best others]; [reflexivity|].
  destruct (if EnableTracing (conf t) then Some Trace.zero else trace).
  - destruct (possibleSplits (model t) (best :: others));
      cbv beta iota delta [mbind result_bind Go.bind]; [|reflexivity].
    destruct (_ <=? 0)%float; [reflexivity|].
    destruct (_ || _); reflexivity.
  - cbv beta iota delta [mbind result_bind Go.bind].
    destruct (_ <=? 0)%float; [reflexivity|].
    destruct (_ || _); reflexivity.
Qed.


Lemma prune_traces (t : Tree) (byteSize : Z) :
  traces (prune t byteSize) = traces t /\ conf (prune t byteSize) = conf t.
Proof. unfold prune. destruct (pruneDeactivate _ _ _ _ _). now split. Qed.

Lemma trained_traces (t : Tree) (inst : Instance) (t' : Tree) (trace : option Trace.t) :
  trained t inst = Ok (t', trace) -> traces t' = traces t /\ conf t' = conf t.
Proof.
  unfold trained.
  destruct (Filter (root t) [] inst None (-1) (model t)) as [[f m1]|]; [|discriminate].
  cbv beta iota delta [mbind result_bind Go.bind].
  destruct (match node f with
            | Some ptr => Ok (ptr, root t)
            | None => _
            end) as [[ptr r1]|]; [|discriminate].
  destruct (nodeAt r1 ptr) as [[leaf|c s cs]|];
    try (intros E; injection E as <- <-; now split).
  destruct (Learn leaf inst m1) as [leaf' m2].
  destruct (PrunePeriod (conf t) =? 0); [discriminate|].
  set (t2 := {| conf := conf t; root := updateLeafAt r1 ptr (fun _ => leaf'); model := m2;
                regression := regression t; traces := traces t; leaves := leaves t;
                cycles := wrap64 (cycles t + 1) |}).
  set (t3 := if Z.rem (cycles t2) (PrunePeriod (conf t)) =? 0 then _ else t2).
  assert (H3 : traces t3 = traces t /\ conf t3 = conf t).
  { subst t3. destruct (_ =? 0); [|now split].
    destruct (_ <=? _); [|now split]. apply (prune_traces t2). }
  destruct (leafAt (root t3) ptr) as [leaf3|]; [|discriminate].
  destruct (_ <? GracePeriod (conf t)); [intros E; injection E as <- <-; exact H3|].
  destruct (attemptSplit t3 leaf3 _ None) as [[split tr]|]; [|discriminate].
  intros E; injection E as <- <-. exact H3.
Qed.

(** X21. The channel discipline of [Train]. With tracing enabled every
    call that returns has sent exactly one trace, nil or not, and a call
    made while three traces wait to be received blocks; without tracing no
    call blocks and the channel is left alone. *)
Theorem Train_traces (t : Tree) (inst : Instance) :
  match Train t inst with
  | Returns t' =>
      if EnableTracing (conf t)
      then (length (traces t) < capacity)%nat /\
           exists trace, traces t' = traces t ++ [trace]
      else traces t' = traces t
  | Panics _ => EnableTracing (conf t) = true -> (length (traces t) < capacity)%nat
  | Blocks => EnableTracing (conf t) = true /\ (capacity <= length (traces t))%nat
  end.
Proof.
  unfold Train. destruct (EnableTracing (conf t)).
  - destruct (Nat.ltb_spec (length (traces t)) capacity) as [Hlt|Hge]; [|now split].
    destruct (trained t inst) as [[t' trace]|] eqn:HT; [|intros _; exact Hlt].
    split; [exact Hlt|]. exists trace. cbn [traces].
    now rewrite (proj1 (trained_traces t inst t' trace HT)).
  - destruct (trained t inst) as [[t' trace]|] eqn:HT; [|discriminate].
    exact (proj1 (trained_traces t inst t' trace HT)).
Qed.

(** X22. A zero [PrunePeriod] is not guarded here: when the descent reaches a
    leaf, or an empty slot that gets one, the remainder [t.cycles %
    PrunePeriod] panics with a division by zero, unless the deferred send
    blocks first. *)
Theorem Train_zero_prune_period (t : Tree) (inst : Instance) (f : filtered)
    (m1 : Model.t) :
  PrunePeriod (conf t) = 0 ->
  Filter (root t) [] inst None (-1) (model t) = Ok (f, m1) ->
  (forall ptr, node f = Some ptr -> is_Some (leafAt (root t) ptr)) ->
  Train t inst = if EnableTracing (conf t) && (capacity <=? length (traces t))%nat
                 then Blocks else Panics DivideByZero.
Proof.
  intros Hzero HF Hleaf.
  assert (HT : trained t inst = Panic DivideByZero).
  { unfold trained. rewrite HF. cbv beta iota delta [mbind result_bind Go.bind].
    pose proof (Filter_landsIn _ _ _ _ _ HF) as Hlands. unfold landsIn in Hlands.
    destruct (node f) as [ptr|].
    - destruct (Hleaf ptr eq_refl) as [leaf Hl]. unfold leafAt in Hl.
      destruct (nodeAt (root t) ptr) as [[l|c s cs]|]; try discriminate.
      destruct (Learn l inst m1). now rewrite Hzero.
    - destruct Hlands as (pp & c & s & cs & -> & Hsplit & _).
      rewrite (nodeAt_setChildAt_child _ _ _ _ _ _ _ Hsplit).
      destruct (Learn _ inst m1). now rewrite Hzero. }
  unfold Train. rewrite HT.
  destruct (EnableTracing (conf t)); cbn [andb]; [|reflexivity].
  destruct (Nat.ltb_spec (length (traces t)) capacity) as [Hlt|Hge];
    destruct (Nat.leb_spec capacity (length (traces t))); try reflexivity;
    unfold capacity in *; lia.
Qed.

End Tree.

Arguments Tree stats : clear implicits.

End HoeffdingChannel.

(** ** A worked example: the weather data of example_test.go *)

Module Weather.
Import Float64 Sorting Go Core Helpers Hoeffding.
#[local] Open Scope string_scope.

(** Statistics that keep the target marginal only, the weight seen per
    target class: the least an [ObservationStats] has to keep. They serve
    as the concrete statistics the general theorems are applied to. *)
Definition classCounts : Type := list (Z * float).

Fixpoint observe (class : Z) (weight : float) (s : classCounts) : classCounts :=
  match s with
  | [] => [(class, weight)]
  | (c, w) :: rest =>
      if (c =? class)%Z then (c, (w + weight)%float) :: rest
      else (c, w) :: observe class weight rest
  end.

#[export] Instance classCountStats : ObservationStats classCounts := {|
  NewObservationStats := fun _ => [];
  TotalWeight := fun s => fold_left (fun acc cw => (acc + snd cw)%float) s 0%float;
  IsSufficient := fun s => (2 <=? Z.of_nat (length s))%Z;
  Update := fun inst m s =>
    let '(v, target) := Attribute.Value (Model.Target m) inst in
    let m' := {| Model.Target := target; Model.Predictors := Model.Predictors m |} in
    if AttributeValue.IsMissing v then (s, m')
    else (observe (AttributeValue.Index v) 1 s, m');
  Helpers.Predict := fun s =>
    map (fun cw => {| PV_AttributeValue := float64_of_int (fst cw); Votes := snd cw |}) s;
  ByteSize := fun s => 24 + 16 * Z.of_nat (length s);
  Deactivate := fun s => s;
  Activate := fun s => s
|}.

Definition weatherModel : Model.t :=
  {| Model.Target :=
       {| Attribute.Name := "play"; Attribute.Kind := AttributeKindNominal;
          Attribute.Values := Some (AttributeValues.NewAttributeValues ["yes"; "no"]) |};
     Model.Predictors :=
       <["outlook" := {| Attribute.Name := "outlook";
                         Attribute.Kind := AttributeKindNominal;
                         Attribute.Values := None |}]>
       (<["humidity" := {| Attribute.Name := "humidity";
                           Attribute.Kind := AttributeKindNumeric;
                           Attribute.Values := None |}]> ∅) |}.

Definition day (outlook : string) (humidity : Z) (play : string) : Instance :=
  fun name =>
    if String.eqb name "outlook" then IVstring outlook
    else if String.eqb name "humidity" then IVinteger humidity
    else if String.eqb name "play" then IVstring play
    else IVother.

(** One suggestion, a split of humidity at 80, followed by the null
    suggestion. *)
Definition humiditySplit (c : Config) (m : Model.t) (leaf : leafNode classCounts)
  : SplitSuggestions classCounts :=
  match Model.Predictor m "humidity" with
  | Some _ =>
      [ Some {| cond := Some (numericBinarySplitCondition (Some "humidity") 80);
                merit := 0.25; mrange := 1; preStats := Some (Stats leaf);
                postStats := [(0, []); (1, [])] |};
        None ]
  | None => [None]
  end.

(** [math.Log] at the arguments the examples reach: [math.Log(1) = 0] and
    [math.Log(2) = math.Ln2], the two values the algorithm of [math.Log]
    yields without rounding a series ([f = 0], so the result is
    [k*Ln2Hi + k*Ln2Lo]). The configurations below set the split confidence
    to 0.5, so the bound is computed from [math.Log(1/0.5) = math.Log(2)]
    ([log_argument]); no example evaluates [logOf] anywhere else, where it
    carries no information and yields NaN. *)
Definition Ln2 : float := 0x1.62e42fefa39efp-1%float.

Definition logOf (x : float) : float :=
  if (x =? 1)%float then 0%float
  else if (x =? 2)%float then Ln2
  else nan.

Definition byWeight (a b : leafNode classCounts) : bool :=
  (WeightOnLastEval a <? WeightOnLastEval b)%float.

Definition config (gracePeriod prunePeriod pruneMemTarget : Z) : Config :=
  {| GracePeriod := gracePeriod; SplitConfidence := 0.5; TieThreshold := 0.03125;
     PrunePeriod := prunePeriod; PruneMemTarget := pruneMemTarget;
     EnableTracing := true |}.

Lemma log_argument (gracePeriod prunePeriod pruneMemTarget : Z) :
  (1 / SplitConfidence (config gracePeriod prunePeriod pruneMemTarget))%float = 2%float.
Proof. reflexivity. Qed.

Definition newTree (c : Config) : Tree classCounts :=
  {| conf := c; root := LeafNode (newLeafNode []); model := weatherModel;
     leaves := []; cycles := 0 |}.

Definition train : Tree classCounts -> Instance -> result (option Trace.t * Tree classCounts) :=
  Train logOf humiditySplit byWeight 40 64.

Definition after (r : result (option Trace.t * Tree classCounts)) (fallback : Tree classCounts)
  : Tree classCounts :=
  match r with
  | Ok (_, t) => t
  | Panic _ => fallback
  end.

Definition sunny : Instance := day "sunny" 85 "no".
Definition rainy : Instance := day "rainy" 70 "yes".
Definition overcast : Instance := day "overcast" 90 "yes".

(** A tree whose root splits on humidity. *)
Definition splitTree : Tree classCounts :=
  {| conf := config 200 0 1000;
     root := SplitNode (Some (numericBinarySplitCondition (Some "humidity") 80))
                       (Some [(1, 2%float); (0, 1%float)])
                       (Child 0 (LeafNode (newLeafNode [(0, 1%float)]))
                          (Child 1 (LeafNode (newLeafNode [(1, 2%float)])) NoChildren));
     model := weatherModel; leaves := []; cycles := 3 |}.

(** A tree whose root splits on the outlook, with one branch so far. *)
Definition outlookTree : Tree classCounts :=
  {| conf := config 200 0 1000;
     root := SplitNode (Some (nominalMultiwaySplitCondition (Some "outlook")))
                       (Some [(1, 2%float); (0, 1%float)])
                       (Child 0 (LeafNode (newLeafNode [(1, 2%float)])) NoChildren);
     model := weatherModel; leaves := []; cycles := 3 |}.

Lemma humiditySplit_nonempty (c : Config) (m : Model.t) (leaf : leafNode classCounts) :
  humiditySplit c m leaf <> [].
Proof. unfold humiditySplit. destruct (Model.Predictor m "humidity"); discriminate. Qed.

Lemma humiditySplit_named (c : Config) (m : Model.t) (leaf : leafNode classCounts) :
  returns (possibleSplits m (humiditySplit c m leaf)).
Proof.
  unfold humiditySplit. destruct (Model.Predictor m "humidity") as [a|] eqn:Ha.
  - simpl. unfold Helpers.Predictor, deref. simpl. rewrite Ha. simpl.
    eexists; reflexivity.
  - eexists; reflexivity.
Qed.


(** *** The theorems at concrete inputs *)

Definition matureLeaf : leafNode classCounts :=
  {| Stats := [(1, 1024%float); (0, 1024%float)]; WeightOnLastEval := 1800;
     IsInactive := false |}.

Lemma attemptSplit_decision_witness :
  exists split : option (treeNode classCounts),
    attemptSplit logOf humiditySplit (newTree (config 1 0 1000)) matureLeaf 2048 None
      = Ok (split, None) /\
    split = Some (newSplitNode
                    (Some (numericBinarySplitCondition (Some "humidity") 80))
                    (Some (Stats matureLeaf)) [(0, []); (1, [])]).
Proof.
  destruct (attemptSplit_decision logOf humiditySplit (newTree (config 1 0 1000))
              matureLeaf 2048 None
              (Some {| cond := Some (numericBinarySplitCondition (Some "humidity") 80);
                       merit := 0.25; mrange := 1; preStats := Some (Stats matureLeaf);
                       postStats := [(0, []); (1, [])] |})
              [None])
    as (Hreturns & _ & _ & Hdecision).
  - reflexivity.
  - reflexivity.
  - reflexivity.
  - destruct Hreturns as [split Hcall].
    { right. eexists. vm_compute. reflexivity. }
    exists split. split; [exact Hcall|].
    destruct (Hdecision split None Hcall) as (Hiff & Hnode & _).
    destruct (proj2 Hiff) as [sn ->].
    + split; [reflexivity|left; reflexivity].
    + now rewrite (Hnode sn eq_refl).
Defined.

(** C2: with tracing enabled, the third training call of a tree with grace
    period 1 evaluates its leaf and returns no trace. *)
Definition twoDays : Tree classCounts :=
  after (train (after (train (newTree (config 1 0 1000)) sunny)
                  (newTree (config 1 0 1000))) rainy)
        (newTree (config 1 0 1000)).

Example Train_drops_trace_example :
  EnableTracing (conf twoDays) = true /\
  IsSufficient (Stats (mkLeafNode [(1, 1%float); (0, 2%float)] 2 false)) = true /\
  exists t', train twoDays overcast = Ok (None, t') /\
             leafAt (root t') [] = Some (mkLeafNode [(1, 1%float); (0, 2%float)] 3 false).
Proof.
  split; [reflexivity|]. split; [reflexivity|].
  eexists. split; vm_compute; reflexivity.
Qed.

(** C3: with pruning at every cycle and a target of 16 bytes, the tree left
    by one training call is estimated at 80 bytes, its only leaf
    inactive. *)
Definition tightTree : Tree classCounts := newTree (config 1 1 16).

Lemma prune_bound_counterexample :
  0 < PrunePeriod (conf tightTree) /\
  exists t', train tightTree sunny = Ok (None, t') /\
             leafAt (root t') [] = Some (mkLeafNode [(1, 1%float)] 1 true) /\
             ~ (nodeByteSize 40 64 (root t') <= 2 * PruneMemTarget (conf t')).
Proof.
  split; [reflexivity|].
  eexists. split; [vm_compute; reflexivity|].
  split; [reflexivity|].
  vm_compute. intros Hle. apply Hle. reflexivity.
Defined.

(** A tree of one leaf, estimated at 80 bytes, with a target of 16: the
    pass deactivates the leaf, reactivates it and deactivates it again, and
    stops with a running estimate of 0 and a tree of 80 bytes. *)
Definition heavyTree : Tree classCounts :=
  {| conf := config 1 1 16; root := LeafNode (mkLeafNode [(1, 1%float)] 0 false);
     model := weatherModel; leaves := []; cycles := 0 |}.

Lemma prune_within_target_witness :
  prune byWeight 40 64 splitTree = splitTree /\
  (Permutation (leaves (prune byWeight 40 64 heavyTree)) (FindLeaves (root heavyTree) [] []) /\
   (pruneEstimate byWeight 40 64 heavyTree <= PruneMemTarget (conf heavyTree) \/
    forall p, In p (leaves (prune byWeight 40 64 heavyTree)) ->
              off (root (prune byWeight 40 64 heavyTree)) p)) /\
  exists t3 t2,
    land (prune byWeight 40 64) tightTree sunny = Ok (OnLeaf t3 [] None (-1)) /\
    land (fun t0 => t0) tightTree sunny = Ok (OnLeaf t2 [] None (-1)) /\
    cycles t2 = wrap64 (cycles tightTree + 1) /\
    t3 = if (Z.rem (wrap64 (cycles tightTree + 1)) (PrunePeriod (conf tightTree)) =? 0)%Z
         then prune byWeight 40 64 t2 else t2.
Proof.
  split; [|split].
  - apply (proj1 (prune_within_target byWeight 40 64 splitTree)).
    vm_compute. discriminate.
  - apply (proj1 (proj2 (proj2 (prune_within_target byWeight 40 64 heavyTree)))).
    vm_compute. reflexivity.
  - assert (Hland : exists t3, land (prune byWeight 40 64) tightTree sunny
                               = Ok (OnLeaf t3 [] None (-1)))
      by (eexists; vm_compute; reflexivity).
    destruct Hland as [t3 Hland]. exists t3.
    destruct (proj2 (proj2 (proj2 (prune_within_target byWeight 40 64 tightTree)))
                sunny t3 [] None (-1) eq_refl Hland) as (t2 & Hplain & Hcycles & Hpass).
    exists t2. auto.
Defined.

Example prune_heavyTree :
  nodeByteSize 40 64 (root heavyTree) = 80 /\
  pruneEstimate byWeight 40 64 heavyTree = 0 /\
  root (prune byWeight 40 64 heavyTree) = LeafNode (mkLeafNode [(1, 1%float)] 0 true) /\
  nodeByteSize 40 64 (root (prune byWeight 40 64 heavyTree)) = 80.
Proof. repeat split; vm_compute; reflexivity. Qed.

(** C4: the first instance at a fresh tree with grace period 200. *)
Lemma Train_within_grace_period_witness :
  exists t3,
    land (prune byWeight 40 64) (newTree (config 200 0 1000)) sunny
      = Ok (OnLeaf t3 [] None (-1)) /\
    train (newTree (config 200 0 1000)) sunny = Ok (None, t3) /\
    leafAt (root t3) [] = Some (mkLeafNode [(1, 1%float)] 0 false) /\
    shapeOf (root t3) = shapeOf (root (newTree (config 200 0 1000))).
Proof.
  eexists. split; [vm_compute; reflexivity|].
  match goal with
  | |- train _ _ = Ok (None, ?t3) /\ _ =>
      destruct (Train_within_grace_period logOf humiditySplit byWeight 40 64
                  (newTree (config 200 0 1000)) sunny t3 [] None (-1))
        as (leaf & Hleaf & Hbelow & Hreturn)
  end.
  - vm_compute. reflexivity.
  - vm_compute in Hleaf. inversion Hleaf; subst leaf; clear Hleaf.
    destruct Hreturn as (Htrain & _ & Hshape).
    { apply Hbelow; [reflexivity|]. vm_compute. reflexivity. }
    split; [exact Htrain|]. split; [reflexivity|]. exact Hshape.
Defined.

(** C5: two training calls at a fresh tree with grace period 1. *)
Lemma WeightOnLastEval_monotone_witness :
  (exists leaf', leafAt (root twoDays) [] = Some leaf' /\
     noless (WeightOnLastEval (newLeafNode ([] : classCounts)))
            (WeightOnLastEval leaf')) \/
  (exists c s cs, nodeAt (root twoDays) [] = Some (SplitNode c s cs)).
Proof.
  apply (proj1 (WeightOnLastEval_monotone logOf humiditySplit byWeight 40 64)
           [sunny; rainy] (newTree (config 1 0 1000)) twoDays).
  - vm_compute. reflexivity.
  - reflexivity.
Defined.

(** C6: a training call at the humidity tree, where pruning is disabled. *)
Lemma Train_without_pruning_witness :
  (exists trace t', train splitTree sunny = Ok (trace, t') /\
                    cycles t' = cycles splitTree /\ leaves t' = leaves splitTree) /\
  forall pruneFn,
    TrainWith logOf humiditySplit pruneFn splitTree sunny = train splitTree sunny.
Proof.
  apply (Train_without_pruning logOf humiditySplit byWeight 40 64 splitTree sunny).
  - reflexivity.
  - simpl. split; [|tauto].
    exists (numericBinarySplitCondition (Some "humidity") 80), "humidity".
    split; [reflexivity|]. split; [reflexivity|]. vm_compute. eauto.
  - exact humiditySplit_nonempty.
  - exact humiditySplit_named.
Defined.

(** C8: the branch of a rainy day under a split on the outlook, a value the
    attribute knows. *)
Definition outlook : Attribute.t :=
  {| Attribute.Name := "outlook"; Attribute.Kind := AttributeKindNominal;
     Attribute.Values := Some (AttributeValues.NewAttributeValues ["sunny"; "overcast"; "rainy"]) |}.

Definition outlookModel : Model.t :=
  Model.store weatherModel "outlook" outlook.

Lemma outlook_Dense : AttributeValues.Dense (Attribute.valuesOf outlook).
Proof.
  change (AttributeValues.Dense
            (AttributeValues.NewAttributeValues ["sunny"; "overcast"; "rainy"])).
  apply NewAttributeValues_Dense. apply (bool_decide_unpack _). vm_compute. reflexivity.
Qed.

Lemma Branch_spec_witness :
  exists b : Z,
    Branch (nominalMultiwaySplitCondition (Some "outlook")) rainy outlookModel
      = Ok (b, Model.store outlookModel "outlook" (snd (Attribute.Value outlook rainy))) /\
    b = 2 /\ 0 <= b < Attribute.Len outlook /\
    Attribute.Len (snd (Attribute.Value outlook rainy)) = Attribute.Len outlook.
Proof.
  destruct (Branch_spec (nominalMultiwaySplitCondition (Some "outlook")) rainy
              outlookModel "outlook" outlook) as (_ & b & Hcall & _ & Hvalue).
  - reflexivity.
  - vm_compute. reflexivity.
  - exists b. split; [exact Hcall|].
    destruct (Hvalue eq_refl) as (_ & Hnominal).
    destruct Hnominal as (s & Hs & Hcase & _).
    + reflexivity.
    + exact outlook_Dense.
    + vm_compute. reflexivity.
    + assert (Hname : s = "rainy").
      { destruct Hs as [Hs|Hs]; vm_compute in Hs; congruence. }
      subst s.
      assert (Hl : AttributeValues.vi (Attribute.valuesOf outlook) !! "rainy" = Some 2)
        by (vm_compute; reflexivity).
      rewrite Hl in Hcase. exact Hcase.
Defined.

(** A day with an outlook the attribute has not seen: the branch is 3, the
    number of values [outlook] has, which is no position among them. *)
Definition foggy : Instance := day "foggy" 75 "no".

Lemma Branch_beyond_arity :
  Attribute.Len outlook = 3 /\
  AttributeValue.IsMissing (fst (Attribute.Value outlook foggy)) = false /\
  Branch (nominalMultiwaySplitCondition (Some "outlook")) foggy outlookModel
    = Ok (3, Model.store outlookModel "outlook" (snd (Attribute.Value outlook foggy))) /\
  ~ (0 <= 3 < Attribute.Len outlook).
Proof.
  split; [reflexivity|]. split; [reflexivity|].
  split; [vm_compute; reflexivity|].
  change (Attribute.Len outlook) with 3. lia.
Defined.

(** Two more branches outside [0 .. Len-1]. A value set built from a name
    given twice has a gap in its indices, and a name it knows gets the
    index [Len]; under a nominal condition on a numeric attribute, which has
    no values, the branch is the number itself. *)
Definition wind : Attribute.t :=
  {| Attribute.Name := "wind"; Attribute.Kind := AttributeKindNominal;
     Attribute.Values := Some (AttributeValues.NewAttributeValues ["calm"; "calm"; "gale"]) |}.

Example Branch_duplicate_names :
  Attribute.Len wind = 2 /\
  exists m', Branch (nominalMultiwaySplitCondition (Some "wind"))
               (fun _ => IVstring "gale") (Model.store weatherModel "wind" wind)
             = Ok (2, m').
Proof. split; [reflexivity|]. eexists. vm_compute. reflexivity. Qed.

Example Branch_numeric_attribute :
  (forall a, Model.Predictor weatherModel "humidity" = Some a -> Attribute.Len a = 0) /\
  exists m', Branch (nominalMultiwaySplitCondition (Some "humidity")) sunny weatherModel
             = Ok (85, m').
Proof.
  split.
  - intros a Ha. vm_compute in Ha. inversion Ha. reflexivity.
  - eexists. vm_compute. reflexivity.
Qed.

Example Branch_numeric :
  (exists m', Branch (numericBinarySplitCondition (Some "humidity") 80) sunny weatherModel
              = Ok (1, m')) /\
  (exists m', Branch (numericBinarySplitCondition (Some "humidity") 80) rainy weatherModel
              = Ok (0, m')) /\
  (exists m', Branch (numericBinarySplitCondition (Some "humidity") 80)
                (fun _ => IVother) weatherModel
              = Ok (-1, m')).
Proof. repeat split; eexists; vm_compute; reflexivity. Qed.



(** C7: the codec of the class counts, and the round trip of the tree that
    splits on the outlook. *)
Fixpoint encodeCounts (s : classCounts) : list Msgpack.token :=
  match s with
  | [] => []
  | (class, weight) :: rest =>
      Msgpack.Int class :: Msgpack.Float weight :: encodeCounts rest
  end.

Fixpoint decodeCounts (n : nat) (ts : list Msgpack.token) : Msgpack.decoded classCounts :=
  match n with
  | O => Msgpack.Decoded [] ts
  | S n' =>
      match ts with
      | Msgpack.Int class :: Msgpack.Float weight :: ts' =>
          match decodeCounts n' ts' with
          | Msgpack.Decoded s rest => Msgpack.Decoded ((class, weight) :: s) rest
          | Msgpack.Malformed => Msgpack.Malformed
          end
      | _ => Msgpack.Malformed
      end
  end.

Definition encodeClassCounts (s : classCounts) : list Msgpack.token :=
  Msgpack.Int (Z.of_nat (length s)) :: encodeCounts s.

Definition decodeClassCounts (ts : list Msgpack.token) : Msgpack.decoded classCounts :=
  match ts with
  | Msgpack.Int n :: ts' => decodeCounts (Z.to_nat n) ts'
  | _ => Msgpack.Malformed
  end.

Lemma decodeCounts_encodeCounts (s : classCounts) (rest : list Msgpack.token) :
  decodeCounts (length s) (encodeCounts s ++ rest) = Msgpack.Decoded s rest.
Proof.
  induction s as [|[class weight] s IH]; [reflexivity|].
  simpl. now rewrite IH.
Qed.

Lemma decodeClassCounts_encodeClassCounts (s : option classCounts)
    (rest : list Msgpack.token) :
  Msgpack.decodePtr 7740 decodeClassCounts
    (Msgpack.encodePtr 7740 encodeClassCounts s ++ rest)
  = Msgpack.Decoded s rest.
Proof.
  rewrite (Msgpack.decodePtr_encodePtr 7740 _ _ id).
  - now destruct s.
  - intros a r. unfold decodeClassCounts, encodeClassCounts. simpl.
    now rewrite Nat2Z.id, decodeCounts_encodeCounts.
Qed.

#[export] Instance classCountCodec : StatsCodec classCounts := {|
  EncodeStats := Msgpack.encodePtr 7740 encodeClassCounts;
  DecodeStats := Msgpack.decodePtr 7740 decodeClassCounts;
  DecodeStats_EncodeStats := decodeClassCounts_encodeClassCounts
|}.

Definition leafCode : Z := 7751.
Definition splitCode : Z := 7752.

Definition dump : Tree classCounts -> result (list Msgpack.token) :=
  DumpTo leafCode splitCode.

Definition load : list Msgpack.token -> option Config -> Msgpack.decoded (Tree classCounts) :=
  Load leafCode splitCode (fun _ c => c).

Lemma weatherModel_named : Model.named weatherModel.
Proof.
  intros name a Ha. unfold Model.Predictor, weatherModel in Ha. simpl in Ha.
  apply lookup_insert_Some in Ha as [[<- <-]|[_ Ha]]; [reflexivity|].
  apply lookup_insert_Some in Ha as [[<- <-]|[_ Ha]]; [reflexivity|].
  now rewrite lookup_empty in Ha.
Qed.

Lemma DumpTo_Load_witness :
  exists stream t',
    dump outlookTree = Ok stream /\
    load stream None = Msgpack.Decoded t' [] /\
    root t' = root outlookTree /\
    forall insts, PredictAll t' insts = PredictAll outlookTree insts.
Proof.
  apply (DumpTo_Load leafCode splitCode).
  - unfold leafCode, splitCode. lia.
  - exact weatherModel_named.
  - simpl. split; [|tauto].
    exists (nominalMultiwaySplitCondition (Some "outlook")), "outlook".
    split; [reflexivity|]. split; [reflexivity|]. vm_compute. eauto.
Defined.

(** What the stream of that tree is, item by item. *)
Example dump_outlookTree :
  dump outlookTree
  = Ok [ Msgpack.Tag 7750;
         Msgpack.Tag 7729; Msgpack.Str "play"; Msgpack.Int 1;
         Msgpack.Tag 7730; Msgpack.StrIntMap (<["yes" := 0%Z]> (<["no" := 1%Z]> ∅));
         Msgpack.Int 2;
         Msgpack.Tag 7729; Msgpack.Str "outlook"; Msgpack.Int 1; Msgpack.Nil;
         Msgpack.Tag 7729; Msgpack.Str "humidity"; Msgpack.Int 0; Msgpack.Nil;
         Msgpack.Tag 7752; Msgpack.Tag 7743; Msgpack.Str "outlook";
         Msgpack.Tag 7740; Msgpack.Int 2;
         Msgpack.Int 1; Msgpack.Float 2; Msgpack.Int 0; Msgpack.Float 1;
         Msgpack.Int 1; Msgpack.Int 0;
         Msgpack.Tag 7751; Msgpack.Tag 7740; Msgpack.Int 1;
         Msgpack.Int 1; Msgpack.Float 2;
         Msgpack.Float 0; Msgpack.Bool false ].
Proof. vm_compute. reflexivity. Qed.

(** A condition left without its attribute cannot be written: [Predictor]
    dereferences the nil attribute. *)
Example dump_nil_attribute :
  dump {| conf := config 200 0 1000;
          root := SplitNode (Some (nominalMultiwaySplitCondition None)) (Some [])
                            NoChildren;
          model := weatherModel; leaves := []; cycles := 0 |}
  = Panic NilDereference.
Proof. reflexivity. Qed.

(** A stream that does not start with the code of a tree is refused. *)
Example load_unknown_tag : load [Msgpack.Tag 1; Msgpack.Nil] None = Msgpack.Malformed.
Proof. reflexivity. Qed.

(** *** Further theorems at concrete inputs *)

Lemma outlook_WellIndexed : AttributeValues.WellIndexed (valuesOf outlook).
Proof.
  change (AttributeValues.WellIndexed
            (AttributeValues.NewAttributeValues ["sunny"; "overcast"; "rainy"])).
  apply NewAttributeValues_WellIndexed.
  apply (bool_decide_unpack _). vm_compute. reflexivity.
Qed.

Lemma Describe_Branch_witness :
  let c := nominalMultiwaySplitCondition (Some "outlook") in
  exists b m',
    Branch c rainy outlookModel = Ok (b, m') /\
    forall order a',
      Model.Predictor m' "outlook" = Some a' ->
      Permutation order (map_to_list (AttributeValues.vi (valuesOf a'))) ->
      exists m'', Describe (fun _ => "80.000000") order c b m' = Ok ("rainy", m'').
Proof.
  apply (Describe_Branch (fun _ => "80.000000") outlookModel "outlook" outlook rainy "rainy").
  - reflexivity.
  - reflexivity.
  - exact outlook_WellIndexed.
  - vm_compute. reflexivity.
  - left. reflexivity.
Defined.

Lemma DecodeFrom_EncodeTo_witness :
  Helpers.EncodeTo (numericBinarySplitCondition (Some "humidity") 80) weatherModel
    = Ok [Msgpack.Str "humidity"; Msgpack.Float 80] /\
  forall rest : list Msgpack.token,
    Helpers.DecodeFrom 7744 weatherModel
      ([Msgpack.Str "humidity"; Msgpack.Float 80] ++ rest)
    = Msgpack.Decoded (numericBinarySplitCondition (Some "humidity") 80) rest.
Proof.
  apply (proj2 (DecodeFrom_EncodeTo weatherModel
                  (numericBinarySplitCondition (Some "humidity") 80))
           "humidity"
           {| Attribute.Name := "humidity"; Attribute.Kind := AttributeKindNumeric;
              Attribute.Values := None |}).
  - exact weatherModel_named.
  - reflexivity.
  - vm_compute. reflexivity.
Defined.

Lemma DecodeFrom_unknown_predictor_witness :
  Helpers.DecodeFrom 7743 weatherModel [Msgpack.Str "windy"]
    = Msgpack.Decoded (nominalMultiwaySplitCondition None) [] /\
  Helpers.DecodeFrom 7744 weatherModel [Msgpack.Str "windy"; Msgpack.Float 0.5]
    = Msgpack.Decoded (numericBinarySplitCondition None 0.5) [] /\
  forall c inst,
    conditionAttribute c = None ->
    Branch c inst weatherModel = Panic NilDereference /\
    Helpers.Predictor c weatherModel = Panic NilDereference /\
    Helpers.EncodeTo c weatherModel = Panic NilDereference.
Proof.
  apply (DecodeFrom_unknown_predictor weatherModel "windy" 0.5 []).
  vm_compute. reflexivity.
Defined.

Definition ranked : SplitSuggestions classCounts :=
  [ None;
    Some {| cond := Some (numericBinarySplitCondition (Some "humidity") 80);
            merit := 0.5; mrange := 1; preStats := None; postStats := [] |};
    Some {| cond := Some (nominalMultiwaySplitCondition (Some "outlook"));
            merit := 0.25; mrange := 1; preStats := None; postStats := [] |} ].

Lemma Rank_best_first_witness :
  Permutation (Rank ranked) ranked /\
  forall (i j : nat) (a b : option (SplitSuggestion classCounts)),
    (i <= j)%nat -> Rank ranked !! i = Some a -> Rank ranked !! j = Some b ->
    (Merit b <=? Merit a)%float = true.
Proof.
  apply (Rank_best_first ranked).
  intros s [<-|[<-|[<-|[]]]]; reflexivity.
Defined.

(** A suggestion whose merit is not a number. *)
Definition nanSplit (c : Config) (m : Model.t) (leaf : leafNode classCounts)
  : SplitSuggestions classCounts :=
  [ Some {| cond := Some (numericBinarySplitCondition (Some "humidity") 80);
            merit := nan; mrange := 1; preStats := Some (Stats leaf);
            postStats := [(0, []); (1, [])] |} ].

(** C1: the only suggestion has a merit that is not a number, so the merit
    gain is NaN and is not strictly positive; the bound, about 0.013, is
    below the tie threshold, and [attemptSplit] returns a split node. *)
Lemma attemptSplit_without_positive_gain :
  IsSufficient (Stats matureLeaf) = true /\
  IsInactive matureLeaf = false /\
  (0 <? meritGainOf (nanSplit (config 1 0 1000) weatherModel matureLeaf))%float = false /\
  (hoeffdingBound logOf (config 1 0 1000) 1 2048 <? TieThreshold (config 1 0 1000))%float
    = true /\
  attemptSplit logOf nanSplit (newTree (config 1 0 1000)) matureLeaf 2048 None
    = Ok (Some (newSplitNode (Some (numericBinarySplitCondition (Some "humidity") 80))
                  (Some (Stats matureLeaf)) [(0, []); (1, [])]),
          None).
Proof.
  split; [reflexivity|]. split; [reflexivity|]. split; [reflexivity|].
  split; [reflexivity|]. vm_compute. reflexivity.
Defined.

Lemma attemptSplit_NaN_gain_witness :
  let t := newTree (config 1 0 1000) in
  let best := Some {| cond := Some (numericBinarySplitCondition (Some "humidity") 80);
                      merit := nan; mrange := 1; preStats := Some (Stats matureLeaf);
                      postStats := [(0, []); (1, [])] |} in
  attemptSplit logOf nanSplit t matureLeaf 2048 None
  = Ok (if (hoeffdingBound logOf (conf t) (Range best) 2048 <? TieThreshold (conf t))%float
        then Some (newSplitNode (Condition best) (PreStats best) (PostStats best))
        else None,
        None).
Proof.
  apply (attemptSplit_NaN_gain logOf nanSplit (newTree (config 1 0 1000)) matureLeaf 2048
           None _ []).
  - reflexivity.
  - reflexivity.
  - reflexivity.
  - eexists. vm_compute. reflexivity.
  - reflexivity.
Defined.

(** An instance that says nothing about the humidity. *)
Definition noHumidity : Instance :=
  fun name => if String.eqb name "outlook" then IVstring "sunny" else IVother.

Lemma Train_off_leaf_witness :
  let m1 := Model.store weatherModel "humidity"
              {| Attribute.Name := "humidity"; Attribute.Kind := AttributeKindNumeric;
                 Attribute.Values := None |} in
  let t1 := {| conf := conf splitTree; root := root splitTree; model := m1;
               leaves := leaves splitTree; cycles := cycles splitTree |} in
  train splitTree noHumidity = Ok (None, t1) /\
  Predict splitTree noHumidity
  = match nodePredict (root splitTree) with
    | Ok votes => Ok (votes, t1)
    | Panic why => Panic why
    end.
Proof.
  apply (Train_off_leaf logOf humiditySplit byWeight 40 64 splitTree noHumidity
           {| node := Some []; parent := None; parentIndex := -1 |}
           (Model.store weatherModel "humidity"
              {| Attribute.Name := "humidity"; Attribute.Kind := AttributeKindNumeric;
                 Attribute.Values := None |})
           [] (Some (numericBinarySplitCondition (Some "humidity") 80))
           (Some [(1%Z, 2%float); (0%Z, 1%float)])
           (Child 0 (LeafNode (newLeafNode [(0%Z, 1%float)]))
              (Child 1 (LeafNode (newLeafNode [(1%Z, 2%float)])) NoChildren))).
  - vm_compute. reflexivity.
  - reflexivity.
  - reflexivity.
Defined.

(** The tree that splits on the outlook, over a model that knows the three
    outlooks: rainy days take branch 2, which has no child yet. *)
Definition sparseTree : Tree classCounts :=
  {| conf := conf outlookTree; root := root outlookTree; model := outlookModel;
     leaves := []; cycles := 3 |}.

(** C4: a rainy day at the sparse tree comes down on the empty branch 2 of
    the root. The fresh leaf has a weight of 1, below the grace period of
    200; [Train] returns, and the tree has a leaf it did not have. *)
Lemma Train_within_grace_period_new_leaf :
  exists t3,
    train sparseTree rainy = Ok (None, t3) /\
    GracePeriod (conf sparseTree) = 200 /\
    nodeAt (root sparseTree) [2] = None /\
    leafAt (root t3) [2] = Some (mkLeafNode [(0, 1%float)] 0 false) /\
    shapeOf (root t3) <> shapeOf (root sparseTree).
Proof.
  eexists. split; [vm_compute; reflexivity|].
  split; [reflexivity|]. split; [reflexivity|]. split; [reflexivity|].
  vm_compute. discriminate.
Defined.

Lemma Train_fills_slot_witness :
  exists pp c s cs,
    Some [] = Some pp /\
    nodeAt (root sparseTree) pp = Some (SplitNode c s cs) /\
    getChild cs 2 = None /\
    Predict sparseTree rainy
      = match nodePredict (SplitNode c s cs) with
        | Ok votes => Ok (votes, {| conf := conf sparseTree; root := root sparseTree;
                                    model := Model.store outlookModel "outlook" outlook;
                                    leaves := leaves sparseTree;
                                    cycles := cycles sparseTree |})
        | Panic why => Panic why
        end /\
    forall trace t', train sparseTree rainy = Ok (trace, t') ->
      exists n, nodeAt (root t') (pp ++ [2])%list = Some n.
Proof.
  apply (Train_fills_slot logOf humiditySplit byWeight 40 64 sparseTree rainy
           {| node := None; parent := Some []; parentIndex := 2 |}
           (Model.store outlookModel "outlook" outlook)).
  - vm_compute. reflexivity.
  - reflexivity.
Defined.

Lemma TrainAll_never_removes_witness :
  exists t',
    TrainAll logOf humiditySplit byWeight 40 64 splitTree [sunny; rainy] = Ok t' /\
    exists n',
      nodeAt (root t') [] = Some n' /\
      forall c s cs, root splitTree = SplitNode c s cs ->
        exists s' cs', n' = SplitNode c s' cs' /\
          forall i child, getChild cs i = Some child -> is_Some (getChild cs' i).
Proof.
  destruct (TrainAll logOf humiditySplit byWeight 40 64 splitTree [sunny; rainy])
    as [t'|why] eqn:E; [|vm_compute in E; discriminate E].
  exists t'. split; [reflexivity|].
  apply (TrainAll_never_removes logOf humiditySplit byWeight 40 64 [sunny; rainy]
           splitTree t' [] (root splitTree) E).
  reflexivity.
Defined.

(** The tree that reports on a channel, fresh from [New] with a
    configuration taken as it is. *)
Definition channelTree : HoeffdingChannel.Tree classCounts :=
  HoeffdingChannel.New (fun _ c => c) weatherModel (Some (config 1 0 1000)).


Example attemptSplit_reports_example :
  HoeffdingChannel.attemptSplit logOf humiditySplit channelTree matureLeaf 2048 None
  = Ok (Some (newSplitNode (Some (numericBinarySplitCondition (Some "humidity") 80))
                (Some (Stats matureLeaf)) [(0%Z, []); (1%Z, [])]),
        Some {| Trace.PossibleSplits :=
                  [ {| TracePossibleSplit.Predictor := "humidity";
                       TracePossibleSplit.Merit := 0.25 |} ];
                Trace.MeritGain := 0.25;
                Trace.HoeffdingBound := sqrt (Ln2 / 4096);
                Trace.Split := false |}).
Proof. vm_compute. reflexivity. Qed.

Lemma Train_zero_prune_period_witness :
  HoeffdingChannel.Train logOf humiditySplit byWeight 40 64 channelTree sunny
  = if EnableTracing (HoeffdingChannel.conf channelTree)
       && (HoeffdingChannel.capacity <=? length (HoeffdingChannel.traces channelTree))%nat
    then HoeffdingChannel.Blocks else HoeffdingChannel.Panics DivideByZero.
Proof.
  apply (HoeffdingChannel.Train_zero_prune_period logOf humiditySplit byWeight 40 64
           channelTree sunny
           {| node := Some []; parent := None; parentIndex := -1 |} weatherModel).
  - reflexivity.
  - reflexivity.
  - intros ptr E. inversion E. eexists. reflexivity.
Defined.

End Weather.
